(** * mini-lsm-table: a shallow embedding of the storage engine

    The development follows the Go packages of the repository:
    [Entry], the record codec shared by the WAL and the SSTables, [WAL],
    [BloomFilter], [BlockIndex], [SSTable] with its builder, [MemTable],
    [CompactionManager] and the coordinating [LSMTableService].

    Conventions.
    - A [[]byte] is a [list byte]; [string(key)] is the same list.
    - Go integers are [Z]; fixed-width wrap-around is written out.
    - A [time.Time] is the [int64] that [UnixNano] returns for it.
    - A function that returns [(T, error)] returns a [result]; a run-time
      panic is a separate outcome of the [M] monad. *)

From Stdlib Require Import ZArith Floats Uint63 Lia.
From stdpp Require Import gmap strings list pretty sorting.
Import ListNotations.

Open Scope Z_scope.

(** ** Bytes *)

Abbreviation byte := Byte.byte.

#[global] Instance byte_eq_dec : EqDecision byte := Byte.byte_eq_dec.

#[global] Instance byte_countable : Countable byte :=
  inj_countable Byte.to_N Byte.of_N Byte.of_to_N.

Definition byte_val (b : byte) : Z := Z.of_N (Byte.to_N b).

Definition byte_of_Z (z : Z) : byte :=
  match Byte.of_N (Z.to_N (z mod 256)) with
  | Some b => b
  | None => Byte.x00
  end.

(** [bytes.Compare]: lexicographic comparison, a proper prefix first. *)
Fixpoint bytes_Compare (a b : list byte) : Z :=
  match a, b with
  | [], [] => 0
  | [], _ :: _ => -1
  | _ :: _, [] => 1
  | x :: a', y :: b' =>
      if byte_val x <? byte_val y then -1
      else if byte_val y <? byte_val x then 1
      else bytes_Compare a' b'
  end.

(** ** Errors and results *)

Inductive error : Type :=
  | ErrKeyNotFound
  | ErrTableFull
  | ErrReadOnly
  | EOF
  | ErrUnexpectedEOF
  | ErrClosed
  | ErrNotExist
  | ErrNoInput
  | ErrNoEntries
  | ErrWrap (msg : string) (cause : error).

Inductive result (A : Type) : Type :=
  | Ok (a : A)
  | Err (e : error).
Arguments Ok {A} a.
Arguments Err {A} e.

Definition is_Ok {A} (r : result A) : bool :=
  match r with Ok _ => true | Err _ => false end.

(** ** Entry (entry.go) *)

Definition EntryTypePut : Z := 0.
Definition EntryTypeDelete : Z := 1.

Record Entry : Type := mkEntry {
  key : list byte;
  value : list byte;
  entryType : Z;
  timestamp : Z
}.

Definition NewPutEntryAt (now : Z) (k v : list byte) : Entry :=
  {| key := k; value := v; entryType := EntryTypePut; timestamp := now |}.

Definition NewDeleteEntryAt (now : Z) (k : list byte) : Entry :=
  {| key := k; value := []; entryType := EntryTypeDelete; timestamp := now |}.

Definition IsDeleted (e : Entry) : bool := entryType e =? EntryTypeDelete.

Definition Compare (e other : Entry) : Z := bytes_Compare (key e) (key other).

Definition IsNewerThan (e other : Entry) : bool := timestamp other <? timestamp e.

(** ** The record codec ([WAL.WriteEntry], [SSTableBuilder.writeEntry],
       [readEntry])

    Layout, little-endian: [uint32 keyLen | key | uint32 valueLen | value |
    uint8 entryType | int64 UnixNano]. *)

Fixpoint le_bytes (n : nat) (z : Z) : list byte :=
  match n with
  | O => []
  | S n' => byte_of_Z (z mod 256) :: le_bytes n' (z / 256)
  end.

Fixpoint le_value (bs : list byte) : Z :=
  match bs with
  | [] => 0
  | b :: r => byte_val b + 256 * le_value r
  end.

Definition to_int64 (u : Z) : Z :=
  if u <? 2 ^ 63 then u else u - 2 ^ 64.

Definition len {A} (l : list A) : Z := Z.of_nat (length l).

Definition writeEntry (e : Entry) : list byte :=
  le_bytes 4 (len (key e)) ++ key e ++
  le_bytes 4 (len (value e)) ++ value e ++
  le_bytes 1 (entryType e) ++
  le_bytes 8 (timestamp e).

Definition writeEntries (es : list Entry) : list byte :=
  concat (map writeEntry es).

(** A reader is the list of bytes not yet consumed. [io.ReadFull] reports
    [EOF] only when no byte at all was read, [ErrUnexpectedEOF] when some
    but not all were, and succeeds at once on an empty buffer. *)
Definition ReadFull (n : nat) (r : list byte) : result (list byte * list byte) :=
  match n with
  | O => Ok ([], r)
  | _ =>
      match r with
      | [] => Err EOF
      | _ => if (length r <? n)%nat then Err ErrUnexpectedEOF
             else Ok (take n r, drop n r)
      end
  end.

(** [binary.Read] of an [n]-byte unsigned integer. *)
Definition binary_Read (n : nat) (r : list byte) : result (Z * list byte) :=
  match ReadFull n r with
  | Ok (bs, r') => Ok (le_value bs, r')
  | Err e => Err e
  end.

Definition readEntry (r : list byte) : result (Entry * list byte) :=
  match binary_Read 4 r with
  | Err e => Err e
  | Ok (keyLen, r1) =>
  match ReadFull (Z.to_nat keyLen) r1 with
  | Err e => Err e
  | Ok (k, r2) =>
  match binary_Read 4 r2 with
  | Err e => Err e
  | Ok (valueLen, r3) =>
  match ReadFull (Z.to_nat valueLen) r3 with
  | Err e => Err e
  | Ok (v, r4) =>
  match binary_Read 1 r4 with
  | Err e => Err e
  | Ok (ty, r5) =>
  match binary_Read 8 r5 with
  | Err e => Err e
  | Ok (ts, r6) =>
      Ok ({| key := k; value := v; entryType := ty;
             timestamp := to_int64 ts |}, r6)
  end end end end end end.

(** The reading loop of [WAL.Recover] and [SSTable.GetAllEntries]:
    [for { entry, err := readEntry(reader); if err == io.EOF { break };
    if err != nil { return nil, wrap(err) }; entries = append(entries, entry) }].
    Every successful [readEntry] consumes at least 17 bytes, so a budget of
    one more than the number of bytes cannot run out ([readLoop_total]
    below); [None] is the exhausted budget. *)
Fixpoint readLoop (fuel : nat) (msg : string) (r : list byte) (acc : list Entry)
  : option (result (list Entry)) :=
  match fuel with
  | O => None
  | S fuel' =>
      match readEntry r with
      | Err EOF => Some (Ok acc)
      | Err e => Some (Err (ErrWrap msg e))
      | Ok (e, r') => readLoop fuel' msg r' (acc ++ [e])
      end
  end.

Definition readAll (msg : string) (r : list byte) : result (list Entry) :=
  match readLoop (S (length r)) msg r [] with
  | Some res => res
  | None => Err (ErrWrap "read budget exhausted" EOF)
  end.

(** ** BloomFilter (bloom_filter.go) *)

Module BloomFilter.

Record t : Type := mk {
  bitArray : list bool;
  size : Z;        (* uint32 *)
  hashFuncs : Z    (* int *)
}.

Definition uint32 (z : Z) : Z := z mod 2 ^ 32.

(** [hash/fnv]: 32-bit FNV-1a ([New32a]) and FNV-1 ([New32]). *)
Definition fnv_offset32 : Z := 2166136261.
Definition fnv_prime32 : Z := 16777619.

Definition fnv32a (data : list byte) : Z :=
  fold_left (fun h b => uint32 (Z.lxor h (byte_val b) * fnv_prime32))
            data fnv_offset32.

Definition fnv32 (data : list byte) : Z :=
  fold_left (fun h b => Z.lxor (uint32 (h * fnv_prime32)) (byte_val b))
            data fnv_offset32.

Definition getHashes (k : list byte) : Z * Z := (fnv32a k, fnv32 k).

(** Truncation of a float toward zero, as the Go conversions [uint32(f)] and
    [int(f)] do for values in range.  Go leaves the conversion of other
    values to the implementation; here a non-finite float gives 0 and
    [uint32] wraps. *)
Definition float_trunc (f : float) : Z :=
  match Prim2SF f with
  | S754_finite s m e =>
      let v := if 0 <=? e then Z.pos m * 2 ^ e else Z.pos m / 2 ^ (- e) in
      if s then - v else v
  | _ => 0
  end.

Definition float_of_Z (z : Z) : float := PrimFloat.of_uint63 (Uint63.of_Z z).

(** [math.Log(2)] as a float64. *)
Definition LN2 : float := 0x1.62e42fefa39efp-1%float.

(** [NewBloomFilter(capacity, falsePositiveRate)].  [math.Log] is the Go
    library's; the caller passes [logRate = math.Log(falsePositiveRate)]. *)
Definition NewBloomFilter (capacity : Z) (logRate : float) : t :=
  let capacity := uint32 capacity in
  let size := uint32 (float_trunc
                (PrimFloat.div
                   (PrimFloat.mul (PrimFloat.opp (float_of_Z capacity)) logRate)
                   (PrimFloat.mul LN2 LN2))) in
  let hashFuncs := float_trunc
                (PrimFloat.div (PrimFloat.mul (float_of_Z size) LN2)
                               (float_of_Z capacity)) in
  let hashFuncs := if hashFuncs <? 1 then 1 else hashFuncs in
  {| bitArray := replicate (Z.to_nat size) false;
     size := size;
     hashFuncs := hashFuncs |}.

(** [(hashes[0] + uint32(i)*hashes[1]) % bf.size]; the remainder by zero
    panics. *)
Definition index (bf : t) (hashes : Z * Z) (i : Z) : option nat :=
  if size bf =? 0 then None
  else Some (Z.to_nat (uint32 (fst hashes + uint32 i * snd hashes) mod size bf)).

(** [bf.bitArray[index] = true]; an index outside the array panics. *)
Definition set_bit (bf : t) (ix : nat) : option t :=
  if (ix <? length (bitArray bf))%nat
  then Some {| bitArray := <[ix := true]> (bitArray bf);
               size := size bf; hashFuncs := hashFuncs bf |}
  else None.

(** The loop [for i := start; i < bf.hashFuncs; i++], [n] rounds of it. *)
Fixpoint Add_loop (n : nat) (hashes : Z * Z) (i : Z) (bf : t) : option t :=
  match n with
  | O => Some bf
  | S n' =>
      match index bf hashes i with
      | None => None
      | Some ix =>
          match set_bit bf ix with
          | None => None
          | Some bf' => Add_loop n' hashes (i + 1) bf'
          end
      end
  end.

(** [Add]; [None] is a panic. *)
Definition Add (bf : t) (k : list byte) : option t :=
  Add_loop (Z.to_nat (hashFuncs bf)) (getHashes k) 0 bf.

Fixpoint Contains_loop (n : nat) (hashes : Z * Z) (i : Z) (bf : t) : option bool :=
  match n with
  | O => Some true
  | S n' =>
      match index bf hashes i with
      | None => None
      | Some ix =>
          match bitArray bf !! ix with
          | None => None
          | Some false => Some false
          | Some true => Contains_loop n' hashes (i + 1) bf
          end
      end
  end.

(** [Contains]; [None] is a panic. *)
Definition Contains (bf : t) (k : list byte) : option bool :=
  Contains_loop (Z.to_nat (hashFuncs bf)) (getHashes k) 0 bf.

(** Adding a sequence of keys, one [Add] after the other. *)
Fixpoint AddAll (bf : t) (ks : list (list byte)) : option t :=
  match ks with
  | [] => Some bf
  | k :: ks' =>
      match Add bf k with
      | None => None
      | Some bf' => AddAll bf' ks'
      end
  end.

End BloomFilter.

(** ** BlockIndex (block_index.go) *)

Module BlockIndex.

Record IndexEntry : Type := mkIndexEntry {
  Key : list byte;
  Offset : Z       (* uint64 *)
}.

Record t : Type := mk {
  entries : list IndexEntry;
  blockSize : Z
}.

Definition NewBlockIndex (blockSize : Z) : t :=
  {| entries := []; blockSize := blockSize |}.

Definition AddEntry (idx : t) (k : list byte) (offset : Z) : t :=
  {| entries := entries idx ++ [{| Key := k; Offset := offset |}];
     blockSize := blockSize idx |}.

(** The binary-search loop [for left <= right].  The interval shrinks in
    every round, so [S (length entries)] rounds are enough; [None] is the
    exhausted budget or an index outside the slice. *)
Fixpoint FindOffset_loop (fuel : nat) (es : list IndexEntry)
    (targetKey : list byte) (left right bestOffset : Z) : option Z :=
  match fuel with
  | O => None
  | S fuel' =>
      if left <=? right then
        let mid := left + (right - left) / 2 in
        match es !! Z.to_nat mid with
        | None => None
        | Some ie =>
            if bytes_Compare (Key ie) targetKey <=? 0
            then FindOffset_loop fuel' es targetKey (mid + 1) right (Offset ie)
            else FindOffset_loop fuel' es targetKey left (mid - 1) bestOffset
        end
      else Some bestOffset
  end.

Definition FindOffset (idx : t) (targetKey : list byte) : Z :=
  match entries idx with
  | [] => 0
  | _ => default 0
           (FindOffset_loop (S (length (entries idx))) (entries idx) targetKey
              0 (len (entries idx) - 1) 0)
  end.

Definition Size (idx : t) : Z := len (entries idx).

End BlockIndex.

(** ** MemTable *)

Module MemTable.

Record t : Type := mk {
  entries : gmap (list byte) Entry;
  maxSize : Z;
  size : Z;
  readOnly : bool
}.

Definition NewMemTable (maxSize : Z) : t :=
  {| entries := ∅; maxSize := maxSize; size := 0; readOnly := false |}.

Definition exists_ (mt : t) (k : list byte) : bool :=
  bool_decide (is_Some (entries mt !! k)).

(** [Put]; [now] is the reading of [time.Now()] taken by [NewPutEntry]. *)
Definition Put (mt : t) (now : Z) (k v : list byte) : result t :=
  if readOnly mt then Err ErrReadOnly
  else
    let keyStr := k in
    let entry := NewPutEntryAt now k v in
    if negb (exists_ mt keyStr) && (maxSize mt <=? size mt)
    then Err ErrTableFull
    else
      let size' := if negb (exists_ mt keyStr) then size mt + 1 else size mt in
      Ok {| entries := <[keyStr := entry]> (entries mt);
            maxSize := maxSize mt; size := size'; readOnly := readOnly mt |}.

(** [Delete]; [now] is the reading of [time.Now()] taken by [NewDeleteEntry]. *)
Definition Delete (mt : t) (now : Z) (k : list byte) : result t :=
  if readOnly mt then Err ErrReadOnly
  else
    let keyStr := k in
    let entry := NewDeleteEntryAt now k in
    if negb (exists_ mt keyStr) && (maxSize mt <=? size mt)
    then Err ErrTableFull
    else
      let size' := if negb (exists_ mt keyStr) then size mt + 1 else size mt in
      Ok {| entries := <[keyStr := entry]> (entries mt);
            maxSize := maxSize mt; size := size'; readOnly := readOnly mt |}.

Definition Get (mt : t) (k : list byte) : result Entry :=
  match entries mt !! k with
  | Some e => Ok e
  | None => Err ErrKeyNotFound
  end.

Definition Size (mt : t) : Z := size mt.

Definition IsFull (mt : t) : bool := maxSize mt <=? size mt.

Definition SetReadOnly (mt : t) : t :=
  {| entries := entries mt; maxSize := maxSize mt; size := size mt;
     readOnly := true |}.

(** [GetAllEntries] ranges over the Go map, whose order is unspecified; the
    model lists the entries in the order of [map_to_list]. *)
Definition GetAllEntries (mt : t) : list Entry :=
  (map_to_list (entries mt)).*2.

Definition IsReadOnly (mt : t) : bool := readOnly mt.

End MemTable.

(** ** SSTable: the data carried by a table *)

Record SSTableMetadata : Type := mkMetadata {
  Level : Z;
  FileName : string;
  MinKey : list byte;
  MaxKey : list byte;
  EntryCount : Z;      (* uint32 *)
  FileSize : Z;        (* uint64 *)
  CreatedAt : Z;
  BloomFilter : option BloomFilter.t;   (* a pointer, possibly nil *)
  BlockIndex : option BlockIndex.t      (* a pointer, possibly nil *)
}.

(** An [*SSTable].  Tables are never mutated after [Build]; [addr] stands
    for the address of the struct, which is what [table == inputTable]
    compares. *)
Record SSTable : Type := mkSSTable {
  metadata : SSTableMetadata;
  filePath : string;
  addr : nat
}.

Definition ptr_eqb (a b : SSTable) : bool := (addr a =? addr b)%nat.

(** ** The world: file system, clock and the heap of slice arrays *)

Record World : Type := mkWorld {
  disk : gmap string (list byte);
  clock : Z;                                   (* the next reading of time.Now() *)
  arrays : gmap nat (list (option SSTable)); (* backing arrays of []*SSTable *)
  next_array : nat;
  next_addr : nat
}.

Inductive outcome (A : Type) : Type :=
  | Done (a : A) (w : World)
  | Panic (msg : string).
Arguments Done {A} a w.
Arguments Panic {A} msg.

Definition M (A : Type) : Type := World → outcome A.

Definition ret {A} (a : A) : M A := fun w => Done a w.

Definition bind {A B} (m : M A) (k : A → M B) : M B :=
  fun w => match m w with
           | Done a w' => k a w'
           | Panic msg => Panic msg
           end.

Definition panic {A} (msg : string) : M A := fun _ => Panic msg.

#[global] Instance M_ret : MRet M := @ret.
#[global] Instance M_bind : MBind M := fun A B k m => bind m k.

Definition get_disk : M (gmap string (list byte)) := fun w => Done (disk w) w.

Definition set_disk (d : gmap string (list byte)) : M unit :=
  fun w => Done tt {| disk := d; clock := clock w; arrays := arrays w;
                      next_array := next_array w; next_addr := next_addr w |}.

(** [time.Now()]: every reading is later than the one before. *)
Definition time_Now : M Z :=
  fun w => Done (clock w)
             {| disk := disk w; clock := clock w + 1; arrays := arrays w;
                next_array := next_array w; next_addr := next_addr w |}.

Definition new_addr : M nat :=
  fun w => Done (next_addr w)
             {| disk := disk w; clock := clock w; arrays := arrays w;
                next_array := next_array w; next_addr := S (next_addr w) |}.

(** [filepath.Join(dir, name)]. *)
Definition filepath_Join (dir name : string) : string := dir +:+ "/" +:+ name.

Definition NewPutEntry (k v : list byte) : M Entry :=
  now ← time_Now; ret (NewPutEntryAt now k v).

Definition NewDeleteEntry (k : list byte) : M Entry :=
  now ← time_Now; ret (NewDeleteEntryAt now k).

(** ** WAL *)

Module WAL.

(** [buf] is what the [bufio.Writer] holds and has not yet handed to the
    file.  ([bufio] may hand bytes over earlier when its buffer fills; every
    read of the file below is preceded by [Flush], so this is not visible.) *)
Record t : Type := mk {
  path : string;
  buf : list byte;
  isOpen : bool
}.

Definition NewWAL (dir filename : string) : M (result t) :=
  let path := filepath_Join dir filename in
  d ← get_disk;
  _ ← match d !! path with
       | Some _ => ret tt
       | None => set_disk (<[path := []]> d)
       end;
  ret (Ok {| path := path; buf := []; isOpen := true |}).

Definition WriteEntry (w : t) (entry : Entry) : result t :=
  Ok {| path := path w; buf := buf w ++ writeEntry entry; isOpen := isOpen w |}.

(** [WriteEntry] for each entry of a list, in order. *)
Fixpoint WriteEntries (w : t) (es : list Entry) : result t :=
  match es with
  | [] => Ok w
  | e :: es' =>
      match WriteEntry w e with
      | Err err => Err err
      | Ok w' => WriteEntries w' es'
      end
  end.

(** [Flush]: drain the buffer into the file (opened with [O_APPEND]) and
    [Sync]; both fail on a closed file. *)
Definition Flush (w : t) : M (result t) :=
  if isOpen w then
    d ← get_disk;
    _ ← set_disk (<[path w := default [] (d !! path w) ++ buf w]> d);
    ret (Ok {| path := path w; buf := []; isOpen := true |})
  else
    match buf w with
    | [] => ret (Err (ErrWrap "failed to sync WAL file" ErrClosed))
    | _ => ret (Err (ErrWrap "failed to flush WAL buffer" ErrClosed))
    end.

Definition Close (w : t) : M (result t) :=
  r ← Flush w;
  match r with
  | Err e => ret (Err e)
  | Ok w' => ret (Ok {| path := path w'; buf := buf w'; isOpen := false |})
  end.

(** [Recover] returns the entries, and the WAL as the call leaves it: closed
    when the file is missing or a record cannot be read, reopened for
    appending otherwise. *)
Definition Recover (w : t) : M (result (list Entry) * t) :=
  r ← Close w;
  match r with
  | Err e => ret (Err (ErrWrap "failed to close WAL for recovery" e), w)
  | Ok w1 =>
      d ← get_disk;
      match d !! path w1 with
      | None => ret (Ok [], w1)
      | Some content =>
          match readAll "failed to read entry from WAL" content with
          | Err e => ret (Err e, w1)
          | Ok entries =>
              ret (Ok entries, {| path := path w1; buf := []; isOpen := true |})
          end
      end
  end.

Definition Remove (w : t) : M (result t) :=
  r ← Close w;
  match r with
  | Err e => ret (Err e)
  | Ok w1 =>
      d ← get_disk;
      match d !! path w1 with
      | None => ret (Err ErrNotExist)
      | Some _ => _ ← set_disk (delete (path w1) d); ret (Ok w1)
      end
  end.

End WAL.

(** Monadic helpers for Go's [for ... range] loops. *)
Fixpoint foldM {A B} (f : B → A → M B) (l : list A) (b : B) : M B :=
  match l with
  | [] => ret b
  | x :: l' => b' ← f b x; foldM f l' b'
  end.

(** [sort.Slice(s, less)].  Go promises a permutation that is sorted by
    [less] and no stability; the model is stdpp's [merge_sort] on the order
    "not [less y x]".  Wherever a result below depends on the order, the
    elements compared are pairwise distinct under [less] or equal. *)
Definition sort_Slice {A} (less : A → A → bool) (l : list A) : list A :=
  @merge_sort A (fun x y => less y x = false)
    (fun x y => decide (less y x = false)) l.

(** ** SSTableBuilder and SSTable *)

(** [math.Log(0.01)] as a float64. *)
Definition LOG_0_01 : float := (-0x1.26bb1bbb55515p+2)%float.

Module SSTableBuilder.

Record t : Type := mk {
  entries : list Entry;
  bloomFilter : BloomFilter.t;
  blockIndex : BlockIndex.t;
  level : Z;
  blockSize : Z
}.

Definition NewSSTableBuilder (level : Z) (estimatedEntries : Z) : t :=
  let blockSize := 100 in
  {| entries := [];
     bloomFilter := BloomFilter.NewBloomFilter estimatedEntries LOG_0_01;
     blockIndex := BlockIndex.NewBlockIndex blockSize;
     level := level;
     blockSize := blockSize |}.

Definition AddEntry (builder : t) (entry : Entry) : M t :=
  match BloomFilter.Add (bloomFilter builder) (key entry) with
  | None => panic "runtime error: integer divide by zero"
  | Some bf =>
      ret {| entries := entries builder ++ [entry];
             bloomFilter := bf;
             blockIndex := blockIndex builder;
             level := level builder;
             blockSize := blockSize builder |}
  end.

(** The loop of [Build] over the sorted entries: the block index grows by
    one entry every [blockSize] entries and [currentOffset] advances by the
    size of each record. *)
Fixpoint index_entries (blockSize : Z) (es : list Entry) (i : Z)
    (currentOffset : Z) (idx : BlockIndex.t) : BlockIndex.t :=
  match es with
  | [] => idx
  | entry :: es' =>
      let idx' := if i mod blockSize =? 0
                  then BlockIndex.AddEntry idx (key entry) currentOffset
                  else idx in
      let entrySize := 4 + len (key entry) + 4 + len (value entry) + 1 + 8 in
      index_entries blockSize es' (i + 1) (currentOffset + entrySize) idx'
  end.

Definition Build (builder : t) (dir filename : string) : M (result SSTable) :=
  match entries builder with
  | [] => ret (Err ErrNoEntries)
  | _ =>
      let sorted := sort_Slice (fun a b => Compare a b <? 0) (entries builder) in
      let filePath := filepath_Join dir filename in
      let content := writeEntries sorted in
      d ← get_disk;
      _ ← set_disk (<[filePath := content]> d);
      let idx := index_entries (blockSize builder) sorted 0 0 (blockIndex builder) in
      now ← time_Now;
      a ← new_addr;
      ret (Ok {| metadata :=
                   {| Level := level builder;
                      FileName := filename;
                      MinKey := default [] (key <$> head sorted);
                      MaxKey := default [] (key <$> last sorted);
                      EntryCount := len sorted mod 2 ^ 32;
                      FileSize := len content;
                      CreatedAt := now;
                      BloomFilter := Some (bloomFilter builder);
                      BlockIndex := Some idx |};
                 filePath := filePath;
                 addr := a |})
  end.

End SSTableBuilder.

(** The search loop of [SSTable.Get] from the reader's position. *)
Fixpoint search_loop (fuel : nat) (r : list byte) (k : list byte)
  : option (result Entry) :=
  match fuel with
  | O => None
  | S fuel' =>
      match readEntry r with
      | Err EOF => Some (Err ErrKeyNotFound)
      | Err e => Some (Err (ErrWrap "failed to read entry" e))
      | Ok (entry, r') =>
          let cmp := bytes_Compare (key entry) k in
          if cmp =? 0 then Some (Ok entry)
          else if 0 <? cmp then Some (Err ErrKeyNotFound)
          else search_loop fuel' r' k
      end
  end.

Definition SSTable_Get (sst : SSTable) (k : list byte) : M (result Entry) :=
  match BloomFilter (metadata sst) with
  | None => panic "invalid memory address or nil pointer dereference"
  | Some bf =>
      match BloomFilter.Contains bf k with
      | None => panic "runtime error: integer divide by zero"
      | Some false => ret (Err ErrKeyNotFound)
      | Some true =>
          d ← get_disk;
          match d !! filePath sst with
          | None => ret (Err (ErrWrap "failed to open SSTable file" ErrNotExist))
          | Some content =>
              let startOffset :=
                match BlockIndex (metadata sst) with
                | Some idx => BlockIndex.FindOffset idx k
                | None => 0
                end in
              let r := drop (Z.to_nat startOffset) content in
              match search_loop (S (length r)) r k with
              | Some res => ret res
              | None => panic "read budget exhausted"
              end
          end
      end
  end.

Definition SSTable_GetAllEntries (sst : SSTable) : M (result (list Entry)) :=
  d ← get_disk;
  match d !! filePath sst with
  | None => ret (Err (ErrWrap "failed to open SSTable file" ErrNotExist))
  | Some content => ret (readAll "failed to read entry" content)
  end.

Definition SSTable_Remove (sst : SSTable) : M (result unit) :=
  d ← get_disk;
  match d !! filePath sst with
  | None => ret (Err ErrNotExist)
  | Some _ => _ ← set_disk (delete (filePath sst) d); ret (Ok tt)
  end.

(** ** Slices of [*SSTable]

    A Go slice is a window [(array, offset, length, capacity)] on a backing
    array; two slices on the same array see each other's writes.  [append]
    writes in place while the capacity lasts and moves to a fresh array
    otherwise. *)

Module Slice.

Record t : Type := mk {
  sarr : nat;
  soff : nat;
  slen : nat;
  scap : nat
}.

(** The nil slice. *)
Definition nil : t := {| sarr := 0; soff := 0; slen := 0; scap := 0 |}.

Definition alloc (cells : list (option SSTable)) : M nat :=
  fun w => Done (next_array w)
             {| disk := disk w; clock := clock w;
                arrays := <[next_array w := cells]> (arrays w);
                next_array := S (next_array w); next_addr := next_addr w |}.

(** The pointers in the window, nil included. *)
Definition cells (s : t) : M (list (option SSTable)) :=
  fun w => match slen s with
           | O => Done [] w
           | _ => match arrays w !! sarr s with
                  | Some a => Done (take (slen s) (drop (soff s) a)) w
                  | None => Panic "slice without backing array"
                  end
           end.

Fixpoint deref_all (cs : list (option SSTable)) : option (list SSTable) :=
  match cs with
  | [] => Some []
  | Some x :: cs' => match deref_all cs' with
                     | Some l => Some (x :: l)
                     | None => None
                     end
  | None :: _ => None
  end.

(** The tables in the window; a nil element panics when it is used. *)
Definition elems (s : t) : M (list SSTable) :=
  cs ← cells s;
  match deref_all cs with
  | Some l => ret l
  | None => panic "invalid memory address or nil pointer dereference"
  end.

(** [s[i]], read from the backing array when the statement runs. *)
Definition get (s : t) (i : nat) : M SSTable :=
  if (i <? slen s)%nat then
    fun w => match arrays w !! sarr s with
             | Some a => match a !! (soff s + i)%nat with
                         | Some (Some x) => Done x w
                         | _ => Panic "invalid memory address or nil pointer dereference"
                         end
             | None => Panic "slice without backing array"
             end
  else panic "index out of range".

(** Overwrite the cells from window position [i] on. *)
Definition write (s : t) (i : nat) (xs : list (option SSTable)) : M unit :=
  match xs with
  | [] => ret tt
  | _ =>
      fun w => match arrays w !! sarr s with
               | Some a =>
                   Done tt {| disk := disk w; clock := clock w;
                              arrays := <[sarr s := list_inserts (soff s + i) xs a]> (arrays w);
                              next_array := next_array w;
                              next_addr := next_addr w |}
               | None => Panic "slice without backing array"
               end
  end.

(** The capacity [runtime.growslice] picks: the needed length if that is
    more than twice the old capacity, twice the old capacity below 256
    elements, steps of a quarter beyond.  (The allocator may round this up
    to a size class; for pointers it does not for the powers of two that
    appending one element at a time produces.) *)
Fixpoint grow_quarter (fuel : nat) (newcap needed : nat) : nat :=
  match fuel with
  | O => needed
  | S fuel' => if (newcap <? needed)%nat
               then grow_quarter fuel' (newcap + (newcap + 768) / 4) needed
               else newcap
  end.

Definition growcap (old needed : nat) : nat :=
  if (2 * old <? needed)%nat then needed
  else if (old <? 256)%nat then (2 * old)%nat
  else grow_quarter needed old needed.

(** [append(s, xs...)]. *)
Definition append (s : t) (xs : list (option SSTable)) : M t :=
  let n := (slen s + length xs)%nat in
  if (n <=? scap s)%nat then
    _ ← write s (slen s) xs;
    ret {| sarr := sarr s; soff := soff s; slen := n; scap := scap s |}
  else
    cur ← cells s;
    let newcap := growcap (scap s) n in
    a ← alloc (cur ++ xs ++ replicate (newcap - n) None);
    ret {| sarr := a; soff := 0; slen := n; scap := newcap |}.

(** [s[lo:hi]]. *)
Definition reslice (s : t) (lo hi : nat) : M t :=
  if (lo <=? hi)%nat && (hi <=? scap s)%nat then
    ret {| sarr := sarr s; soff := (soff s + lo)%nat;
           slen := (hi - lo)%nat; scap := (scap s - lo)%nat |}
  else panic "slice bounds out of range".

(** A slice literal [[]*SSTable{x1, ..., xn}]. *)
Definition literal (xs : list SSTable) : M t :=
  match xs with
  | [] => ret {| sarr := 0; soff := 0; slen := 0; scap := 0 |}
  | _ => a ← alloc (Some <$> xs);
         ret {| sarr := a; soff := 0; slen := length xs; scap := length xs |}
  end.

End Slice.

(** ** CompactionManager *)

(** [compareKeys]: the shorter key first, keys of one length byte by byte. *)
Fixpoint compareKeys_bytes (key1 key2 : list byte) : Z :=
  match key1, key2 with
  | x :: key1', y :: key2' =>
      if byte_val x <? byte_val y then -1
      else if byte_val y <? byte_val x then 1
      else compareKeys_bytes key1' key2'
  | _, _ => 0
  end.

Definition compareKeys (key1 key2 : list byte) : Z :=
  if len key1 <? len key2 then -1
  else if len key2 <? len key1 then 1
  else compareKeys_bytes key1 key2.

Inductive CompactionStrategy : Type :=
  | SizeTieredCompaction
  | LeveledCompaction.

Inductive CompactionType : Type :=
  | MinorCompaction
  | MajorCompaction.

Record CompactionTask : Type := mkTask {
  InputSSTables : Slice.t;
  OutputLevel : Z;
  TaskType : CompactionType;
  EstimatedSize : Z
}.

Module CompactionManager.

(** [sizeMultiplier] is the float64 [10.0] in the source; it only ever
    multiplies [maxSizeLevel0] for levels up to 10, where the products are
    integers below [2^53] and the float arithmetic is exact. *)
Record t : Type := mk {
  strategy : CompactionStrategy;
  maxSizeLevel0 : Z;
  sizeMultiplier : Z;
  maxSSTablesLevel0 : Z
}.

Definition NewCompactionManager (strategy : CompactionStrategy) : t :=
  {| strategy := strategy;
     maxSizeLevel0 := 10 * 1024 * 1024;
     sizeMultiplier := 10;
     maxSSTablesLevel0 := 4 |}.

Definition uint64 (z : Z) : Z := z mod 2 ^ 64.

Definition calculateTotalSize (tables : list SSTable) : Z :=
  fold_left (fun total table => uint64 (total + FileSize (metadata table)))
            tables 0.

Definition maxSizeForLevel (cm : t) (level : Z) : Z :=
  if level =? 0 then maxSizeLevel0 cm
  else Nat.iter (Z.to_nat (level - 1))
                (fun size => uint64 (size * sizeMultiplier cm))
                (maxSizeLevel0 cm).

Definition lookup_level (sstablesByLevel : gmap Z Slice.t) (level : Z) : Slice.t :=
  default Slice.nil (sstablesByLevel !! level).

Definition shouldCompactSizeTiered (cm : t) (sstablesByLevel : gmap Z Slice.t)
  : M bool :=
  let level0Tables := lookup_level sstablesByLevel 0 in
  ret (maxSSTablesLevel0 cm <=? Z.of_nat (Slice.slen level0Tables)).

(** The loop returns [true] at the first level in violation; the order in
    which Go walks the map does not change the answer. *)
Definition shouldCompactLeveled (cm : t) (sstablesByLevel : gmap Z Slice.t)
  : M bool :=
  foldM (fun (found : bool) '(level, tables) =>
           if found then ret true
           else if level =? 0
           then ret (maxSSTablesLevel0 cm <=? Z.of_nat (Slice.slen tables))
           else
             ts ← Slice.elems tables;
             ret (maxSizeForLevel cm level <? calculateTotalSize ts))
        (map_to_list sstablesByLevel) false.

Definition ShouldCompact (cm : t) (sstablesByLevel : gmap Z Slice.t) : M bool :=
  match strategy cm with
  | SizeTieredCompaction => shouldCompactSizeTiered cm sstablesByLevel
  | LeveledCompaction => shouldCompactLeveled cm sstablesByLevel
  end.

Definition keyRangesOverlap (min1 max1 min2 max2 : list byte) : bool :=
  (0 <=? compareKeys max1 min2) && (0 <=? compareKeys max2 min1).

(** The first loop of [findOverlappingTables]: the union range of the input
    tables, folded with [compareKeys]. *)
Fixpoint unionRange (i : nat) (inputTables : list SSTable)
    (minKey maxKey : list byte) : list byte * list byte :=
  match inputTables with
  | [] => (minKey, maxKey)
  | table :: rest =>
      match i with
      | O => unionRange 1 rest (MinKey (metadata table)) (MaxKey (metadata table))
      | _ =>
          let minKey' := if compareKeys (MinKey (metadata table)) minKey <? 0
                         then MinKey (metadata table) else minKey in
          let maxKey' := if 0 <? compareKeys (MaxKey (metadata table)) maxKey
                         then MaxKey (metadata table) else maxKey in
          unionRange (S i) rest minKey' maxKey'
      end
  end.

(** [findOverlappingTables]; the slice it returns is freshly built, so it
    is given here by its elements. *)
Definition findOverlappingTables (inputTables candidateTables : list SSTable)
  : list SSTable :=
  match inputTables, candidateTables with
  | [], _ | _, [] => []
  | _, _ =>
      let '(minKey, maxKey) := unionRange 0 inputTables [] [] in
      filter (fun table =>
                keyRangesOverlap minKey maxKey
                  (MinKey (metadata table)) (MaxKey (metadata table)) = true)
             candidateTables
  end.

(** The loop [for level := 1; level < 10; level++] of
    [selectLeveledCompaction], [n] levels of it from [level] on. *)
Fixpoint selectFromLevel (cm : t) (sstablesByLevel : gmap Z Slice.t)
    (n : nat) (level : Z) : M (option CompactionTask) :=
  match n with
  | O => ret None
  | S n' =>
      let tables := lookup_level sstablesByLevel level in
      if (Slice.slen tables =? 0)%nat
      then selectFromLevel cm sstablesByLevel n' (level + 1)
      else
        ts ← Slice.elems tables;
        let totalSize := calculateTotalSize ts in
        let maxSize := maxSizeForLevel cm level in
        if maxSize <? totalSize then
          (* sort.Slice(tables, ...) reorders the level's own array *)
          let sorted := sort_Slice (fun a b => CreatedAt (metadata a) <?
                                               CreatedAt (metadata b)) ts in
          _ ← Slice.write tables 0 (Some <$> sorted);
          first ← Slice.get tables 0;
          selectedTable ← Slice.literal [first];
          next ← Slice.elems (lookup_level sstablesByLevel (level + 1));
          let nextLevelTables := findOverlappingTables [first] next in
          allTables ← Slice.append selectedTable (Some <$> nextLevelTables);
          all ← Slice.elems allTables;
          ret (Some {| InputSSTables := allTables;
                       OutputLevel := level + 1;
                       TaskType := MajorCompaction;
                       EstimatedSize := calculateTotalSize all |})
        else selectFromLevel cm sstablesByLevel n' (level + 1)
  end.

Definition selectLeveledCompaction (cm : t) (sstablesByLevel : gmap Z Slice.t)
  : M (option CompactionTask) :=
  let level0Tables := lookup_level sstablesByLevel 0 in
  if maxSSTablesLevel0 cm <=? Z.of_nat (Slice.slen level0Tables) then
    l0 ← Slice.elems level0Tables;
    l1 ← Slice.elems (lookup_level sstablesByLevel 1);
    let level1Tables := findOverlappingTables l0 l1 in
    allTables ← Slice.append level0Tables (Some <$> level1Tables);
    all ← Slice.elems allTables;
    ret (Some {| InputSSTables := allTables;
                 OutputLevel := 1;
                 TaskType := MajorCompaction;
                 EstimatedSize := calculateTotalSize all |})
  else selectFromLevel cm sstablesByLevel 9 1.

(** [selectSizeTieredCompaction] ranges over the Go map to find the level
    with the most tables; the model walks the levels in ascending order. *)
Definition selectSizeTieredCompaction (cm : t) (sstablesByLevel : gmap Z Slice.t)
  : M (option CompactionTask) :=
  let '(maxLevel, maxCount) :=
    fold_left (fun '(maxLevel, maxCount) '(level, tables) =>
                 if maxCount <? Z.of_nat (Slice.slen tables)
                 then (level, Z.of_nat (Slice.slen tables))
                 else (maxLevel, maxCount))
              (map_to_list sstablesByLevel) (0, 0) in
  if maxCount <? maxSSTablesLevel0 cm then ret None
  else
    let tables := lookup_level sstablesByLevel maxLevel in
    ts ← Slice.elems tables;
    ret (Some {| InputSSTables := tables;
                 OutputLevel := maxLevel + 1;
                 TaskType := MajorCompaction;
                 EstimatedSize := calculateTotalSize ts |}).

Definition SelectCompactionTask (cm : t) (sstablesByLevel : gmap Z Slice.t)
  : M (option CompactionTask) :=
  match strategy cm with
  | SizeTieredCompaction => selectSizeTieredCompaction cm sstablesByLevel
  | LeveledCompaction => selectLeveledCompaction cm sstablesByLevel
  end.

(** The loop of [removeDuplicatesAndTombstones] with its [seenKeys] map. *)
Fixpoint dedup_loop (entries : list Entry) (seenKeys : gset (list byte))
    (result : list Entry) : list Entry :=
  match entries with
  | [] => result
  | entry :: rest =>
      let keyStr := key entry in
      if bool_decide (keyStr ∈ seenKeys) then dedup_loop rest seenKeys result
      else
        let seenKeys' := {[keyStr]} ∪ seenKeys in
        if IsDeleted entry then dedup_loop rest seenKeys' result
        else dedup_loop rest seenKeys' (result ++ [entry])
  end.

Definition removeDuplicatesAndTombstones (entries : list Entry) : list Entry :=
  match entries with
  | [] => entries
  | _ => dedup_loop entries ∅ []
  end.

(** The comparison handed to [sort.Slice] in [ExecuteCompaction]. *)
Definition compactionLess (a b : Entry) : bool :=
  let cmp := Compare a b in
  if cmp =? 0 then IsNewerThan a b else cmp <? 0.

(** The first loop of [ExecuteCompaction]: read every input table. *)
Fixpoint collectEntries (tables : list SSTable) (allEntries : list Entry)
  : M (result (list Entry)) :=
  match tables with
  | [] => ret (Ok allEntries)
  | sstable :: rest =>
      r ← SSTable_GetAllEntries sstable;
      match r with
      | Err e => ret (Err (ErrWrap "failed to read entries from SSTable" e))
      | Ok entries => collectEntries rest (allEntries ++ entries)
      end
  end.

Definition ExecuteCompaction (cm : t) (task : CompactionTask) (outputDir : string)
  : M (result (list SSTable)) :=
  if (Slice.slen (InputSSTables task) =? 0)%nat then ret (Err ErrNoInput)
  else
    inputs ← Slice.elems (InputSSTables task);
    r ← collectEntries inputs [];
    match r with
    | Err e => ret (Err e)
    | Ok allEntries =>
        let sorted := sort_Slice compactionLess allEntries in
        let compactedEntries := removeDuplicatesAndTombstones sorted in
        match compactedEntries with
        | [] => ret (Ok [])
        | _ =>
            let builder := SSTableBuilder.NewSSTableBuilder (OutputLevel task)
                             (len compactedEntries mod 2 ^ 32) in
            builder ← foldM SSTableBuilder.AddEntry compactedEntries builder;
            now ← time_Now;
            let filename := "sstable_level_" +:+ pretty (OutputLevel task) +:+
                            "_" +:+ pretty now +:+ ".sst" in
            b ← SSTableBuilder.Build builder outputDir filename;
            match b with
            | Err e => ret (Err (ErrWrap "failed to build compacted SSTable" e))
            | Ok newSSTable => ret (Ok [newSSTable])
            end
        end
    end.

End CompactionManager.

(** ** LSMTableService: the coordinator *)

Module LSMTableService.

(** [pendingCompactions] counts the goroutines started by
    [go s.runCompaction()] that have not yet taken the lock. *)
Record t : Type := mk {
  activeTable : MemTable.t;
  immutableTables : list MemTable.t;
  sstablesByLevel : gmap Z Slice.t;
  wal : option WAL.t;
  walDir : string;
  sstableDir : string;
  maxTableSize : Z;
  walCounter : Z;
  compactionManager : CompactionManager.t;
  pendingCompactions : nat
}.

Definition with_activeTable (s : t) (x : MemTable.t) : t :=
  mk x (immutableTables s) (sstablesByLevel s) (wal s) (walDir s) (sstableDir s)
     (maxTableSize s) (walCounter s) (compactionManager s) (pendingCompactions s).

Definition with_immutableTables (s : t) (x : list MemTable.t) : t :=
  mk (activeTable s) x (sstablesByLevel s) (wal s) (walDir s) (sstableDir s)
     (maxTableSize s) (walCounter s) (compactionManager s) (pendingCompactions s).

Definition with_sstablesByLevel (s : t) (x : gmap Z Slice.t) : t :=
  mk (activeTable s) (immutableTables s) x (wal s) (walDir s) (sstableDir s)
     (maxTableSize s) (walCounter s) (compactionManager s) (pendingCompactions s).

Definition with_wal (s : t) (x : option WAL.t) : t :=
  mk (activeTable s) (immutableTables s) (sstablesByLevel s) x (walDir s)
     (sstableDir s) (maxTableSize s) (walCounter s) (compactionManager s)
     (pendingCompactions s).

Definition with_walCounter (s : t) (x : Z) : t :=
  mk (activeTable s) (immutableTables s) (sstablesByLevel s) (wal s) (walDir s)
     (sstableDir s) (maxTableSize s) x (compactionManager s)
     (pendingCompactions s).

Definition with_pendingCompactions (s : t) (x : nat) : t :=
  mk (activeTable s) (immutableTables s) (sstablesByLevel s) (wal s) (walDir s)
     (sstableDir s) (maxTableSize s) (walCounter s) (compactionManager s) x.

Definition lookup_level := CompactionManager.lookup_level.

(** [createNewActiveTable]. *)
Definition createNewActiveTable (s : t) : M (option error * t) :=
  r ← match wal s with
      | Some w =>
          c ← WAL.Close w;
          match c with
          | Err e => ret (Err (ErrWrap "failed to close current WAL" e))
          | Ok w' => ret (Ok (with_wal s (Some w')))
          end
      | None => ret (Ok s)
      end;
  match r with
  | Err e => ret (Some e, s)
  | Ok s =>
      let walFilename := "wal_" +:+ pretty (walCounter s) +:+ ".log" in
      n ← WAL.NewWAL (walDir s) walFilename;
      match n with
      | Err e => ret (Some (ErrWrap "failed to create new WAL" e), s)
      | Ok w =>
          let s := with_wal s (Some w) in
          let s := with_walCounter s (walCounter s + 1) in
          let s := with_activeTable s (MemTable.NewMemTable (maxTableSize s)) in
          ret (None, s)
      end
  end.

(** [flushImmutableTableInternal]. *)
Definition flushImmutableTableInternal (s : t) : M t :=
  match immutableTables s with
  | [] => ret s
  | immutableTable :: rest =>
      let s := with_immutableTables s rest in
      let entries := MemTable.GetAllEntries immutableTable in
      match entries with
      | [] => ret s
      | _ =>
          let builder := SSTableBuilder.NewSSTableBuilder 0 (len entries mod 2 ^ 32) in
          builder ← foldM SSTableBuilder.AddEntry entries builder;
          let filename := "sstable_L0_" +:+ pretty (walCounter s) +:+ ".sst" in
          b ← SSTableBuilder.Build builder (sstableDir s) filename;
          match b with
          | Err _ => ret s
          | Ok sstable =>
              level0 ← Slice.append (lookup_level (sstablesByLevel s) 0) [Some sstable];
              let s := with_sstablesByLevel s (<[0 := level0]> (sstablesByLevel s)) in
              c ← CompactionManager.ShouldCompact (compactionManager s) (sstablesByLevel s);
              if c : bool
              then ret (with_pendingCompactions s (S (pendingCompactions s)))
              else ret s
          end
      end
  end.

(** [rotateMemTable]. *)
Definition rotateMemTable (s : t) : M (option error * t) :=
  let sealed := MemTable.SetReadOnly (activeTable s) in
  let s := with_activeTable s sealed in
  let s := with_immutableTables s (immutableTables s ++ [sealed]) in
  '(err, s) ← createNewActiveTable s;
  match err with
  | Some e => ret (Some e, s)
  | None => s ← flushImmutableTableInternal s; ret (None, s)
  end.

(** [s.activeTable.Put(key, value)] with its reading of the clock. *)
Definition activePut (s : t) (k v : list byte) : M (option error * t) :=
  if MemTable.readOnly (activeTable s) then ret (Some ErrReadOnly, s)
  else
    now ← time_Now;
    match MemTable.Put (activeTable s) now k v with
    | Err e => ret (Some e, s)
    | Ok mt => ret (None, with_activeTable s mt)
    end.

Definition activeDelete (s : t) (k : list byte) : M (option error * t) :=
  if MemTable.readOnly (activeTable s) then ret (Some ErrReadOnly, s)
  else
    now ← time_Now;
    match MemTable.Delete (activeTable s) now k with
    | Err e => ret (Some e, s)
    | Ok mt => ret (None, with_activeTable s mt)
    end.

Definition walWrite (s : t) (entry : Entry) : M (option error * t) :=
  match wal s with
  | None => panic "invalid memory address or nil pointer dereference"
  | Some w =>
      match WAL.WriteEntry w entry with
      | Err e => ret (Some (ErrWrap "failed to write to WAL" e), s)
      | Ok w' => ret (None, with_wal s (Some w'))
      end
  end.

Definition walFlush (s : t) : M (option error * t) :=
  match wal s with
  | None => panic "invalid memory address or nil pointer dereference"
  | Some w =>
      r ← WAL.Flush w;
      match r with
      | Err e => ret (Some (ErrWrap "failed to flush WAL" e), s)
      | Ok w' => ret (None, with_wal s (Some w'))
      end
  end.

(** [Put]. *)
Definition Put (s : t) (k v : list byte) : M (option error * t) :=
  entry ← NewPutEntry k v;
  '(err, s) ← walWrite s entry;
  match err with
  | Some e => ret (Some e, s)
  | None =>
      '(err, s) ← activePut s k v;
      '(err, s) ←
        match err with
        | None => ret (None, s)
        | Some ErrTableFull =>
            '(err, s) ← rotateMemTable s;
            match err with
            | Some e => ret (Some (ErrWrap "failed to rotate memtable" e), s)
            | None =>
                '(err, s) ← activePut s k v;
                match err with
                | Some e =>
                    ret (Some (ErrWrap "failed to put in new active table" e), s)
                | None => ret (None, s)
                end
            end
        | Some e => ret (Some (ErrWrap "failed to put in active table" e), s)
        end;
      match err with
      | Some e => ret (Some e, s)
      | None => walFlush s
      end
  end.

(** [Delete]. *)
Definition Delete (s : t) (k : list byte) : M (option error * t) :=
  entry ← NewDeleteEntry k;
  '(err, s) ← walWrite s entry;
  match err with
  | Some e => ret (Some e, s)
  | None =>
      '(err, s) ← activeDelete s k;
      '(err, s) ←
        match err with
        | None => ret (None, s)
        | Some ErrTableFull =>
            '(err, s) ← rotateMemTable s;
            match err with
            | Some e => ret (Some (ErrWrap "failed to rotate memtable" e), s)
            | None =>
                '(err, s) ← activeDelete s k;
                match err with
                | Some e =>
                    ret (Some (ErrWrap "failed to delete in new active table" e), s)
                | None => ret (None, s)
                end
            end
        | Some e => ret (Some (ErrWrap "failed to delete in active table" e), s)
        end;
      match err with
      | Some e => ret (Some e, s)
      | None => walFlush s
      end
  end.

(** What [Get] answers for an entry it found. *)
Definition answer (entry : Entry) : result (list byte) :=
  if IsDeleted entry then Err ErrKeyNotFound else Ok (value entry).

(** The loop over the immutable memtables, newest first; the argument is
    the queue reversed. *)
Fixpoint getFromImmutables (tables : list MemTable.t) (k : list byte)
  : option (result (list byte)) :=
  match tables with
  | [] => None
  | mt :: rest =>
      match MemTable.Get mt k with
      | Ok entry => Some (answer entry)
      | Err _ => getFromImmutables rest k
      end
  end.

(** The loop [for i := len(tables) - 1; i >= 0; i--] over one level; the
    argument is the level's tables reversed.  A table whose [Get] fails is
    passed over. *)
Fixpoint getFromTables (tables : list SSTable) (k : list byte)
  : M (option (result (list byte))) :=
  match tables with
  | [] => ret None
  | table :: rest =>
      r ← SSTable_Get table k;
      match r with
      | Ok entry => ret (Some (answer entry))
      | Err _ => getFromTables rest k
      end
  end.

(** The loop [for level := 0; level < 10; level++], [n] levels of it. *)
Fixpoint getFromLevels (s : t) (n : nat) (level : Z) (k : list byte)
  : M (result (list byte)) :=
  match n with
  | O => ret (Err ErrKeyNotFound)
  | S n' =>
      tables ← Slice.elems (lookup_level (sstablesByLevel s) level);
      r ← getFromTables (reverse tables) k;
      match r with
      | Some res => ret res
      | None => getFromLevels s n' (level + 1) k
      end
  end.

(** [Get]. *)
Definition Get (s : t) (k : list byte) : M (result (list byte)) :=
  match MemTable.Get (activeTable s) k with
  | Ok entry => ret (answer entry)
  | Err _ =>
      match getFromImmutables (reverse (immutableTables s)) k with
      | Some res => ret res
      | None => getFromLevels s 10 0 k
      end
  end.

(** One round of the outer loop of [updateSSTablesAfterCompaction]: drop
    [inputTable] from its level, in place, and remove its file. *)
Fixpoint indexOf (x : SSTable) (tables : list SSTable) (i : nat) : option nat :=
  match tables with
  | [] => None
  | table :: rest => if ptr_eqb table x then Some i else indexOf x rest (S i)
  end.

Definition removeInput (s : t) (inputTable : SSTable) : M t :=
  let level := Level (metadata inputTable) in
  let tables := lookup_level (sstablesByLevel s) level in
  ts ← Slice.elems tables;
  s ← match indexOf inputTable ts 0 with
      | Some i =>
          front ← Slice.reslice tables 0 i;
          back ← Slice.reslice tables (S i) (Slice.slen tables);
          moved ← Slice.cells back;
          shrunk ← Slice.append front moved;
          ret (with_sstablesByLevel s (<[level := shrunk]> (sstablesByLevel s)))
      | None => ret s
      end;
  _ ← SSTable_Remove inputTable;
  ret s.

(** [for _, inputTable := range task.InputSSTables]: the length is fixed
    when the loop starts, each element is read when its round starts. *)
Fixpoint removeInputs (n : nat) (i : nat) (input : Slice.t) (s : t) : M t :=
  match n with
  | O => ret s
  | S n' =>
      inputTable ← Slice.get input i;
      s ← removeInput s inputTable;
      removeInputs n' (S i) input s
  end.

Definition addOutput (s : t) (outputTable : SSTable) : M t :=
  let level := Level (metadata outputTable) in
  grown ← Slice.append (lookup_level (sstablesByLevel s) level) [Some outputTable];
  ret (with_sstablesByLevel s (<[level := grown]> (sstablesByLevel s))).

(** [updateSSTablesAfterCompaction]. *)
Definition updateSSTablesAfterCompaction (s : t) (task : CompactionTask)
    (outputTables : list SSTable) : M t :=
  s ← removeInputs (Slice.slen (InputSSTables task)) 0 (InputSSTables task) s;
  foldM addOutput outputTables s.

(** [runCompaction], once the goroutine holds the lock. *)
Definition runCompaction (s : t) : M t :=
  task ← CompactionManager.SelectCompactionTask (compactionManager s)
           (sstablesByLevel s);
  match task with
  | None => ret s
  | Some task =>
      r ← CompactionManager.ExecuteCompaction (compactionManager s) task
            (sstableDir s);
      match r with
      | Err _ => ret s
      | Ok outputTables => updateSSTablesAfterCompaction s task outputTables
      end
  end.

(** A pending [runCompaction] goroutine gets the lock; without one nothing
    happens. *)
Definition scheduleCompaction (s : t) : M t :=
  match pendingCompactions s with
  | O => ret s
  | S n => runCompaction (with_pendingCompactions s n)
  end.

(** [NewLSMTableService]. *)
Definition NewLSMTableService (dataDir : string) (maxTableSize : Z)
  : M (result t) :=
  let service :=
    {| activeTable := MemTable.NewMemTable 0;   (* nil until the call below *)
       immutableTables := [];
       sstablesByLevel := ∅;
       wal := None;
       walDir := filepath_Join dataDir "wal";
       sstableDir := filepath_Join dataDir "sstables";
       maxTableSize := maxTableSize;
       walCounter := 0;
       compactionManager := CompactionManager.NewCompactionManager LeveledCompaction;
       pendingCompactions := 0 |} in
  '(err, service) ← createNewActiveTable service;
  match err with
  | Some e => ret (Err (ErrWrap "failed to create initial active table" e))
  | None => ret (Ok service)
  end.

(** The loop [for len(s.immutableTables) > 0] of [Close]; every round takes
    one table off the queue. *)
Fixpoint flushAll (n : nat) (s : t) : M t :=
  match n with
  | O => ret s
  | S n' =>
      match immutableTables s with
      | [] => ret s
      | _ => s ← flushImmutableTableInternal s; flushAll n' s
      end
  end.

(** [Close]. *)
Definition Close (s : t) : M (option error * t) :=
  s ← flushAll (length (immutableTables s)) s;
  match wal s with
  | Some w =>
      r ← WAL.Close w;
      match r with
      | Err e => ret (Some e, s)
      | Ok w' => ret (None, with_wal s (Some w'))
      end
  | None => ret (None, s)
  end.

(** The replay of one recovered entry in [Recovery]. *)
Definition replay (s : t) (entry : Entry) : M (option error * t) :=
  if IsDeleted entry then
    '(err, s) ← activeDelete s (key entry);
    match err with
    | None => ret (None, s)
    | Some ErrTableFull =>
        '(err, s) ← rotateMemTable s;
        match err with
        | Some e =>
            ret (Some (ErrWrap "failed to rotate memtable during recovery" e), s)
        | None =>
            '(err, s) ← activeDelete s (key entry);
            match err with
            | Some e =>
                ret (Some (ErrWrap "failed to replay delete entry during recovery" e), s)
            | None => ret (None, s)
            end
        end
    | Some e => ret (Some (ErrWrap "failed to replay delete entry" e), s)
    end
  else
    '(err, s) ← activePut s (key entry) (value entry);
    match err with
    | None => ret (None, s)
    | Some ErrTableFull =>
        '(err, s) ← rotateMemTable s;
        match err with
        | Some e =>
            ret (Some (ErrWrap "failed to rotate memtable during recovery" e), s)
        | None =>
            '(err, s) ← activePut s (key entry) (value entry);
            match err with
            | Some e =>
                ret (Some (ErrWrap "failed to replay put entry during recovery" e), s)
            | None => ret (None, s)
            end
        end
    | Some e => ret (Some (ErrWrap "failed to replay put entry" e), s)
    end.

Fixpoint replayAll (entries : list Entry) (s : t) : M (option error * t) :=
  match entries with
  | [] => ret (None, s)
  | entry :: rest =>
      '(err, s) ← replay s entry;
      match err with
      | Some e => ret (Some e, s)
      | None => replayAll rest s
      end
  end.

(** [Recovery].  [loadExistingSSTables] lists the [.sst] files of the
    directory and prints their names; it changes nothing in the service. *)
Definition Recovery (s : t) : M (option error * t) :=
  match wal s with
  | None => ret (None, s)
  | Some w =>
      '(r, w') ← WAL.Recover w;
      let s := with_wal s (Some w') in
      match r with
      | Err e => ret (Some (ErrWrap "failed to recover from WAL" e), s)
      | Ok entries => replayAll entries s
      end
  end.

Definition GetMemTableStats (s : t) : Z * Z :=
  (MemTable.Size (activeTable s), len (immutableTables s)).

End LSMTableService.

(** ** Runs of the service

    A run is a list of calls made one after the other by the owner of the
    service, with the points at which a pending compaction goroutine gets
    the lock. *)

Inductive Op : Type :=
  | OpPut (k v : list byte)
  | OpDelete (k : list byte)
  | OpGet (k : list byte)
  | OpCompaction
  | OpRecovery
  | OpClose.

(** What a call hands back: the value or error of [Get], the error (if any)
    of the others. *)
Inductive Reply : Type :=
  | RGet (r : result (list byte))
  | RErr (e : option error)
  | RNone.

Definition step (s : LSMTableService.t) (op : Op)
  : M (Reply * LSMTableService.t) :=
  match op with
  | OpPut k v => '(e, s) ← LSMTableService.Put s k v; ret (RErr e, s)
  | OpDelete k => '(e, s) ← LSMTableService.Delete s k; ret (RErr e, s)
  | OpGet k => r ← LSMTableService.Get s k; ret (RGet r, s)
  | OpCompaction => s ← LSMTableService.scheduleCompaction s; ret (RNone, s)
  | OpRecovery => '(e, s) ← LSMTableService.Recovery s; ret (RErr e, s)
  | OpClose => '(e, s) ← LSMTableService.Close s; ret (RErr e, s)
  end.

Fixpoint run (ops : list Op) (s : LSMTableService.t)
  : M (list Reply * LSMTableService.t) :=
  match ops with
  | [] => ret ([], s)
  | op :: rest =>
      '(r, s) ← step s op;
      '(rs, s) ← run rest s;
      ret (r :: rs, s)
  end.

(** A process: open the service on [dataDir] and make the calls. *)
Definition session (dataDir : string) (maxTableSize : Z) (ops : list Op)
  : M (result (list Reply)) :=
  r ← LSMTableService.NewLSMTableService dataDir maxTableSize;
  match r with
  | Err e => ret (Err e)
  | Ok s => '(rs, _) ← run ops s; ret (Ok rs)
  end.

(** A machine with an empty disk. *)
Definition emptyWorld : World :=
  {| disk := ∅; clock := 0; arrays := ∅; next_array := 0; next_addr := 0 |}.

(** The replies of a run, or [None] if it panics. *)
Definition replies {A} (o : outcome A) : option A :=
  match o with
  | Done a _ => Some a
  | Panic _ => None
  end.

Definition bytes_of_string (s : string) : list byte :=
  Ascii.byte_of_ascii <$> String.list_ascii_of_string s.

(** ** Vocabulary of the statements *)

(** An entry that the record layout can hold: lengths fit [uint32], the
    kind fits [uint8], the time fits the [int64] of [UnixNano]. *)
Record wf_entry (e : Entry) : Prop := {
  wf_key : len (key e) < 2 ^ 32;
  wf_value : len (value e) < 2 ^ 32;
  wf_type : 0 <= entryType e < 256;
  wf_timestamp : - 2 ^ 63 <= timestamp e < 2 ^ 63
}.

(** The byte counts at which one field of the record of [e] ends and the
    next begins. *)
Definition fieldBoundaries (e : Entry) : list nat :=
  let k := length (key e) in
  let v := length (value e) in
  [4; 4 + k; 8 + k; 8 + k + v; 9 + k + v]%nat.

(** Open a WAL, write the entries, recover. *)
Definition writeThenRecover (dir filename : string) (es : list Entry)
  : M (result (list Entry)) :=
  r ← WAL.NewWAL dir filename;
  match r with
  | Err e => ret (Err e)
  | Ok wal =>
      match WAL.WriteEntries wal es with
      | Err e => ret (Err e)
      | Ok wal => '(r, _) ← WAL.Recover wal; ret r
      end
  end.

(** Open a WAL on a file and recover. *)
Definition openAndRecover (dir filename : string) : M (result (list Entry)) :=
  r ← WAL.NewWAL dir filename;
  match r with
  | Err e => ret (Err e)
  | Ok wal => '(r, _) ← WAL.Recover wal; ret r
  end.

(** *** MemTable calls *)

Inductive MemOp : Type :=
  | MemPut (k v : list byte)
  | MemDelete (k : list byte).

Definition opKey (op : MemOp) : list byte :=
  match op with MemPut k _ => k | MemDelete k => k end.

(** The entry the call stores. *)
Definition opEntry (now : Z) (op : MemOp) : Entry :=
  match op with
  | MemPut k v => NewPutEntryAt now k v
  | MemDelete k => NewDeleteEntryAt now k
  end.

Definition applyOp (mt : MemTable.t) (now : Z) (op : MemOp) : result MemTable.t :=
  match op with
  | MemPut k v => MemTable.Put mt now k v
  | MemDelete k => MemTable.Delete mt now k
  end.

(** A sequence of calls, each with the clock reading it takes; a call that
    fails leaves the table as it was. *)
Fixpoint applyOps (mt : MemTable.t) (ops : list (Z * MemOp)) : MemTable.t :=
  match ops with
  | [] => mt
  | (now, op) :: rest =>
      match applyOp mt now op with
      | Ok mt' => applyOps mt' rest
      | Err _ => applyOps mt rest
      end
  end.

Definition capacityInv (mt : MemTable.t) : Prop :=
  MemTable.size mt <= MemTable.maxSize mt.

(** *** Bloom filters *)

(** A filter whose bit array is non-empty and as long as [size] says. *)
Definition bloom_wf (bf : BloomFilter.t) : Prop :=
  0 < BloomFilter.size bf ∧
  length (BloomFilter.bitArray bf) = Z.to_nat (BloomFilter.size bf).

(** [bf'] has the geometry of [bf] and every bit that [bf] had. *)
Definition bloom_extends (bf bf' : BloomFilter.t) : Prop :=
  BloomFilter.size bf' = BloomFilter.size bf ∧
  BloomFilter.hashFuncs bf' = BloomFilter.hashFuncs bf ∧
  length (BloomFilter.bitArray bf') = length (BloomFilter.bitArray bf) ∧
  ∀ j, BloomFilter.bitArray bf !! j = Some true →
       BloomFilter.bitArray bf' !! j = Some true.

(** Every probe of [k] is set. *)
Definition bloom_holds (bf : BloomFilter.t) (k : list byte) : Prop :=
  ∀ m, (m < Z.to_nat (BloomFilter.hashFuncs bf))%nat →
    ∃ ix, BloomFilter.index bf (BloomFilter.getHashes k) (0 + Z.of_nat m) = Some ix ∧
          BloomFilter.bitArray bf !! ix = Some true.

(** [math.Log(0.7)] as a float64. *)
Definition LOG_0_7 : float := (-0x1.6d3c324e13f50p-2)%float.

(** The filter that [NewSSTableBuilder] makes for any number of entries up
    to [count] has at least one bit. *)
Definition bloomSized (count : Z) : Prop :=
  ∀ m, 1 <= m <= count →
    0 < BloomFilter.size (BloomFilter.NewBloomFilter (m mod 2 ^ 32) LOG_0_01).

(** *** Compaction *)

(** The order [sort.Slice] sorts by in [ExecuteCompaction]: [x] may stand
    before [y]. *)
Definition compactionLe (x y : Entry) : Prop :=
  CompactionManager.compactionLess y x = false.

(** The first entry of a list that has key [k]. *)
Definition firstWithKey (k : list byte) (l : list Entry) : option Entry :=
  head (filter (fun e => key e = k) l).

(** What [ExecuteCompaction] hands to the builder. *)
Definition compactedEntries (allEntries : list Entry) : list Entry :=
  CompactionManager.removeDuplicatesAndTombstones
    (sort_Slice CompactionManager.compactionLess allEntries).

(** The file of table [t] holds the records of [es]. *)
Definition tableStores (w : World) (t : SSTable) (es : list Entry) : Prop :=
  disk w !! filePath t = Some (writeEntries es) ∧ Forall wf_entry es.

(** [out] keeps, of [allEntries], one newest version per key and only if
    that version is not a tombstone: no key twice; every entry kept is a PUT
    of the input that no version of its key is newer than; a key all of
    whose tombstones are older than some PUT is kept; a key all of whose
    PUTs are older than some tombstone is dropped. *)
Definition newestWins (allEntries out : list Entry) : Prop :=
  NoDup (key <$> out) ∧
  (∀ e, e ∈ out →
     e ∈ allEntries ∧ IsDeleted e = false ∧
     ∀ e', e' ∈ allEntries → key e' = key e → timestamp e' <= timestamp e) ∧
  (∀ k, (∃ e, e ∈ allEntries ∧ key e = k) →
     (∀ d, d ∈ allEntries → key d = k → IsDeleted d = true →
        ∃ p, p ∈ allEntries ∧ key p = k ∧ IsDeleted p = false ∧
             timestamp d < timestamp p) →
     ∃ e, e ∈ out ∧ key e = k) ∧
  (∀ k, (∀ p, p ∈ allEntries → key p = k → IsDeleted p = false →
           ∃ d, d ∈ allEntries ∧ key d = k ∧ IsDeleted d = true ∧
                timestamp p < timestamp d) →
     ∀ e, e ∈ out → key e ≠ k).

(** The overlap test as the specification words it: [[a1, b1]] and
    [[a2, b2]] overlap iff [b1 >= a2] and [b2 >= a1] under lexicographic
    byte comparison. *)
Definition lexRangesOverlap (a1 b1 a2 b2 : list byte) : bool :=
  (0 <=? bytes_Compare b1 a2) && (0 <=? bytes_Compare b2 a1).

(** *** Runs used as examples *)

Definition put (k v : string) : Op := OpPut (bytes_of_string k) (bytes_of_string v).
Definition delete_ (k : string) : Op := OpDelete (bytes_of_string k).
Definition get (k : string) : Op := OpGet (bytes_of_string k).

(** After every call, a compaction goroutine that the call started (or an
    earlier one left pending) gets the lock. *)
Definition promptCompaction (ops : list Op) : list Op :=
  concat ((fun op => [op; OpCompaction]) <$> ops).

(** No write of the run reported an error. *)
Definition writesAcked (rs : list Reply) : bool :=
  forallb (fun r => match r with RErr (Some _) => false | _ => true end) rs.

(** Of a finished process: whether all writes were acknowledged, and the
    last reply. *)
Definition verdict (o : outcome (result (list Reply)))
  : option (bool * option Reply) :=
  match o with
  | Done (Ok rs) _ => Some (writesAcked rs, last rs)
  | _ => None
  end.

(** A process that is closed, and a second one opened on the same
    directory. *)
Definition restart (dataDir : string) (maxTableSize : Z)
    (before after : list Op) : M (result (list Reply) * result (list Reply)) :=
  r1 ← session dataDir maxTableSize before;
  r2 ← session dataDir maxTableSize after;
  ret (r1, r2).

(** The keys of the records in a file. *)
Definition fileKeys (w : World) (path : string) : option (list (list byte)) :=
  match disk w !! path with
  | Some content =>
      match readAll "" content with
      | Ok es => Some (key <$> es)
      | Err _ => None
      end
  | None => None
  end.

(** Overwriting a key while thirteen one-entry memtables are flushed and
    compacted. *)
Definition overwriteRun : list Op :=
  promptCompaction
    [put "b" "1"; put "ab" "old"; put "a" "1"; put "ac" "1"; put "h" "1";
     put "e" "1"; put "ab" "new"; put "c" "1"; put "a" "1"; put "b" "1";
     put "f" "1"; put "aa" "1"; put "c" "1"]
  ++ [get "ab"].

(** Deleting a key whose value has reached level 1. *)
Definition deleteRun : list Op :=
  promptCompaction
    [put "aa" "1"; put "c" "1"; put "b" "v"; put "d" "1"; put "e" "1";
     delete_ "b"; put "f" "1"; put "g" "1"; put "h" "1"]
  ++ [get "b"].

(** The shortest run in which a compaction leaves a merged table in
    level 0. *)
Definition staleRun : list Op :=
  [put "a" "1"; put "k" "old"; put "c" "1"; put "k" "new"; put "d" "1";
   OpCompaction; get "k"].

(** Four writes with room for two entries per memtable, then [Close]. *)
Definition beforeRestart : list Op :=
  [put "a" "1"; put "b" "2"; put "c" "3"; put "d" "4"; OpClose].

Definition afterRestart : list Op := [OpRecovery; get "d"].

(** Entries and tables for the examples of compaction. *)
Definition exampleTable (path : string) (a : nat) : SSTable :=
  {| metadata := {| Level := 0; FileName := path; MinKey := []; MaxKey := [];
                    EntryCount := 0; FileSize := 0; CreatedAt := 0;
                    BloomFilter := None; BlockIndex := None |};
     filePath := path;
     addr := a |}.

Definition exampleWorld (files : list (list Entry)) : World :=
  {| disk := list_to_map
       (imap (fun i es => ("in/" +:+ pretty i, writeEntries es)) files);
     clock := 100;
     arrays := {[ 0%nat := imap (fun i _ => Some (exampleTable ("in/" +:+ pretty i) i)) files ]};
     next_array := 1;
     next_addr := length files |}.

Definition exampleTask (files : list (list Entry)) : CompactionTask :=
  {| InputSSTables := {| Slice.sarr := 0; Slice.soff := 0;
                         Slice.slen := length files; Slice.scap := length files |};
     OutputLevel := 1;
     TaskType := MajorCompaction;
     EstimatedSize := 0 |}.

Definition pute (now : Z) (k v : string) : Entry :=
  NewPutEntryAt now (bytes_of_string k) (bytes_of_string v).
Definition dele (now : Z) (k : string) : Entry :=
  NewDeleteEntryAt now (bytes_of_string k).

(** The two input tables of [TestCompactionExecution]. *)
Definition mixedFiles : list (list Entry) :=
  [[pute 1 "key1" "value1_old"; pute 2 "key2" "value2"; dele 3 "key3"];
   [pute 4 "key1" "value1_new"; pute 5 "key4" "value4"; pute 6 "key5" "value5"]].

(** Two tables in which every key ends deleted. *)
Definition deletedFiles : list (list Entry) :=
  [[pute 1 "a" "1"; pute 2 "b" "2"];
   [dele 3 "a"; dele 4 "b"]].

(** A WAL file with one whole record and the first two bytes of another. *)
Definition tornWorld (n : nat) : World :=
  {| disk := {[ filepath_Join "data/wal" "wal_0.log" :=
                  writeEntries [pute 1 "key1" "value1"] ++
                  take n (writeEntry (pute 2 "key2" "value2")) ]};
     clock := 100; arrays := ∅; next_array := 0; next_addr := 0 |}.


(** The entries of [TestWALWriteAndRecover]. *)
Definition walEntries : list Entry :=
  [pute 1 "key1" "value1"; pute 2 "key2" "value2"; dele 3 "key3"].

(** A memtable for one entry that holds one. *)
Definition fullTable : MemTable.t :=
  applyOps (MemTable.NewMemTable 1)
    [(1, MemPut (bytes_of_string "a") (bytes_of_string "1"))].

(** * Further functions and vocabulary *)


(** ** Further functions of the packages *)

(** [BloomFilter.Reset]: every bit of the array is cleared. *)
Definition BloomFilter_Reset (bf : BloomFilter.t) : BloomFilter.t :=
  {| BloomFilter.bitArray := (fun _ => false) <$> BloomFilter.bitArray bf;
     BloomFilter.size := BloomFilter.size bf;
     BloomFilter.hashFuncs := BloomFilter.hashFuncs bf |}.

(** [BlockIndex.SerializeIndex] into a writer that takes every byte (a
    [bytes.Buffer]): the number of entries as a [uint32], then for each
    entry the key length as a [uint32], the key and the offset as a
    [uint64], little-endian. *)
Definition serializeIndexEntry (entry : BlockIndex.IndexEntry) : list byte :=
  le_bytes 4 (len (BlockIndex.Key entry)) ++ BlockIndex.Key entry ++
  le_bytes 8 (BlockIndex.Offset entry).

Definition BlockIndex_SerializeIndex (idx : BlockIndex.t) : list byte :=
  le_bytes 4 (len (BlockIndex.entries idx)) ++
  concat (serializeIndexEntry <$> BlockIndex.entries idx).

(** The loop [for i := uint32(0); i < entryCount; i++] of
    [DeserializeIndex], [n] rounds of it; the reader is the list of bytes
    not yet consumed. *)
Fixpoint deserialize_loop (n : nat) (r : list byte) (index : BlockIndex.t)
  : result (BlockIndex.t * list byte) :=
  match n with
  | O => Ok (index, r)
  | S n' =>
      match binary_Read 4 r with
      | Err e => Err (ErrWrap "failed to read key length" e)
      | Ok (keyLen, r1) =>
      match ReadFull (Z.to_nat keyLen) r1 with
      | Err e => Err (ErrWrap "failed to read key" e)
      | Ok (k, r2) =>
      match binary_Read 8 r2 with
      | Err e => Err (ErrWrap "failed to read offset" e)
      | Ok (offset, r3) =>
          deserialize_loop n' r3 (BlockIndex.AddEntry index k offset)
      end end end
  end.

(** [DeserializeIndex(reader, blockSize)]; with the index it returns what is
    left of the reader. *)
Definition BlockIndex_DeserializeIndex (r : list byte) (blockSize : Z)
  : result (BlockIndex.t * list byte) :=
  let index := BlockIndex.NewBlockIndex blockSize in
  match binary_Read 4 r with
  | Err e => Err (ErrWrap "failed to read entry count" e)
  | Ok (entryCount, r1) => deserialize_loop (Z.to_nat entryCount) r1 index
  end.

(** An index that [SerializeIndex] writes without loss: the count and the
    key lengths fit [uint32], the offsets are [uint64]. *)
Definition wf_index (idx : BlockIndex.t) : Prop :=
  len (BlockIndex.entries idx) < 2 ^ 32 ∧
  Forall (fun ie => len (BlockIndex.Key ie) < 2 ^ 32 ∧
                    0 <= BlockIndex.Offset ie < 2 ^ 64)
         (BlockIndex.entries idx).

(** The index of [TestBlockIndexSerialization]-like shape: three entries. *)
Definition exampleIndex : BlockIndex.t :=
  BlockIndex.AddEntry
    (BlockIndex.AddEntry
       (BlockIndex.AddEntry (BlockIndex.NewBlockIndex 100)
          (bytes_of_string "key010") 0)
       (bytes_of_string "key020") 100)
    (bytes_of_string "key030") 200.

(** The size field is the number of keys, and every entry is stored under
    its own key. *)
Definition keyedInv (mt : MemTable.t) : Prop :=
  MemTable.size mt = Z.of_nat (size (MemTable.entries mt)) ∧
  map_Forall (fun k e => key e = k) (MemTable.entries mt).


(** [SSTable.Iterator] and the iterator.  The reader of the iterator is the
    content of the file from the position reached; the file is not written
    while the iterator is in use. *)
Module SSTableIterator.

Record t : Type := mk {
  sst : SSTable;
  reader : list byte;
  current : option Entry;   (* nil before the first entry *)
  err : option error
}.

(** [Next].  A [readEntry] that fails has read to the end of the file. *)
Definition Next (it : t) : bool * t :=
  match readEntry (reader it) with
  | Err e =>
      (false, {| sst := sst it; reader := []; current := current it;
                 err := Some e |})
  | Ok (entry, r') =>
      (true, {| sst := sst it; reader := r'; current := Some entry;
                err := err it |})
  end.

Definition Entry_ (it : t) : option Entry := current it.

Definition Error (it : t) : option error :=
  match err it with
  | Some EOF => None
  | e => e
  end.

End SSTableIterator.

Definition SSTable_Iterator (sst : SSTable) : M (result SSTableIterator.t) :=
  d ← get_disk;
  match d !! filePath sst with
  | None => ret (Err (ErrWrap "failed to open SSTable file" ErrNotExist))
  | Some content =>
      ret (Ok {| SSTableIterator.sst := sst;
                 SSTableIterator.reader := content;
                 SSTableIterator.current := None;
                 SSTableIterator.err := None |})
  end.

(** *** Tables *)

(** The calls that make a table from a list of entries:
    [NewSSTableBuilder], [AddEntry] for each entry, [Build]. *)
Definition buildTable (level estimatedEntries : Z) (es : list Entry)
    (dir filename : string) : M (result SSTable) :=
  builder ← foldM SSTableBuilder.AddEntry es
              (SSTableBuilder.NewSSTableBuilder level estimatedEntries);
  SSTableBuilder.Build builder dir filename.

(** The order [Build] sorts by: [x] may stand before [y]. *)
Definition keyLe (x y : Entry) : Prop := (Compare y x <? 0) = false.

(** The loop [for it.Next() { ... it.Entry() ... }] of a caller that
    collects the entries, [fuel] rounds of it at most. *)
Fixpoint iterate (fuel : nat) (it : SSTableIterator.t) (acc : list Entry)
  : option (list Entry * SSTableIterator.t) :=
  match fuel with
  | O => None
  | S fuel' =>
      let '(more, it') := SSTableIterator.Next it in
      if more then
        match SSTableIterator.Entry_ it' with
        | Some e => iterate fuel' it' (acc ++ [e])
        | None => None
        end
      else Some (acc, it')
  end.

(** The entries of the first table of [TestCompactionExecution]. *)
Definition tableEntries : list Entry :=
  [pute 1 "key1" "value1_old"; pute 2 "key2" "value2"; dele 3 "key3"].

(** An index entry that points at the start of a record of [sorted] and
    carries its key. *)
Definition boundary (sorted : list Entry) (ie : BlockIndex.IndexEntry) : Prop :=
  ∃ p e, sorted !! p = Some e ∧ BlockIndex.Key ie = key e ∧
         BlockIndex.Offset ie = len (writeEntries (take p sorted)).


(** *** WAL sessions *)

(** Open a WAL, write [es1], recover, write [es2], recover again. *)
Definition recoverTwice (dir filename : string) (es1 es2 : list Entry)
  : M (result (list Entry) * result (list Entry)) :=
  r ← WAL.NewWAL dir filename;
  match r with
  | Err e => ret (Err e, Err e)
  | Ok wal =>
      match WAL.WriteEntries wal es1 with
      | Err e => ret (Err e, Err e)
      | Ok wal =>
          '(r1, wal) ← WAL.Recover wal;
          match WAL.WriteEntries wal es2 with
          | Err e => ret (r1, Err e)
          | Ok wal => '(r2, _) ← WAL.Recover wal; ret (r1, r2)
          end
      end
  end.

(** A world whose only file is a WAL with the records of [walEntries]. *)
Definition walWorld : World :=
  {| disk := {[ filepath_Join "data/wal" "test.wal" := writeEntries walEntries ]};
     clock := 100; arrays := ∅; next_array := 0; next_addr := 0 |}.


(** What one round of the loop of [shouldCompactLeveled] finds in order. *)
Definition levelInBounds (cm : CompactionManager.t) (w : World)
    (level : Z) (tables : Slice.t) : Prop :=
  if level =? 0
  then Z.of_nat (Slice.slen tables) < CompactionManager.maxSSTablesLevel0 cm
  else ∃ ts, Slice.elems tables w = Done ts w ∧
             CompactionManager.calculateTotalSize ts <=
             CompactionManager.maxSizeForLevel cm level.


(** *** The service *)

(** What the newest record of key [k] in a log says: its value, or
    [ErrKeyNotFound] for a tombstone or when the log has no record of
    [k]. *)
Definition lastWrite (es : list Entry) (k : list byte) : result (list byte) :=
  match last (filter (fun e => key e = k) es) with
  | Some e => LSMTableService.answer e
  | None => Err ErrKeyNotFound
  end.

(** The file that the next flush of a memtable writes. *)
Definition nextFlushPath (s : LSMTableService.t) : string :=
  filepath_Join (LSMTableService.sstableDir s)
    ("sstable_L0_" +:+ pretty (LSMTableService.walCounter s + 1) +:+ ".sst").

(** A world whose only file is [wal_0.log] of the data directory "data",
    with the records of [walEntries]. *)
Definition restartWorld : World :=
  {| disk := {[ filepath_Join (filepath_Join "data" "wal") "wal_0.log" :=
                  writeEntries walEntries ]};
     clock := 100; arrays := ∅; next_array := 0; next_addr := 0 |}.

(** The service that [NewLSMTableService "data" 3] returns on an empty
    disk. *)
Definition freshService : LSMTableService.t :=
  {| LSMTableService.activeTable := MemTable.NewMemTable 3;
     LSMTableService.immutableTables := [];
     LSMTableService.sstablesByLevel := ∅;
     LSMTableService.wal :=
       Some {| WAL.path := "data/wal/wal_0.log"; WAL.buf := []; WAL.isOpen := true |};
     LSMTableService.walDir := "data/wal";
     LSMTableService.sstableDir := "data/sstables";
     LSMTableService.maxTableSize := 3;
     LSMTableService.walCounter := 1;
     LSMTableService.compactionManager :=
       CompactionManager.NewCompactionManager LeveledCompaction;
     LSMTableService.pendingCompactions := 0 |}.

Definition freshWorld : World :=
  {| disk := {[ "data/wal/wal_0.log" := [] ]};
     clock := 0; arrays := ∅; next_array := 0; next_addr := 0 |}.

(** The parts of the service that flushing and compaction leave alone. *)
Definition sameMem (s s' : LSMTableService.t) : Prop :=
  LSMTableService.activeTable s' = LSMTableService.activeTable s ∧
  LSMTableService.immutableTables s' = LSMTableService.immutableTables s ∧
  LSMTableService.wal s' = LSMTableService.wal s ∧
  LSMTableService.walCounter s' = LSMTableService.walCounter s ∧
  LSMTableService.sstableDir s' = LSMTableService.sstableDir s ∧
  LSMTableService.maxTableSize s' = LSMTableService.maxTableSize s.

(** * Properties *)

(** ** The record codec *)

Lemma byte_val_range b : 0 <= byte_val b < 256.
Proof.
  unfold byte_val. pose proof (Byte.to_N_bounded b). lia.
Qed.

Lemma byte_val_of_Z z : byte_val (byte_of_Z z) = z mod 256.
Proof.
  unfold byte_of_Z, byte_val.
  pose proof (Z.mod_pos_bound z 256 ltac:(lia)) as Hb.
  destruct (Byte.of_N (Z.to_N (z mod 256))) as [b|] eqn:E.
  - apply Byte.to_of_N in E. rewrite E. lia.
  - apply Byte.of_N_None_iff in E. lia.
Qed.

Lemma le_bytes_length n z : length (le_bytes n z) = n.
Proof. revert z. induction n; intros; simpl; auto. Qed.

Lemma le_value_le_bytes n z : le_value (le_bytes n z) = z mod 256 ^ Z.of_nat n.
Proof.
  revert z. induction n as [|n IH]; intros z.
  - simpl. rewrite Z.mod_1_r. reflexivity.
  - cbn [le_bytes le_value]. rewrite byte_val_of_Z, IH.
    rewrite Z.mod_mod by lia.
    rewrite Nat2Z.inj_succ, Z.pow_succ_r by lia.
    rewrite Z.rem_mul_r by lia. reflexivity.
Qed.

Lemma le_value_le_bytes_small n z :
  0 <= z < 256 ^ Z.of_nat n → le_value (le_bytes n z) = z.
Proof. intros. rewrite le_value_le_bytes. apply Z.mod_small. lia. Qed.

Lemma to_int64_le_bytes t :
  - 2 ^ 63 <= t < 2 ^ 63 → to_int64 (le_value (le_bytes 8 t)) = t.
Proof.
  intros Ht. rewrite le_value_le_bytes. unfold to_int64.
  change (256 ^ Z.of_nat 8) with (2 ^ 64).
  destruct (Z.ltb_spec (t mod 2 ^ 64) (2 ^ 63)) as [H|H].
  - destruct (Z.neg_nonneg_cases t) as [Hn|Hp].
    + rewrite <- (Z.mod_add t 1 (2 ^ 64)) in H by lia.
      rewrite Z.mod_small in H by lia. lia.
    + apply Z.mod_small. lia.
  - destruct (Z.neg_nonneg_cases t) as [Hn|Hp].
    + rewrite <- (Z.mod_add t 1 (2 ^ 64)) by lia.
      rewrite Z.mod_small by lia. lia.
    + rewrite Z.mod_small in H by lia. lia.
Qed.

(** Reading a whole field that is there. *)
Lemma ReadFull_app (f rest : list byte) :
  ReadFull (length f) (f ++ rest) = Ok (f, rest).
Proof.
  unfold ReadFull. destruct f as [|b f]; [reflexivity|].
  change ((b :: f) ++ rest) with (b :: f ++ rest) at 1.
  cbv beta iota.
  replace (length ((b :: f) ++ rest) <? length (b :: f))%nat with false.
  - rewrite take_app_length, drop_app_length. reflexivity.
  - symmetry. apply Nat.ltb_ge. rewrite length_app. lia.
Qed.

Lemma binary_Read_app n z rest :
  binary_Read n (le_bytes n z ++ rest) = Ok (z mod 256 ^ Z.of_nat n, rest).
Proof.
  unfold binary_Read.
  rewrite <- (le_bytes_length n z) at 1. rewrite ReadFull_app.
  rewrite le_value_le_bytes. reflexivity.
Qed.

Lemma readEntry_writeEntry e rest :
  wf_entry e → readEntry (writeEntry e ++ rest) = Ok (e, rest).
Proof.
  intros [Hk Hv Ht Hs]. destruct e as [k v ty ts]. cbn [key value entryType timestamp] in *.
  unfold readEntry, writeEntry. cbn [key value entryType timestamp].
  rewrite <- !app_assoc.
  rewrite binary_Read_app.
  change (256 ^ Z.of_nat 4) with (2 ^ 32).
  rewrite Z.mod_small by (unfold len in *; lia).
  unfold len at 1. rewrite Nat2Z.id, ReadFull_app.
  rewrite binary_Read_app.
  change (256 ^ Z.of_nat 4) with (2 ^ 32).
  rewrite Z.mod_small by (unfold len in *; lia).
  unfold len at 1. rewrite Nat2Z.id, ReadFull_app.
  rewrite binary_Read_app.
  change (256 ^ Z.of_nat 1) with 256.
  rewrite Z.mod_small by lia.
  unfold binary_Read. rewrite <- (le_bytes_length 8 ts) at 1. rewrite ReadFull_app.
  rewrite to_int64_le_bytes by lia. reflexivity.
Qed.

Lemma writeEntry_length e :
  len (writeEntry e) = 4 + len (key e) + 4 + len (value e) + 1 + 8.
Proof.
  unfold writeEntry, len. rewrite !length_app, !le_bytes_length. lia.
Qed.

Lemma writeEntries_cons e es : writeEntries (e :: es) = writeEntry e ++ writeEntries es.
Proof. reflexivity. Qed.

Lemma writeEntries_app es1 es2 :
  writeEntries (es1 ++ es2) = writeEntries es1 ++ writeEntries es2.
Proof. unfold writeEntries. rewrite map_app, concat_app. reflexivity. Qed.

Lemma readLoop_writeEntries fuel msg es tail acc :
  Forall wf_entry es →
  readLoop (length es + fuel) msg (writeEntries es ++ tail) acc =
  readLoop fuel msg tail (acc ++ es).
Proof.
  intros Hwf. revert acc. induction Hwf as [|e es He Hes IH]; intros acc.
  - simpl. rewrite app_nil_r. reflexivity.
  - cbn [length Nat.add readLoop]. rewrite writeEntries_cons, <- app_assoc.
    rewrite readEntry_writeEntry by assumption.
    rewrite IH, <- app_assoc. reflexivity.
Qed.

Lemma writeEntries_length_ge es : (length es <= length (writeEntries es))%nat.
Proof.
  induction es as [|e es IH]; [simpl; lia|].
  rewrite writeEntries_cons, length_app. cbn [length].
  pose proof (writeEntry_length e) as H. unfold len in H. lia.
Qed.

Lemma readAll_writeEntries msg es :
  Forall wf_entry es → readAll msg (writeEntries es) = Ok es.
Proof.
  intros Hwf. unfold readAll.
  pose proof (writeEntries_length_ge es) as Hlen.
  replace (S (length (writeEntries es)))
    with (length es + S (length (writeEntries es) - length es))%nat by lia.
  rewrite <- (app_nil_r (writeEntries es)) at 2.
  rewrite readLoop_writeEntries by assumption.
  reflexivity.
Qed.

(** The budgets of the reading loops are never used up. *)
Lemma ReadFull_length n r bs r' :
  ReadFull n r = Ok (bs, r') → length r = (n + length r')%nat.
Proof.
  unfold ReadFull. destruct n as [|n].
  - intros H. inversion H. reflexivity.
  - destruct r as [|b r]; [discriminate|].
    destruct (Nat.ltb_spec (length (b :: r)) (S n)) as [Hlt|Hge]; [discriminate|].
    intros H. inversion H. rewrite length_drop. cbn [length] in *. lia.
Qed.

Lemma binary_Read_length n r z r' :
  binary_Read n r = Ok (z, r') → length r = (n + length r')%nat.
Proof.
  unfold binary_Read. destruct (ReadFull n r) as [[bs r1]|e] eqn:E; [|discriminate].
  intros H. inversion H; subst. eapply ReadFull_length, E.
Qed.

Lemma readEntry_consumes r e r' :
  readEntry r = Ok (e, r') → (length r' < length r)%nat.
Proof.
  unfold readEntry.
  destruct (binary_Read 4 r) as [[keyLen r1]|?] eqn:E1; [|discriminate].
  destruct (ReadFull (Z.to_nat keyLen) r1) as [[k r2]|?] eqn:E2; [|discriminate].
  destruct (binary_Read 4 r2) as [[valueLen r3]|?] eqn:E3; [|discriminate].
  destruct (ReadFull (Z.to_nat valueLen) r3) as [[v r4]|?] eqn:E4; [|discriminate].
  destruct (binary_Read 1 r4) as [[ty r5]|?] eqn:E5; [|discriminate].
  destruct (binary_Read 8 r5) as [[ts r6]|?] eqn:E6; [|discriminate].
  intros H. inversion H; subst.
  apply binary_Read_length in E1, E3, E5, E6. apply ReadFull_length in E2, E4. lia.
Qed.

Lemma readLoop_total fuel msg r acc :
  (length r < fuel)%nat → is_Some (readLoop fuel msg r acc).
Proof.
  revert r acc. induction fuel as [|fuel IH]; intros r acc Hlen; [lia|].
  cbn [readLoop]. destruct (readEntry r) as [[e r']|err] eqn:E.
  - apply IH. apply readEntry_consumes in E. lia.
  - destruct err; eauto.
Qed.

Lemma search_loop_total fuel r k :
  (length r < fuel)%nat → is_Some (search_loop fuel r k).
Proof.
  revert r. induction fuel as [|fuel IH]; intros r Hlen; [lia|].
  cbn [search_loop]. destruct (readEntry r) as [[e r']|err] eqn:E.
  - destruct (bytes_Compare (key e) k =? 0); [eauto|].
    destruct (0 <? bytes_Compare (key e) k); [eauto|].
    apply IH. apply readEntry_consumes in E. lia.
  - destruct err; eauto.
Qed.

Lemma FindOffset_loop_total fuel es k left right best :
  0 <= left <= right + 1 → right < len es →
  right - left + 1 < Z.of_nat fuel →
  is_Some (BlockIndex.FindOffset_loop fuel es k left right best).
Proof.
  unfold len. revert left right best.
  induction fuel as [|fuel IH]; intros left right best Hl Hr Hf.
  - lia.
  - cbn [BlockIndex.FindOffset_loop].
    destruct (Z.leb_spec left right) as [Hle|Hgt]; [|eauto].
    assert (Hmid : left <= left + (right - left) / 2 <= right).
    { assert (0 <= (right - left) / 2 <= right - left); [|lia].
      split; [apply Z.div_pos; lia|apply Z.div_le_upper_bound; lia]. }
    destruct (es !! Z.to_nat (left + (right - left) / 2)) as [ie|] eqn:E.
    + destruct (bytes_Compare (BlockIndex.Key ie) k <=? 0); apply IH; lia.
    + apply lookup_ge_None in E. lia.
Qed.

Lemma ReadFull_take (f c : list byte) (n : nat) :
  ReadFull (length f) (take n (f ++ c)) =
  if (length f <=? n)%nat then Ok (f, take (n - length f) c)
  else if (n =? 0)%nat then Err EOF else Err ErrUnexpectedEOF.
Proof.
  destruct (Nat.leb_spec (length f) n) as [H|H].
  - rewrite take_app_ge by lia. apply ReadFull_app.
  - rewrite take_app_le by lia.
    unfold ReadFull. destruct f as [|b f]; [simpl in H; lia|].
    destruct n as [|n]; [reflexivity|].
    cbn [take Nat.eqb length] in *.
    replace (S (length (take n f)) <? S (length f))%nat with true; [reflexivity|].
    symmetry. apply Nat.ltb_lt. rewrite length_take. lia.
Qed.

Lemma binary_Read_take m z c n :
  binary_Read m (take n (le_bytes m z ++ c)) =
  if (m <=? n)%nat then Ok (z mod 256 ^ Z.of_nat m, take (n - m) c)
  else if (n =? 0)%nat then Err EOF else Err ErrUnexpectedEOF.
Proof.
  unfold binary_Read.
  pose proof (ReadFull_take (le_bytes m z) c n) as H.
  rewrite le_bytes_length in H. rewrite H.
  destruct (m <=? n)%nat.
  - rewrite le_value_le_bytes. reflexivity.
  - destruct (n =? 0)%nat; reflexivity.
Qed.

Ltac boundary_case :=
  f_equal;
  match goal with
  | |- context [bool_decide ?P] =>
      destruct (bool_decide_reflect P) as [Hb|Hb];
      rewrite !elem_of_cons, elem_of_nil in Hb;
      first [ reflexivity | exfalso; lia | exfalso; apply Hb; lia ]
  end.

Lemma readEntry_truncated e n :
  wf_entry e → (0 < n < length (writeEntry e))%nat →
  readEntry (take n (writeEntry e)) =
  Err (if bool_decide (n ∈ fieldBoundaries e) then EOF else ErrUnexpectedEOF).
Proof.
  intros [Hk Hv Ht Hs] Hn.
  pose proof (writeEntry_length e) as Hlen. unfold len in *.
  destruct e as [k v ty ts]. cbn [key value entryType timestamp] in *.
  unfold fieldBoundaries. cbn [key value].
  unfold readEntry, writeEntry, len. cbn [key value entryType timestamp].
  rewrite binary_Read_take.
  destruct (Nat.leb_spec 4 n) as [H1|H1].
  2:{ destruct (Nat.eqb_spec n 0) as [H0|H0]; boundary_case. }
  change (256 ^ Z.of_nat 4) with (2 ^ 32).
  rewrite Z.mod_small by lia. rewrite Nat2Z.id.
  rewrite ReadFull_take.
  destruct (Nat.leb_spec (length k) (n - 4)) as [H2|H2].
  2:{ destruct (Nat.eqb_spec (n - 4) 0) as [H0|H0]; boundary_case. }
  rewrite binary_Read_take.
  destruct (Nat.leb_spec 4 (n - 4 - length k)) as [H3|H3].
  2:{ destruct (Nat.eqb_spec (n - 4 - length k) 0) as [H0|H0]; boundary_case. }
  change (256 ^ Z.of_nat 4) with (2 ^ 32).
  rewrite Z.mod_small by lia. rewrite Nat2Z.id.
  rewrite ReadFull_take.
  destruct (Nat.leb_spec (length v) (n - 4 - length k - 4)) as [H4|H4].
  2:{ destruct (Nat.eqb_spec (n - 4 - length k - 4) 0) as [H0|H0]; boundary_case. }
  rewrite binary_Read_take.
  destruct (Nat.leb_spec 1 (n - 4 - length k - 4 - length v)) as [H5|H5].
  2:{ destruct (Nat.eqb_spec (n - 4 - length k - 4 - length v) 0) as [H0|H0];
      boundary_case. }
  rewrite <- (app_nil_r (le_bytes 8 ts)).
  rewrite binary_Read_take.
  destruct (Nat.leb_spec 8 (n - 4 - length k - 4 - length v - 1)) as [H6|H6].
  { exfalso. lia. }
  destruct (Nat.eqb_spec (n - 4 - length k - 4 - length v - 1) 0) as [H0|H0];
    boundary_case.
Qed.

(** ** WAL *)

Ltac run_M :=
  unfold mbind, M_bind, bind, mret, M_ret, ret, get_disk, set_disk; cbn.

Lemma WriteEntries_buf w es :
  WAL.WriteEntries w es =
  Ok {| WAL.path := WAL.path w; WAL.buf := WAL.buf w ++ writeEntries es;
        WAL.isOpen := WAL.isOpen w |}.
Proof.
  revert w. induction es as [|e es IH]; intros w.
  - simpl. rewrite app_nil_r. destruct w; reflexivity.
  - cbn [WAL.WriteEntries WAL.WriteEntry]. rewrite IH.
    cbn [WAL.path WAL.buf WAL.isOpen].
    rewrite writeEntries_cons, app_assoc. reflexivity.
Qed.

Lemma NewWAL_fresh (w : World) dir filename :
  disk w !! filepath_Join dir filename = None →
  ∃ w', WAL.NewWAL dir filename w =
          Done (Ok {| WAL.path := filepath_Join dir filename; WAL.buf := [];
                      WAL.isOpen := true |}) w' ∧
        disk w' !! filepath_Join dir filename = Some [].
Proof.
  intros H. unfold WAL.NewWAL. run_M. rewrite H. cbn.
  eexists. split; [reflexivity|]. cbn. apply lookup_insert_eq.
Qed.

Lemma NewWAL_existing (w : World) dir filename content :
  disk w !! filepath_Join dir filename = Some content →
  WAL.NewWAL dir filename w =
    Done (Ok {| WAL.path := filepath_Join dir filename; WAL.buf := [];
                WAL.isOpen := true |}) w.
Proof.
  intros H. unfold WAL.NewWAL. run_M. rewrite H. reflexivity.
Qed.

Lemma Recover_open path buf0 (w : World) content :
  disk w !! path = Some content →
  ∃ w' wal',
    WAL.Recover {| WAL.path := path; WAL.buf := buf0; WAL.isOpen := true |} w =
      Done (readAll "failed to read entry from WAL" (content ++ buf0), wal') w' ∧
    disk w' !! path = Some (content ++ buf0).
Proof.
  intros Hc. unfold WAL.Recover, WAL.Close, WAL.Flush. run_M.
  rewrite Hc. cbn. rewrite lookup_insert_eq.
  destruct (readAll _ _); eexists _, _; (split; [reflexivity|]); cbn;
    apply lookup_insert_eq.
Qed.

(** C3.  Entries that the record layout can hold, written to a
    new WAL with [WriteEntry] and read back with [Recover], come back as
    they were written: the same entries (key, value, kind and timestamp) in
    the same order. *)
Theorem wal_write_recover_roundtrip (w : World) (dir filename : string)
    (es : list Entry) :
  Forall wf_entry es →
  disk w !! filepath_Join dir filename = None →
  ∃ w', writeThenRecover dir filename es w = Done (Ok es) w'.
Proof.
  intros Hwf Hfresh. unfold writeThenRecover, mbind, M_bind, bind.
  destruct (NewWAL_fresh w dir filename Hfresh) as (w1 & -> & Hd).
  cbv beta iota. rewrite WriteEntries_buf.
  cbn [WAL.path WAL.buf WAL.isOpen app].
  destruct (Recover_open _ (writeEntries es) w1 [] Hd) as (w' & wal' & -> & _).
  cbv beta iota. rewrite app_nil_l, readAll_writeEntries by assumption.
  exists w'. reflexivity.
Qed.

Ltac solve_wf :=
  repeat match goal with
         | |- Forall _ _ => constructor
         | |- wf_entry _ =>
             constructor; vm_compute; repeat split;
             first [ reflexivity | intro; discriminate ]
         end.


Lemma wal_write_recover_roundtrip_witness :
  Forall wf_entry walEntries ∧
  disk emptyWorld !! filepath_Join "data/wal" "test.wal" = None ∧
  ∃ w', writeThenRecover "data/wal" "test.wal" walEntries emptyWorld =
        Done (Ok walEntries) w'.
Proof.
  assert (Hwf : Forall wf_entry walEntries) by (unfold walEntries; solve_wf).
  assert (Hfresh : disk emptyWorld !! filepath_Join "data/wal" "test.wal" = None)
    by reflexivity.
  split; [exact Hwf|]. split; [exact Hfresh|].
  exact (wal_write_recover_roundtrip emptyWorld "data/wal" "test.wal" walEntries
           Hwf Hfresh).
Defined.

Lemma readAll_truncated msg es tail (err : error) :
  Forall wf_entry es → readEntry tail = Err err →
  readAll msg (writeEntries es ++ tail) =
  match err with EOF => Ok es | _ => Err (ErrWrap msg err) end.
Proof.
  intros Hwf Htail. unfold readAll.
  pose proof (writeEntries_length_ge es) as Hlen.
  replace (S (length (writeEntries es ++ tail)))
    with (length es + S (length (writeEntries es ++ tail) - length es))%nat
    by (rewrite length_app; lia).
  rewrite readLoop_writeEntries by assumption.
  cbn [readLoop]. rewrite Htail. destruct err; reflexivity.
Qed.

(** C4, as the claim states it, fails: with one whole record followed by
    two bytes of the next, [Recover] returns the error of the short read
    and no entries. *)
Lemma wal_recover_truncated_tail_counterexample :
  replies (openAndRecover "data/wal" "wal_0.log" (tornWorld 2)) =
  Some (Err (ErrWrap "failed to read entry from WAL" ErrUnexpectedEOF)).
Proof. vm_compute. reflexivity. Qed.

(** C4.  A WAL file of [n] whole records followed by the first
    bytes of one more: if the cut falls exactly where a field ends,
    [Recover] returns the [n] entries and no error; if it falls inside a
    field, [Recover] returns the error of the short read and no entries. *)
Theorem wal_recover_truncated_tail (w : World) (dir filename : string)
    (es : list Entry) (e : Entry) (n : nat) :
  Forall wf_entry es → wf_entry e →
  (0 < n < length (writeEntry e))%nat →
  disk w !! filepath_Join dir filename =
    Some (writeEntries es ++ take n (writeEntry e)) →
  ∃ w', openAndRecover dir filename w =
        Done (if bool_decide (n ∈ fieldBoundaries e) then Ok es
              else Err (ErrWrap "failed to read entry from WAL" ErrUnexpectedEOF)) w'.
Proof.
  intros Hwf He Hn Hfile. unfold openAndRecover, mbind, M_bind, bind.
  rewrite (NewWAL_existing _ _ _ _ Hfile). cbv beta iota.
  destruct (Recover_open _ [] w _ Hfile) as (w' & wal' & -> & _).
  cbv beta iota. rewrite app_nil_r.
  rewrite (readAll_truncated _ es _ _ Hwf (readEntry_truncated e n He Hn)).
  exists w'. destruct (bool_decide _); reflexivity.
Qed.

Lemma wal_recover_truncated_tail_witness :
  Forall wf_entry [pute 1 "key1" "value1"] ∧
  wf_entry (pute 2 "key2" "value2") ∧
  (0 < 4 < length (writeEntry (pute 2 "key2" "value2")))%nat ∧
  disk (tornWorld 4) !! filepath_Join "data/wal" "wal_0.log" =
    Some (writeEntries [pute 1 "key1" "value1"] ++
          take 4 (writeEntry (pute 2 "key2" "value2"))) ∧
  ∃ w', openAndRecover "data/wal" "wal_0.log" (tornWorld 4) =
        Done (if bool_decide (4%nat ∈ fieldBoundaries (pute 2 "key2" "value2"))
              then Ok [pute 1 "key1" "value1"]
              else Err (ErrWrap "failed to read entry from WAL" ErrUnexpectedEOF)) w'.
Proof.
  assert (H1 : Forall wf_entry [pute 1 "key1" "value1"]) by solve_wf.
  assert (H2 : wf_entry (pute 2 "key2" "value2")) by solve_wf.
  assert (H3 : (0 < 4 < length (writeEntry (pute 2 "key2" "value2")))%nat)
    by (cbn; lia).
  assert (H4 : disk (tornWorld 4) !! filepath_Join "data/wal" "wal_0.log" =
    Some (writeEntries [pute 1 "key1" "value1"] ++
          take 4 (writeEntry (pute 2 "key2" "value2")))) by reflexivity.
  repeat (split; [assumption|]).
  exact (wal_recover_truncated_tail (tornWorld 4) "data/wal" "wal_0.log"
           [pute 1 "key1" "value1"] (pute 2 "key2" "value2") 4 H1 H2 H3 H4).
Defined.

(** ** MemTable *)

Lemma exists_true mt k : MemTable.exists_ mt k = true ↔ is_Some (MemTable.entries mt !! k).
Proof. unfold MemTable.exists_. apply bool_decide_eq_true. Qed.

Lemma exists_false mt k : MemTable.exists_ mt k = false ↔ MemTable.entries mt !! k = None.
Proof.
  unfold MemTable.exists_. rewrite bool_decide_eq_false, <- eq_None_not_Some. tauto.
Qed.

Lemma applyOp_unfold mt now op :
  applyOp mt now op =
  if MemTable.readOnly mt then Err ErrReadOnly
  else if negb (MemTable.exists_ mt (opKey op)) && (MemTable.maxSize mt <=? MemTable.size mt)
  then Err ErrTableFull
  else Ok {| MemTable.entries := <[opKey op := opEntry now op]> (MemTable.entries mt);
             MemTable.maxSize := MemTable.maxSize mt;
             MemTable.size := if negb (MemTable.exists_ mt (opKey op))
                              then MemTable.size mt + 1 else MemTable.size mt;
             MemTable.readOnly := MemTable.readOnly mt |}.
Proof. destruct op; reflexivity. Qed.

Lemma applyOp_inv mt now op mt' :
  capacityInv mt → applyOp mt now op = Ok mt' → capacityInv mt'.
Proof.
  unfold capacityInv. rewrite applyOp_unfold. intros Hinv H.
  destruct (MemTable.readOnly mt); [discriminate|].
  destruct (MemTable.exists_ mt (opKey op)); cbn [negb andb] in H.
  - inversion H; subst; cbn. lia.
  - destruct (Z.leb_spec (MemTable.maxSize mt) (MemTable.size mt)); [discriminate|].
    inversion H; subst; cbn. lia.
Qed.

Lemma applyOps_inv mt ops : capacityInv mt → capacityInv (applyOps mt ops).
Proof.
  revert mt. induction ops as [|[now op] ops IH]; intros mt Hinv; [exact Hinv|].
  cbn [applyOps]. destruct (applyOp mt now op) as [mt'|e] eqn:E.
  - apply IH. eapply applyOp_inv; eauto.
  - apply IH, Hinv.
Qed.

(** C8.  For a memtable that is not sealed and whose size is
    within its bound: the bound holds after every sequence of puts and
    deletes; a put or delete of a key that is present succeeds, stores the
    new entry under the key and leaves the size as it was; a put or delete
    of a key that is absent when the size equals the bound fails with
    [ErrTableFull] and the table stays as it was. *)
Theorem memtable_capacity (mt : MemTable.t) :
  capacityInv mt →
  MemTable.readOnly mt = false →
  (∀ ops, capacityInv (applyOps mt ops)) ∧
  (∀ now op,
     is_Some (MemTable.entries mt !! opKey op) →
     ∃ mt', applyOp mt now op = Ok mt' ∧
            MemTable.size mt' = MemTable.size mt ∧
            MemTable.maxSize mt' = MemTable.maxSize mt ∧
            MemTable.entries mt' = <[opKey op := opEntry now op]> (MemTable.entries mt)) ∧
  (∀ now op,
     MemTable.entries mt !! opKey op = None →
     MemTable.size mt = MemTable.maxSize mt →
     applyOp mt now op = Err ErrTableFull ∧ applyOps mt [(now, op)] = mt).
Proof.
  intros Hinv Hro. split; [|split].
  - intros ops. apply applyOps_inv, Hinv.
  - intros now op Hin. rewrite applyOp_unfold, Hro.
    apply exists_true in Hin. rewrite Hin. cbn [negb andb].
    eexists. split; [reflexivity|]. cbn. auto.
  - intros now op Hnew Hfull.
    assert (E : applyOp mt now op = Err ErrTableFull).
    { rewrite applyOp_unfold, Hro. apply exists_false in Hnew. rewrite Hnew.
      cbn [negb andb]. rewrite Hfull, Z.leb_refl. reflexivity. }
    split; [exact E|]. cbn [applyOps]. rewrite E. reflexivity.
Qed.

Lemma memtable_capacity_witness :
  capacityInv fullTable ∧
  MemTable.readOnly fullTable = false ∧
  (∀ ops, capacityInv (applyOps fullTable ops)) ∧
  (∀ now op,
     is_Some (MemTable.entries fullTable !! opKey op) →
     ∃ mt', applyOp fullTable now op = Ok mt' ∧
            MemTable.size mt' = MemTable.size fullTable ∧
            MemTable.maxSize mt' = MemTable.maxSize fullTable ∧
            MemTable.entries mt' =
              <[opKey op := opEntry now op]> (MemTable.entries fullTable)) ∧
  (∀ now op,
     MemTable.entries fullTable !! opKey op = None →
     MemTable.size fullTable = MemTable.maxSize fullTable →
     applyOp fullTable now op = Err ErrTableFull ∧
     applyOps fullTable [(now, op)] = fullTable).
Proof.
  assert (H1 : capacityInv fullTable) by (vm_compute; discriminate).
  assert (H2 : MemTable.readOnly fullTable = false) by reflexivity.
  split; [exact H1|]. split; [exact H2|].
  exact (memtable_capacity fullTable H1 H2).
Defined.

(** ** BloomFilter *)

Lemma bloom_extends_refl bf : bloom_extends bf bf.
Proof. unfold bloom_extends. auto. Qed.

Lemma bloom_extends_trans a b c :
  bloom_extends a b → bloom_extends b c → bloom_extends a c.
Proof.
  unfold bloom_extends. intros (?&?&?&?) (?&?&?&?).
  repeat split; try congruence. auto.
Qed.

Lemma bloom_extends_wf bf bf' : bloom_extends bf bf' → bloom_wf bf → bloom_wf bf'.
Proof. unfold bloom_extends, bloom_wf. intros (?&?&?&?) (?&?). split; congruence. Qed.

Lemma bloom_index_extends bf bf' h i :
  bloom_extends bf bf' → BloomFilter.index bf' h i = BloomFilter.index bf h i.
Proof. unfold BloomFilter.index. intros (-> & _). reflexivity. Qed.

Lemma bloom_index_wf bf h i :
  bloom_wf bf → ∃ ix, BloomFilter.index bf h i = Some ix ∧ (ix < length (BloomFilter.bitArray bf))%nat.
Proof.
  intros [Hpos Hlen]. unfold BloomFilter.index.
  destruct (Z.eqb_spec (BloomFilter.size bf) 0) as [E|E]; [lia|].
  eexists. split; [reflexivity|]. rewrite Hlen.
  pose proof (Z.mod_pos_bound (BloomFilter.uint32 (h.1 + BloomFilter.uint32 i * h.2)) (BloomFilter.size bf) Hpos).
  lia.
Qed.

Lemma set_bit_spec bf ix :
  (ix < length (BloomFilter.bitArray bf))%nat →
  ∃ bf', BloomFilter.set_bit bf ix = Some bf' ∧ bloom_extends bf bf' ∧
         BloomFilter.bitArray bf' !! ix = Some true.
Proof.
  intros Hix. unfold BloomFilter.set_bit.
  destruct (Nat.ltb_spec ix (length (BloomFilter.bitArray bf))) as [_|]; [|lia].
  eexists. split; [reflexivity|]. split.
  - unfold bloom_extends. cbn. rewrite length_insert. repeat split.
    intros j Hj. destruct (decide (ix = j)) as [->|Hne].
    + apply list_lookup_insert_eq. exact Hix.
    + rewrite list_lookup_insert_ne by exact Hne. exact Hj.
  - cbn. apply list_lookup_insert_eq. exact Hix.
Qed.

(** Every probe of the rounds run is set afterwards. *)
Lemma Add_loop_spec n h i bf :
  bloom_wf bf →
  ∃ bf', BloomFilter.Add_loop n h i bf = Some bf' ∧ bloom_extends bf bf' ∧
         ∀ m, (m < n)%nat →
           ∃ ix, BloomFilter.index bf h (i + Z.of_nat m) = Some ix ∧
                 BloomFilter.bitArray bf' !! ix = Some true.
Proof.
  revert i bf. induction n as [|n IH]; intros i bf Hwf.
  - exists bf. split; [reflexivity|]. split; [apply bloom_extends_refl|]. intros; lia.
  - cbn [BloomFilter.Add_loop].
    destruct (bloom_index_wf bf h i Hwf) as (ix & Hix & Hlt). rewrite Hix.
    destruct (set_bit_spec bf ix Hlt) as (bf1 & -> & Hext1 & Hset).
    destruct (IH (i + 1) bf1 (bloom_extends_wf _ _ Hext1 Hwf)) as (bf2 & -> & Hext2 & Hall).
    exists bf2. split; [reflexivity|]. split; [eapply bloom_extends_trans; eauto|].
    intros [|m] Hm.
    + rewrite Z.add_0_r. exists ix. split; [exact Hix|]. apply Hext2, Hset.
    + destruct (Hall m ltac:(lia)) as (jx & Hjx & Hj).
      exists jx. split; [|exact Hj].
      rewrite <- (bloom_index_extends bf bf1) by exact Hext1.
      rewrite <- Hjx. f_equal. lia.
Qed.

Lemma Contains_loop_true n h i bf :
  (∀ m, (m < n)%nat →
     ∃ ix, BloomFilter.index bf h (i + Z.of_nat m) = Some ix ∧
           BloomFilter.bitArray bf !! ix = Some true) →
  BloomFilter.Contains_loop n h i bf = Some true.
Proof.
  revert i. induction n as [|n IH]; intros i H; [reflexivity|].
  cbn [BloomFilter.Contains_loop].
  destruct (H 0%nat ltac:(lia)) as (ix & Hix & Hbit).
  rewrite Z.add_0_r in Hix. rewrite Hix, Hbit.
  apply IH. intros m Hm. destruct (H (S m) ltac:(lia)) as (jx & Hjx & Hj).
  exists jx. split; [|exact Hj]. rewrite <- Hjx. f_equal. lia.
Qed.

Lemma bloom_holds_extends bf bf' k :
  bloom_extends bf bf' → bloom_holds bf k → bloom_holds bf' k.
Proof.
  intros Hext H m Hm. pose proof Hext as (Hs & Hh & _ & Hbits).
  rewrite Hh in Hm. destruct (H m Hm) as (ix & Hix & Hbit).
  exists ix. split; [|auto]. rewrite (bloom_index_extends bf bf') by exact Hext. exact Hix.
Qed.

Lemma Add_spec bf k :
  bloom_wf bf →
  ∃ bf', BloomFilter.Add bf k = Some bf' ∧ bloom_extends bf bf' ∧ bloom_holds bf' k.
Proof.
  intros Hwf. unfold BloomFilter.Add.
  destruct (Add_loop_spec (Z.to_nat (BloomFilter.hashFuncs bf)) (BloomFilter.getHashes k) 0 bf Hwf)
    as (bf' & -> & Hext & Hall).
  exists bf'. split; [reflexivity|]. split; [exact Hext|].
  intros m Hm. pose proof Hext as (_ & Hh & _). rewrite Hh in Hm.
  destruct (Hall m Hm) as (ix & Hix & Hbit). exists ix. split; [|exact Hbit].
  rewrite (bloom_index_extends bf bf') by exact Hext. exact Hix.
Qed.

Lemma AddAll_spec bf ks :
  bloom_wf bf →
  ∃ bf', BloomFilter.AddAll bf ks = Some bf' ∧ bloom_extends bf bf' ∧
         ∀ k, k ∈ ks → bloom_holds bf' k.
Proof.
  revert bf. induction ks as [|k ks IH]; intros bf Hwf.
  - exists bf. split; [reflexivity|]. split; [apply bloom_extends_refl|].
    intros k Hk. inversion Hk.
  - cbn [BloomFilter.AddAll]. destruct (Add_spec bf k Hwf) as (bf1 & -> & Hext1 & Hk1).
    destruct (IH bf1 (bloom_extends_wf _ _ Hext1 Hwf)) as (bf2 & -> & Hext2 & Hks).
    exists bf2. split; [reflexivity|]. split; [eapply bloom_extends_trans; eauto|].
    intros k' Hk'. apply elem_of_cons in Hk' as [->|Hk'].
    + eapply bloom_holds_extends; eauto.
    + auto.
Qed.

Lemma Contains_holds bf k : bloom_holds bf k → BloomFilter.Contains bf k = Some true.
Proof. intros H. unfold BloomFilter.Contains. apply Contains_loop_true. exact H. Qed.

Lemma NewBloomFilter_wf capacity logRate :
  0 < BloomFilter.size (BloomFilter.NewBloomFilter capacity logRate) →
  bloom_wf (BloomFilter.NewBloomFilter capacity logRate).
Proof.
  intros H. split; [exact H|]. unfold BloomFilter.NewBloomFilter. cbn [BloomFilter.bitArray BloomFilter.size].
  apply length_replicate.
Qed.

(** C9, as the claim states it, fails: the filter created for capacity 1
    and rate 0.7 has no bit at all, and [Add] and [Contains] panic on it
    (the remainder by [size = 0]). *)
Lemma bloom_empty_counterexample :
  0 < 1 ∧
  BloomFilter.size (BloomFilter.NewBloomFilter 1 LOG_0_7) = 0 ∧
  BloomFilter.Add (BloomFilter.NewBloomFilter 1 LOG_0_7) (bytes_of_string "k") = None ∧
  BloomFilter.Contains (BloomFilter.NewBloomFilter 1 LOG_0_7) (bytes_of_string "k") = None.
Proof. vm_compute. repeat split; reflexivity. Qed.

(** C9.  For every Bloom filter created with at least one bit
    and every key [k]: after [Add] has been called for [k], among other
    keys in any order, [Contains k] returns true. *)
Theorem bloom_no_false_negative (capacity : Z) (logRate : float)
    (ks : list (list byte)) (k : list byte) :
  0 < BloomFilter.size (BloomFilter.NewBloomFilter capacity logRate) →
  k ∈ ks →
  ∃ bf, BloomFilter.AddAll (BloomFilter.NewBloomFilter capacity logRate) ks = Some bf ∧
        BloomFilter.Contains bf k = Some true.
Proof.
  intros Hsize Hk.
  destruct (AddAll_spec _ ks (NewBloomFilter_wf _ _ Hsize)) as (bf & HA & _ & Hall).
  exists bf. split; [exact HA|]. apply Contains_holds, Hall, Hk.
Qed.

Lemma bloom_no_false_negative_witness :
  0 < BloomFilter.size (BloomFilter.NewBloomFilter 1000 LOG_0_01) ∧
  bytes_of_string "test_key_1" ∈ [bytes_of_string "test_key_1"; bytes_of_string "test_key_2"] ∧
  ∃ bf, BloomFilter.AddAll (BloomFilter.NewBloomFilter 1000 LOG_0_01)
          [bytes_of_string "test_key_1"; bytes_of_string "test_key_2"] = Some bf ∧
        BloomFilter.Contains bf (bytes_of_string "test_key_1") = Some true.
Proof.
  assert (H1 : 0 < BloomFilter.size (BloomFilter.NewBloomFilter 1000 LOG_0_01))
    by (vm_compute; reflexivity).
  assert (H2 : bytes_of_string "test_key_1" ∈
               [bytes_of_string "test_key_1"; bytes_of_string "test_key_2"])
    by (left).
  split; [exact H1|]. split; [exact H2|].
  exact (bloom_no_false_negative 1000 LOG_0_01 _ _ H1 H2).
Defined.

(** ** Compaction: the order of entries *)

Lemma byte_val_inj x y : byte_val x = byte_val y → x = y.
Proof.
  unfold byte_val. intros H. apply N2Z.inj in H.
  pose proof (Byte.of_to_N x) as Hx. rewrite H, Byte.of_to_N in Hx. congruence.
Qed.

Lemma bytes_Compare_refl a : bytes_Compare a a = 0.
Proof.
  induction a as [|x a IH]; [reflexivity|]. cbn [bytes_Compare].
  rewrite Z.ltb_irrefl. exact IH.
Qed.

Lemma bytes_Compare_eq a b : bytes_Compare a b = 0 → a = b.
Proof.
  revert b. induction a as [|x a IH]; intros [|y b] H; cbn [bytes_Compare] in H;
    try reflexivity; try discriminate.
  destruct (Z.ltb_spec (byte_val x) (byte_val y)); [discriminate|].
  destruct (Z.ltb_spec (byte_val y) (byte_val x)); [discriminate|].
  f_equal; [apply byte_val_inj; lia|auto].
Qed.

Lemma bytes_Compare_antisym a b : bytes_Compare b a = - bytes_Compare a b.
Proof.
  revert b. induction a as [|x a IH]; intros [|y b]; cbn [bytes_Compare];
    try reflexivity.
  destruct (Z.ltb_spec (byte_val x) (byte_val y));
    destruct (Z.ltb_spec (byte_val y) (byte_val x)); try lia; auto.
Qed.

Lemma bytes_Compare_range a b : -1 <= bytes_Compare a b <= 1.
Proof.
  revert b. induction a as [|x a IH]; intros [|y b]; cbn [bytes_Compare]; try lia.
  destruct (byte_val x <? byte_val y); [lia|].
  destruct (byte_val y <? byte_val x); [lia|]. apply IH.
Qed.

Lemma bytes_Compare_trans a b c :
  bytes_Compare a b <= 0 → bytes_Compare b c <= 0 →
  bytes_Compare a c <= 0 ∧
  (bytes_Compare a b < 0 ∨ bytes_Compare b c < 0 → bytes_Compare a c < 0).
Proof.
  revert b c. induction a as [|x a IH]; intros [|y b] [|z c];
    cbn [bytes_Compare]; try lia.
  destruct (Z.ltb_spec (byte_val x) (byte_val y));
    destruct (Z.ltb_spec (byte_val y) (byte_val x));
    destruct (Z.ltb_spec (byte_val y) (byte_val z));
    destruct (Z.ltb_spec (byte_val z) (byte_val y));
    destruct (Z.ltb_spec (byte_val x) (byte_val z));
    destruct (Z.ltb_spec (byte_val z) (byte_val x));
    try lia.
  apply IH.
Qed.

Lemma compactionLe_iff x y :
  compactionLe x y ↔
  Compare x y < 0 ∨ (Compare x y = 0 ∧ timestamp y <= timestamp x).
Proof.
  unfold compactionLe, CompactionManager.compactionLess, IsNewerThan, Compare.
  rewrite (bytes_Compare_antisym (key x) (key y)).
  pose proof (bytes_Compare_range (key x) (key y)).
  destruct (Z.eqb_spec (- bytes_Compare (key x) (key y)) 0).
  - rewrite Z.ltb_ge. lia.
  - rewrite Z.ltb_ge. lia.
Qed.

#[local] Instance compactionLe_total : Total compactionLe.
Proof.
  intros x y. rewrite !compactionLe_iff. unfold Compare.
  rewrite (bytes_Compare_antisym (key x) (key y)). lia.
Qed.

#[local] Instance compactionLe_trans : Transitive compactionLe.
Proof.
  intros x y z. rewrite !compactionLe_iff. unfold Compare. intros Hxy Hyz.
  destruct (bytes_Compare_trans (key x) (key y) (key z)) as [H1 H2]; lia.
Qed.

Lemma sort_Slice_compaction_sorted l :
  StronglySorted compactionLe (sort_Slice CompactionManager.compactionLess l).
Proof. apply (StronglySorted_merge_sort compactionLe). Qed.

Lemma sort_Slice_perm {A} (less : A → A → bool) l : sort_Slice less l ≡ₚ l.
Proof. apply merge_sort_Permutation. Qed.

Lemma firstWithKey_cons k x l :
  firstWithKey k (x :: l) = if decide (key x = k) then Some x else firstWithKey k l.
Proof.
  unfold firstWithKey. rewrite filter_cons. destruct (decide (key x = k)); reflexivity.
Qed.

Lemma firstWithKey_Some k l e :
  firstWithKey k l = Some e → e ∈ l ∧ key e = k.
Proof.
  unfold firstWithKey. intros H. apply head_Some in H as [l' Hl'].
  assert (He : e ∈ filter (fun e => key e = k) l) by (rewrite Hl'; left).
  apply list_elem_of_filter in He. tauto.
Qed.

Lemma firstWithKey_exists k l :
  (∃ e, e ∈ l ∧ key e = k) → ∃ e, firstWithKey k l = Some e.
Proof.
  intros (e & He & Hk). unfold firstWithKey.
  assert (Hin : e ∈ filter (fun e => key e = k) l) by (apply list_elem_of_filter; auto).
  destruct (filter _ l) as [|x f]; [inversion Hin|]. exists x. reflexivity.
Qed.

Lemma firstWithKey_newest k l e :
  StronglySorted compactionLe l → firstWithKey k l = Some e →
  ∀ e', e' ∈ l → key e' = k → timestamp e' <= timestamp e.
Proof.
  induction 1 as [|x l Hl IH Hx]; intros Hf e' He' Hk'.
  - inversion He'.
  - rewrite firstWithKey_cons in Hf. destruct (decide (key x = k)) as [Hkx|Hkx].
    + inversion Hf; subst e. apply elem_of_cons in He' as [->|He']; [lia|].
      rewrite Forall_forall in Hx. specialize (Hx e' He').
      apply compactionLe_iff in Hx. unfold Compare in Hx.
      rewrite Hkx, Hk', bytes_Compare_refl in Hx. lia.
    + apply elem_of_cons in He' as [->|He']; [contradiction|]. auto.
Qed.

Lemma not_elem_of_seen (k k' : list byte) (seen : gset (list byte)) :
  k ∉ {[k']} ∪ seen ↔ k' ≠ k ∧ k ∉ seen.
Proof.
  rewrite not_elem_of_union, not_elem_of_singleton. split; intros [? ?]; auto.
Qed.

Lemma firstWithKey_skip k x l :
  key x ≠ k → firstWithKey k (x :: l) = firstWithKey k l.
Proof.
  intros H. rewrite firstWithKey_cons. destruct (decide (key x = k)); [contradiction|reflexivity].
Qed.

Lemma firstWithKey_hit x l : firstWithKey (key x) (x :: l) = Some x.
Proof.
  rewrite firstWithKey_cons. destruct (decide (key x = key x)); [reflexivity|contradiction].
Qed.

Lemma dedup_loop_elem l seen res e :
  e ∈ CompactionManager.dedup_loop l seen res ↔
  e ∈ res ∨
  ((key e ∉ seen) ∧ firstWithKey (key e) l = Some e ∧ IsDeleted e = false).
Proof.
  revert seen res. induction l as [|x l IH]; intros seen res.
  - cbn [CompactionManager.dedup_loop]. unfold firstWithKey. cbn. split; [auto|].
    intros [H|(_ & H & _)]; [exact H|discriminate].
  - cbn [CompactionManager.dedup_loop].
    case_bool_decide as Hseen.
    + rewrite IH. split; intros [H|(Hn & Hf & Hd)]; auto; right;
        (assert (key x ≠ key e) by (intros E; rewrite E in Hseen; contradiction));
        rewrite firstWithKey_skip in * by assumption; auto.
    + destruct (IsDeleted x) eqn:Hdx.
      * rewrite IH. split; intros [H|(Hn & Hf & Hd)]; auto.
        -- apply not_elem_of_seen in Hn as [Hne Hn]. right.
           rewrite firstWithKey_skip by assumption. auto.
        -- destruct (decide (key x = key e)) as [E|E].
           ++ rewrite <- E, firstWithKey_hit in Hf. inversion Hf; subst e. congruence.
           ++ right. rewrite firstWithKey_skip in Hf by assumption.
              split; [apply not_elem_of_seen; auto|auto].
      * rewrite IH, elem_of_app, list_elem_of_singleton.
        split; intros [H|(Hn & Hf & Hd)]; auto.
        -- destruct H as [H|H]; [auto|]. subst e. right.
           rewrite firstWithKey_hit. auto.
        -- apply not_elem_of_seen in Hn as [Hne Hn]. right.
           rewrite firstWithKey_skip by assumption. auto.
        -- destruct (decide (key x = key e)) as [E|E].
           ++ rewrite <- E, firstWithKey_hit in Hf. inversion Hf; subst e. auto.
           ++ right. rewrite firstWithKey_skip in Hf by assumption.
              split; [apply not_elem_of_seen; auto|auto].
Qed.

Lemma dedup_loop_NoDup l seen res :
  NoDup (key <$> res) → (∀ e, e ∈ res → key e ∈ seen) →
  NoDup (key <$> CompactionManager.dedup_loop l seen res).
Proof.
  revert seen res. induction l as [|x l IH]; intros seen res Hnd Hsub.
  - exact Hnd.
  - cbn [CompactionManager.dedup_loop]. case_bool_decide as Hseen; [auto|].
    destruct (IsDeleted x).
    + apply IH; [exact Hnd|]. intros e He. apply elem_of_union_r, Hsub, He.
    + apply IH.
      * rewrite fmap_app. apply NoDup_app. split; [exact Hnd|]. split.
        -- intros k Hk Hk'. cbn in Hk'. apply list_elem_of_singleton in Hk'. subst k.
           apply list_elem_of_fmap in Hk as (e & He1 & He2).
           apply Hseen. rewrite He1. auto.
        -- cbn. apply NoDup_singleton.
      * intros e He. apply elem_of_app in He as [He|He].
        -- apply elem_of_union_r, Hsub, He.
        -- apply list_elem_of_singleton in He. subst e.
           apply elem_of_union_l, elem_of_singleton. reflexivity.
Qed.

Lemma removeDuplicatesAndTombstones_elem l e :
  e ∈ CompactionManager.removeDuplicatesAndTombstones l ↔
  firstWithKey (key e) l = Some e ∧ IsDeleted e = false.
Proof.
  unfold CompactionManager.removeDuplicatesAndTombstones. destruct l as [|x l].
  - unfold firstWithKey. cbn. split; [intros H; inversion H|intros [H _]; discriminate].
  - rewrite dedup_loop_elem. split.
    + intros [H|(_ & H)]; [inversion H|exact H].
    + intros H. right. split; [apply not_elem_of_empty|exact H].
Qed.

Lemma removeDuplicatesAndTombstones_NoDup l :
  NoDup (key <$> CompactionManager.removeDuplicatesAndTombstones l).
Proof.
  unfold CompactionManager.removeDuplicatesAndTombstones. destruct l as [|x l]; [constructor|].
  apply dedup_loop_NoDup; [constructor|]. intros e He. inversion He.
Qed.

Lemma compactedEntries_spec (allEntries : list Entry) :
  NoDup (key <$> compactedEntries allEntries) ∧
  (∀ e, e ∈ compactedEntries allEntries →
     e ∈ allEntries ∧ IsDeleted e = false ∧
     ∀ e', e' ∈ allEntries → key e' = key e → timestamp e' <= timestamp e) ∧
  (∀ k, (∃ e, e ∈ allEntries ∧ key e = k) →
     (∀ d, d ∈ allEntries → key d = k → IsDeleted d = true →
        ∃ p, p ∈ allEntries ∧ key p = k ∧ IsDeleted p = false ∧
             timestamp d < timestamp p) →
     ∃ e, e ∈ compactedEntries allEntries ∧ key e = k) ∧
  (∀ k, (∀ p, p ∈ allEntries → key p = k → IsDeleted p = false →
           ∃ d, d ∈ allEntries ∧ key d = k ∧ IsDeleted d = true ∧
                timestamp p < timestamp d) →
     ∀ e, e ∈ compactedEntries allEntries → key e ≠ k).
Proof.
  unfold compactedEntries.
  set (sorted := sort_Slice CompactionManager.compactionLess allEntries).
  assert (Hperm : sorted ≡ₚ allEntries) by apply sort_Slice_perm.
  assert (Hsorted : StronglySorted compactionLe sorted)
    by apply sort_Slice_compaction_sorted.
  assert (Hnewest : ∀ e, e ∈ CompactionManager.removeDuplicatesAndTombstones sorted →
     e ∈ allEntries ∧ IsDeleted e = false ∧
     ∀ e', e' ∈ allEntries → key e' = key e → timestamp e' <= timestamp e).
  { intros e He. apply removeDuplicatesAndTombstones_elem in He as [Hf Hd].
    destruct (firstWithKey_Some _ _ _ Hf) as [Hin _].
    split; [rewrite <- Hperm; exact Hin|]. split; [exact Hd|].
    intros e' He' Hk. rewrite <- Hperm in He'.
    eapply firstWithKey_newest; eauto. }
  split; [apply removeDuplicatesAndTombstones_NoDup|].
  split; [exact Hnewest|]. split.
  - intros k (e0 & He0 & Hk0) Hput.
    destruct (firstWithKey_exists k sorted) as [e Hf].
    { exists e0. rewrite Hperm. auto. }
    destruct (firstWithKey_Some _ _ _ Hf) as [Hin Hk].
    exists e. split; [|exact Hk].
    apply removeDuplicatesAndTombstones_elem. rewrite Hk. split; [exact Hf|].
    destruct (IsDeleted e) eqn:Hd; [|reflexivity]. exfalso.
    rewrite Hperm in Hin.
    destruct (Hput e Hin Hk Hd) as (p & Hp & Hkp & _ & Hlt).
    rewrite <- Hperm in Hp.
    pose proof (firstWithKey_newest k sorted e Hsorted Hf p Hp Hkp). lia.
  - intros k Hdel e He Hk.
    destruct (Hnewest e He) as (Hin & Hd & Hmax).
    destruct (Hdel e Hin Hk Hd) as (d & Hdin & Hkd & _ & Hlt).
    specialize (Hmax d Hdin ltac:(congruence)). lia.
Qed.

(** ** Compaction: execution *)

Lemma newestWins_perm allEntries out out' :
  out ≡ₚ out' → newestWins allEntries out → newestWins allEntries out'.
Proof.
  intros Hp (Hnd & Hin & Hput & Hdel). unfold newestWins.
  split; [rewrite <- Hp; exact Hnd|].
  split; [intros e He; apply Hin; rewrite Hp; exact He|].
  split.
  - intros k Hk Hs. destruct (Hput k Hk Hs) as (e & He & Hke).
    exists e. split; [rewrite <- Hp; exact He|exact Hke].
  - intros k Hs e He. apply (Hdel k Hs). rewrite Hp. exact He.
Qed.

Lemma mbind_unfold {A B} (m : M A) (k : A → M B) (w : World) :
  (m ≫= k) w = match m w with
               | Done a w' => k a w'
               | Panic msg => Panic msg
               end.
Proof. reflexivity. Qed.

Lemma GetAllEntries_spec (w : World) (t : SSTable) content :
  disk w !! filePath t = Some content →
  SSTable_GetAllEntries t w = Done (readAll "failed to read entry" content) w.
Proof.
  intros H. unfold SSTable_GetAllEntries. rewrite mbind_unfold.
  unfold get_disk. rewrite H. reflexivity.
Qed.

Lemma collectEntries_spec (w : World) inputs ess acc :
  Forall2 (tableStores w) inputs ess →
  CompactionManager.collectEntries inputs acc w = Done (Ok (acc ++ concat ess)) w.
Proof.
  intros H. revert acc. induction H as [|t es inputs ess [Hfile Hwf] _ IH]; intros acc.
  - cbn. rewrite app_nil_r. reflexivity.
  - cbn [CompactionManager.collectEntries]. rewrite mbind_unfold.
    rewrite (GetAllEntries_spec _ _ _ Hfile), readAll_writeEntries by exact Hwf.
    rewrite IH. cbn [concat]. rewrite app_assoc. reflexivity.
Qed.

Lemma AddEntry_spec (w : World) (b : SSTableBuilder.t) e :
  bloom_wf (SSTableBuilder.bloomFilter b) →
  ∃ b', SSTableBuilder.AddEntry b e w = Done b' w ∧
        bloom_wf (SSTableBuilder.bloomFilter b') ∧
        SSTableBuilder.entries b' = SSTableBuilder.entries b ++ [e] ∧
        SSTableBuilder.level b' = SSTableBuilder.level b ∧ SSTableBuilder.blockSize b' = SSTableBuilder.blockSize b.
Proof.
  intros Hwf. unfold SSTableBuilder.AddEntry.
  destruct (Add_spec (SSTableBuilder.bloomFilter b) (key e) Hwf) as (bf' & -> & Hext & _).
  eexists. split; [reflexivity|]. cbn.
  split; [eapply bloom_extends_wf; eauto|]. auto.
Qed.

Lemma foldM_AddEntry (w : World) es (b : SSTableBuilder.t) :
  bloom_wf (SSTableBuilder.bloomFilter b) →
  ∃ b', foldM SSTableBuilder.AddEntry es b w = Done b' w ∧
        SSTableBuilder.entries b' = SSTableBuilder.entries b ++ es ∧
        SSTableBuilder.level b' = SSTableBuilder.level b ∧ SSTableBuilder.blockSize b' = SSTableBuilder.blockSize b.
Proof.
  revert b. induction es as [|e es IH]; intros b Hwf.
  - exists b. cbn. rewrite app_nil_r. auto.
  - cbn [foldM]. rewrite mbind_unfold.
    destruct (AddEntry_spec w b e Hwf) as (b1 & -> & Hwf1 & He1 & Hl1 & Hb1).
    destruct (IH b1 Hwf1) as (b' & -> & He & Hl & Hb).
    exists b'. split; [reflexivity|].
    rewrite He, He1, <- app_assoc. split; [reflexivity|]. split; congruence.
Qed.

Lemma Build_spec (w : World) (b : SSTableBuilder.t) dir filename :
  SSTableBuilder.entries b ≠ [] →
  ∃ sst w',
    SSTableBuilder.Build b dir filename w = Done (Ok sst) w' ∧
    filePath sst = filepath_Join dir filename ∧
    Level (metadata sst) = SSTableBuilder.level b ∧
    disk w' = <[filepath_Join dir filename :=
                  writeEntries (sort_Slice (fun x y => Compare x y <? 0) (SSTableBuilder.entries b))]>
                (disk w).
Proof.
  intros Hne. unfold SSTableBuilder.Build. destruct (SSTableBuilder.entries b) as [|e es] eqn:E; [contradiction|].
  eexists _, _. split; [reflexivity|]. cbn. auto.
Qed.

Lemma elem_of_len_pos {A} (l : list A) : l ≠ [] → 1 <= len l.
Proof. destruct l; [contradiction|]. unfold len. cbn [length]. lia. Qed.

Lemma submseteq_len {A} (l1 l2 : list A) : l1 ⊆+ l2 → len l1 <= len l2.
Proof. intros H. apply submseteq_length in H. unfold len. lia. Qed.


Lemma tableStores_wf (w : World) inputs ess :
  Forall2 (tableStores w) inputs ess → Forall wf_entry (concat ess).
Proof.
  induction 1 as [|t es inputs ess [_ Hwf] _ IH]; [constructor|].
  cbn [concat]. apply Forall_app. auto.
Qed.

Lemma compactedEntries_len allEntries :
  len (compactedEntries allEntries) <= len allEntries.
Proof.
  apply submseteq_len. apply NoDup_submseteq.
  - destruct (compactedEntries_spec allEntries) as (Hnd & _).
    eapply NoDup_fmap_1, Hnd.
  - intros e He. apply compactedEntries_spec in He. tauto.
Qed.

(** C6.  [ExecuteCompaction] on input tables that hold any
    entries at all returns at most one table, at the output level, and
    reading it gives: no key twice; only PUT entries of the input, each the
    newest version of its key; an entry for every key whose newest version
    is a PUT; none for a key whose newest version is a DELETE.  (The
    hypothesis on the Bloom filter says that the filter made for the output
    has a bit to set; [NewBloomFilter] computes its size in floating
    point.) *)
Theorem compaction_output_newest_wins (cm : CompactionManager.t) (task : CompactionTask)
    (outputDir : string) (w : World) (inputs : list SSTable)
    (ess : list (list Entry)) :
  (0 < Slice.slen (InputSSTables task))%nat →
  Slice.elems (InputSSTables task) w = Done inputs w →
  Forall2 (tableStores w) inputs ess →
  bloomSized (len (concat ess)) →
  ∃ out w' outEntries,
    CompactionManager.ExecuteCompaction cm task outputDir w = Done (Ok out) w' ∧
    CompactionManager.collectEntries out [] w' = Done (Ok outEntries) w' ∧
    (length out <= 1)%nat ∧
    Forall (fun t => Level (metadata t) = OutputLevel task) out ∧
    newestWins (concat ess) outEntries.
Proof.
  intros Hlen Helems Hstores Hbloom.
  unfold CompactionManager.ExecuteCompaction.
  destruct (Nat.eqb_spec (Slice.slen (InputSSTables task)) 0) as [E|_]; [lia|].
  rewrite mbind_unfold, Helems, mbind_unfold.
  rewrite (collectEntries_spec w inputs ess [] Hstores). cbn [app].
  fold (compactedEntries (concat ess)).
  pose proof (compactedEntries_spec (concat ess)) as Hspec.
  fold (newestWins (concat ess) (compactedEntries (concat ess))) in Hspec.
  destruct (compactedEntries (concat ess)) as [|c cs] eqn:Ec.
  - exists [], w, []. split; [reflexivity|]. split; [reflexivity|].
    split; [cbn; lia|]. split; [constructor|exact Hspec].
  - assert (Hne : compactedEntries (concat ess) ≠ []) by (rewrite Ec; discriminate).
    cbv iota. rewrite <- Ec in *. clear Ec c cs.
    rewrite mbind_unfold.
    destruct (foldM_AddEntry w (compactedEntries (concat ess))
                (SSTableBuilder.NewSSTableBuilder (OutputLevel task)
                   (len (compactedEntries (concat ess)) mod 2 ^ 32)))
      as (b & -> & Hb & Hlvl & _).
    { cbn. apply NewBloomFilter_wf, Hbloom.
      pose proof (compactedEntries_len (concat ess)).
      pose proof (elem_of_len_pos _ Hne). lia. }
    cbn in Hb, Hlvl.
    rewrite mbind_unfold. unfold time_Now at 1. rewrite mbind_unfold.
    match goal with |- context [SSTableBuilder.Build b ?d ?f ?w0] =>
      destruct (Build_spec w0 b d f) as (sst & w' & -> & Hpath & Hl & Hdisk) end.
    { rewrite Hb. exact Hne. }
    rewrite Hb in Hdisk.
    set (sortedOut := sort_Slice (fun x y => Compare x y <? 0)
                        (compactedEntries (concat ess))) in *.
    assert (Hperm : compactedEntries (concat ess) ≡ₚ sortedOut)
      by (symmetry; apply sort_Slice_perm).
    exists [sst], w', sortedOut. split; [reflexivity|]. split.
    + rewrite (collectEntries_spec w' [sst] [sortedOut] []).
      * cbn. rewrite app_nil_r. reflexivity.
      * constructor; [|constructor]. split.
        -- rewrite Hdisk, Hpath. apply lookup_insert_eq.
        -- rewrite <- Hperm. rewrite Forall_forall. intros e He.
           apply compactedEntries_spec in He as (Hin & _).
           pose proof (tableStores_wf w inputs ess Hstores) as Hwf.
           rewrite Forall_forall in Hwf. auto.
    + split; [cbn; lia|]. split.
      * constructor; [|constructor]. congruence.
      * eapply newestWins_perm; eauto.
Qed.

Lemma bloomSized_small n :
  n <= 6 → bloomSized n.
Proof.
  intros Hn m Hm.
  assert (m = 1 ∨ m = 2 ∨ m = 3 ∨ m = 4 ∨ m = 5 ∨ m = 6) as Hcases by lia.
  destruct Hcases as [->|[->|[->|[->|[->| ->]]]]]; vm_compute; reflexivity.
Defined.

Lemma compaction_output_newest_wins_witness :
  (0 < Slice.slen (InputSSTables (exampleTask mixedFiles)))%nat ∧
  Slice.elems (InputSSTables (exampleTask mixedFiles)) (exampleWorld mixedFiles) =
    Done [exampleTable "in/0" 0; exampleTable "in/1" 1] (exampleWorld mixedFiles) ∧
  Forall2 (tableStores (exampleWorld mixedFiles))
    [exampleTable "in/0" 0; exampleTable "in/1" 1] mixedFiles ∧
  bloomSized (len (concat mixedFiles)) ∧
  ∃ out w' outEntries,
    CompactionManager.ExecuteCompaction
      (CompactionManager.NewCompactionManager LeveledCompaction)
      (exampleTask mixedFiles) "out" (exampleWorld mixedFiles) = Done (Ok out) w' ∧
    CompactionManager.collectEntries out [] w' = Done (Ok outEntries) w' ∧
    (length out <= 1)%nat ∧
    Forall (fun t => Level (metadata t) = OutputLevel (exampleTask mixedFiles)) out ∧
    newestWins (concat mixedFiles) outEntries.
Proof.
  assert (H1 : (0 < Slice.slen (InputSSTables (exampleTask mixedFiles)))%nat)
    by (cbn; lia).
  assert (H2 : Slice.elems (InputSSTables (exampleTask mixedFiles))
                 (exampleWorld mixedFiles) =
               Done [exampleTable "in/0" 0; exampleTable "in/1" 1]
                 (exampleWorld mixedFiles)) by reflexivity.
  assert (H3 : Forall2 (tableStores (exampleWorld mixedFiles))
                 [exampleTable "in/0" 0; exampleTable "in/1" 1] mixedFiles).
  { repeat (constructor; [split; [reflexivity|solve_wf]|]). constructor. }
  assert (H4 : bloomSized (len (concat mixedFiles)))
    by (apply bloomSized_small; vm_compute; discriminate).
  repeat (split; [assumption|]).
  exact (compaction_output_newest_wins _ _ "out" _ _ _ H1 H2 H3 H4).
Defined.

(** C10.  When every PUT among the entries of the input tables
    is older than a DELETE of its key, [ExecuteCompaction] succeeds with an
    empty list of tables and leaves the world, the disk included, as it
    was: no output file is built. *)
Theorem compaction_all_tombstones_no_output (cm : CompactionManager.t) (task : CompactionTask)
    (outputDir : string) (w : World) (inputs : list SSTable)
    (ess : list (list Entry)) :
  (0 < Slice.slen (InputSSTables task))%nat →
  Slice.elems (InputSSTables task) w = Done inputs w →
  Forall2 (tableStores w) inputs ess →
  (∀ p, p ∈ concat ess → IsDeleted p = false →
     ∃ d, d ∈ concat ess ∧ key d = key p ∧ IsDeleted d = true ∧
          timestamp p < timestamp d) →
  CompactionManager.ExecuteCompaction cm task outputDir w = Done (Ok []) w.
Proof.
  intros Hlen Helems Hstores Hshadow.
  unfold CompactionManager.ExecuteCompaction.
  destruct (Nat.eqb_spec (Slice.slen (InputSSTables task)) 0) as [E|_]; [lia|].
  rewrite mbind_unfold, Helems, mbind_unfold.
  rewrite (collectEntries_spec w inputs ess [] Hstores). cbn [app].
  fold (compactedEntries (concat ess)).
  destruct (compactedEntries (concat ess)) as [|c cs] eqn:Ec; [reflexivity|].
  exfalso.
  destruct (compactedEntries_spec (concat ess)) as (_ & _ & _ & Hdel).
  apply (Hdel (key c)) with (e := c).
  - intros p Hp Hk Hd. destruct (Hshadow p Hp Hd) as (d & ? & ? & ? & ?).
    exists d. repeat split; auto; congruence.
  - rewrite Ec. left.
  - reflexivity.
Qed.

Lemma compaction_all_tombstones_no_output_witness :
  (0 < Slice.slen (InputSSTables (exampleTask deletedFiles)))%nat ∧
  Slice.elems (InputSSTables (exampleTask deletedFiles)) (exampleWorld deletedFiles) =
    Done [exampleTable "in/0" 0; exampleTable "in/1" 1] (exampleWorld deletedFiles) ∧
  Forall2 (tableStores (exampleWorld deletedFiles))
    [exampleTable "in/0" 0; exampleTable "in/1" 1] deletedFiles ∧
  (∀ p, p ∈ concat deletedFiles → IsDeleted p = false →
     ∃ d, d ∈ concat deletedFiles ∧ key d = key p ∧ IsDeleted d = true ∧
          timestamp p < timestamp d) ∧
  CompactionManager.ExecuteCompaction
    (CompactionManager.NewCompactionManager LeveledCompaction)
    (exampleTask deletedFiles) "out" (exampleWorld deletedFiles) =
  Done (Ok []) (exampleWorld deletedFiles).
Proof.
  assert (H1 : (0 < Slice.slen (InputSSTables (exampleTask deletedFiles)))%nat)
    by (cbn; lia).
  assert (H2 : Slice.elems (InputSSTables (exampleTask deletedFiles))
                 (exampleWorld deletedFiles) =
               Done [exampleTable "in/0" 0; exampleTable "in/1" 1]
                 (exampleWorld deletedFiles)) by reflexivity.
  assert (H3 : Forall2 (tableStores (exampleWorld deletedFiles))
                 [exampleTable "in/0" 0; exampleTable "in/1" 1] deletedFiles).
  { repeat (constructor; [split; [reflexivity|solve_wf]|]). constructor. }
  assert (H4 : ∀ p, p ∈ concat deletedFiles → IsDeleted p = false →
     ∃ d, d ∈ concat deletedFiles ∧ key d = key p ∧ IsDeleted d = true ∧
          timestamp p < timestamp d).
  { intros p Hp Hd. cbn in Hp.
    repeat (apply elem_of_cons in Hp as [->|Hp]); try discriminate.
    - exists (dele 3 "a"). split; [cbn; set_solver|]. cbn. repeat split; lia.
    - exists (dele 4 "b"). split; [cbn; set_solver|]. cbn. repeat split; lia.
    - inversion Hp. }
  repeat (split; [assumption|]).
  exact (compaction_all_tombstones_no_output _ _ "out" _ _ _ H1 H2 H3 H4).
Defined.

(** ** compareKeys and the overlap test *)

Lemma compareKeys_same_length (a b : list byte) :
  length a = length b → compareKeys a b = bytes_Compare a b.
Proof.
  intros Hlen. unfold compareKeys, len. rewrite Hlen, Z.ltb_irrefl.
  revert b Hlen. induction a as [|x a IH]; intros [|y b] Hlen;
    try discriminate; [reflexivity|].
  cbn [compareKeys_bytes bytes_Compare].
  destruct (byte_val x <? byte_val y); [reflexivity|].
  destruct (byte_val y <? byte_val x); [reflexivity|].
  apply IH. injection Hlen. auto.
Qed.

(** On keys of one length the overlap test of the code is the
    lexicographic one; the tests of the repository use one-byte keys. *)
Lemma keyRangesOverlap_same_length (a1 b1 a2 b2 : list byte) :
  length b1 = length a2 → length b2 = length a1 →
  CompactionManager.keyRangesOverlap a1 b1 a2 b2 = lexRangesOverlap a1 b1 a2 b2.
Proof.
  intros H1 H2. unfold CompactionManager.keyRangesOverlap, lexRangesOverlap.
  rewrite !compareKeys_same_length by assumption. reflexivity.
Qed.

(** C7.  The ranges ["b", "f"] and ["aa", "d"] share the keys "b", "c" and
    "d", and overlap under lexicographic comparison; the test of the code,
    which compares lengths first, says they do not.  (These are the range
    of the level-0 tables and of the level-1 table at the second compaction
    of [deleteRun].) *)
Theorem keyRangesOverlap_not_lexicographic :
  CompactionManager.keyRangesOverlap
    (bytes_of_string "b") (bytes_of_string "f")
    (bytes_of_string "aa") (bytes_of_string "d") = false ∧
  lexRangesOverlap
    (bytes_of_string "b") (bytes_of_string "f")
    (bytes_of_string "aa") (bytes_of_string "d") = true.
Proof. split; vm_compute; reflexivity. Qed.

(** ** Runs of the service *)

(** What is left of level 0 after the first compaction of [staleRun]: the
    loop of [updateSSTablesAfterCompaction] ranges over the very array it
    deletes from, skips the second table, and the table with the old value
    stays registered in front of level 1. *)
Lemma compaction_leaves_merged_table :
  verdict (session "data" 1 staleRun emptyWorld) =
  Some (true, Some (RGet (Ok (bytes_of_string "old")))).
Proof. vm_compute. reflexivity. Qed.

(** C1.  In [overwriteRun] every write is acknowledged, the last
    write of "ab" is [put "ab" "new"], and the [get "ab"] that ends the run
    answers "old". *)
Theorem get_after_put_returns_older_value :
  verdict (session "data" 1 overwriteRun emptyWorld) =
  Some (true, Some (RGet (Ok (bytes_of_string "old")))).
Proof. vm_compute. reflexivity. Qed.

(** C2.  In [deleteRun] every write is acknowledged, the last
    write of "b" is [delete "b"], and the [get "b"] that ends the run
    answers "v". *)
Theorem get_after_delete_returns_value :
  verdict (session "data" 1 deleteRun emptyWorld) =
  Some (true, Some (RGet (Ok (bytes_of_string "v")))).
Proof. vm_compute. reflexivity. Qed.

(** C5.  Four acknowledged writes leave [wal_0.log] with the
    records of "a", "b", "c" and [wal_1.log] with the record of "d".  The
    next process replays [wal_0.log] only: [Recovery] succeeds and "d" is
    not found. *)
Theorem recovery_replays_first_wal_only :
  match restart "data" 2 beforeRestart afterRestart emptyWorld with
  | Done (Ok rs1, Ok rs2) w =>
      writesAcked rs1 = true ∧
      fileKeys w "data/wal/wal_0.log" =
        Some (bytes_of_string <$> ["a"; "b"; "c"]) ∧
      fileKeys w "data/wal/wal_1.log" = Some [bytes_of_string "d"] ∧
      rs2 = [RErr None; RGet (Err ErrKeyNotFound)]
  | _ => False
  end.
Proof. vm_compute. repeat split; reflexivity. Qed.


(** * Further properties *)

(** ** MemTable *)

(** X1.  A [Put] or [Delete] that succeeds stores its entry under the key:
    [Get] of that key returns the entry just written (for [Delete], the
    tombstone, not [ErrKeyNotFound]), and [Get] of every other key answers
    as before. *)
Theorem memtable_get_after_write (mt mt' : MemTable.t) (now : Z) (op : MemOp) :
  applyOp mt now op = Ok mt' →
  MemTable.Get mt' (opKey op) = Ok (opEntry now op) ∧
  ∀ k, k ≠ opKey op → MemTable.Get mt' k = MemTable.Get mt k.
Proof.
  rewrite applyOp_unfold. intros H.
  destruct (MemTable.readOnly mt); [discriminate|].
  destruct (negb (MemTable.exists_ mt (opKey op)) &&
            (MemTable.maxSize mt <=? MemTable.size mt)); [discriminate|].
  inversion H; subst; clear H. unfold MemTable.Get. cbn [MemTable.entries].
  split.
  - rewrite lookup_insert_eq. reflexivity.
  - intros k Hk. rewrite lookup_insert_ne by congruence. reflexivity.
Qed.

Lemma memtable_get_after_write_witness :
  applyOp (MemTable.NewMemTable 10) 7
    (MemPut (bytes_of_string "test_key") (bytes_of_string "test_value")) =
  Ok (applyOps (MemTable.NewMemTable 10)
        [(7, MemPut (bytes_of_string "test_key") (bytes_of_string "test_value"))]) ∧
  MemTable.Get
    (applyOps (MemTable.NewMemTable 10)
       [(7, MemPut (bytes_of_string "test_key") (bytes_of_string "test_value"))])
    (bytes_of_string "test_key") =
  Ok (NewPutEntryAt 7 (bytes_of_string "test_key") (bytes_of_string "test_value")).
Proof.
  assert (H : applyOp (MemTable.NewMemTable 10) 7
                (MemPut (bytes_of_string "test_key") (bytes_of_string "test_value")) =
              Ok (applyOps (MemTable.NewMemTable 10)
                    [(7, MemPut (bytes_of_string "test_key") (bytes_of_string "test_value"))]))
    by reflexivity.
  split; [exact H|].
  exact (proj1 (memtable_get_after_write _ _ _ _ H)).
Defined.

(** X2.  A sealed memtable never changes: after [SetReadOnly] every [Put]
    and [Delete] fails with the read-only error, whatever the key and
    however many calls are made, and [Get] answers as it did before the
    table was sealed. *)
Theorem memtable_sealed_never_changes (mt : MemTable.t) (ops : list (Z * MemOp)) :
  (∀ now op, applyOp (MemTable.SetReadOnly mt) now op = Err ErrReadOnly) ∧
  applyOps (MemTable.SetReadOnly mt) ops = MemTable.SetReadOnly mt ∧
  MemTable.IsReadOnly (applyOps (MemTable.SetReadOnly mt) ops) = true ∧
  (∀ k, MemTable.Get (applyOps (MemTable.SetReadOnly mt) ops) k = MemTable.Get mt k).
Proof.
  assert (Hop : ∀ now op, applyOp (MemTable.SetReadOnly mt) now op = Err ErrReadOnly).
  { intros now op. rewrite applyOp_unfold. reflexivity. }
  assert (Hops : applyOps (MemTable.SetReadOnly mt) ops = MemTable.SetReadOnly mt).
  { induction ops as [|[now op] ops IH]; [reflexivity|].
    cbn [applyOps]. rewrite Hop. exact IH. }
  split; [exact Hop|]. split; [exact Hops|]. rewrite Hops. split; reflexivity.
Qed.

Lemma opEntry_key now op : key (opEntry now op) = opKey op.
Proof. destruct op; reflexivity. Qed.

Lemma applyOp_keyed mt now op mt' :
  keyedInv mt → applyOp mt now op = Ok mt' → keyedInv mt'.
Proof.
  intros [Hsz Hk]. rewrite applyOp_unfold. intros H.
  destruct (MemTable.readOnly mt); [discriminate|].
  destruct (MemTable.exists_ mt (opKey op)) eqn:Ex; cbn [negb andb] in H.
  - inversion H; subst; clear H. split; cbn.
    + apply exists_true in Ex as [e He].
      rewrite Hsz. f_equal.
      rewrite <- (insert_delete_eq (MemTable.entries mt) (opKey op) (opEntry now op)).
      rewrite map_size_insert_None by apply lookup_delete_eq.
      rewrite <- (insert_delete_id (MemTable.entries mt) (opKey op) e) at 1 by exact He.
      rewrite map_size_insert_None by apply lookup_delete_eq. reflexivity.
    + apply map_Forall_insert_2; [apply opEntry_key|exact Hk].
  - destruct (MemTable.maxSize mt <=? MemTable.size mt); [discriminate|].
    inversion H; subst; clear H. split; cbn.
    + apply exists_false in Ex. rewrite map_size_insert_None by exact Ex. lia.
    + apply map_Forall_insert_2; [apply opEntry_key|exact Hk].
Qed.

Lemma applyOps_keyed mt ops : keyedInv mt → keyedInv (applyOps mt ops).
Proof.
  revert mt. induction ops as [|[now op] ops IH]; intros mt Hinv; [exact Hinv|].
  cbn [applyOps]. destruct (applyOp mt now op) as [mt'|e] eqn:E.
  - apply IH. eapply applyOp_keyed; eauto.
  - apply IH, Hinv.
Qed.

Lemma keyedInv_entries mt :
  keyedInv mt →
  MemTable.Size mt = len (MemTable.GetAllEntries mt) ∧
  NoDup (key <$> MemTable.GetAllEntries mt) ∧
  ∀ e, e ∈ MemTable.GetAllEntries mt ↔ MemTable.Get mt (key e) = Ok e.
Proof.
  intros [Hsz Hk]. unfold MemTable.Size, MemTable.GetAllEntries, len.
  assert (Hfst : key <$> (map_to_list (MemTable.entries mt)).*2 =
                 (map_to_list (MemTable.entries mt)).*1).
  { rewrite <- list_fmap_compose. apply Forall_fmap_ext_1, Forall_forall.
    intros [k e] Hin. cbn. apply elem_of_map_to_list in Hin.
    exact (Hk k e Hin). }
  split; [|split].
  - rewrite length_fmap, length_map_to_list. exact Hsz.
  - rewrite Hfst. apply NoDup_fst_map_to_list.
  - intros e. unfold MemTable.Get. rewrite list_elem_of_fmap. split.
    + intros ([k e'] & -> & Hin). cbn. apply elem_of_map_to_list in Hin.
      rewrite (Hk k e' Hin), Hin. reflexivity.
    + destruct (MemTable.entries mt !! key e) as [e'|] eqn:E; [|discriminate].
      intros H. inversion H; subst. exists (key e, e). split; [reflexivity|].
      apply elem_of_map_to_list. exact E.
Qed.

(** X3.  In a memtable made by [NewMemTable] and written by any sequence of
    [Put] and [Delete] calls, [Size] is the number of entries that
    [GetAllEntries] returns, no two of these have the same key, and they
    are exactly the entries that [Get] returns for their keys. *)
Theorem memtable_size_counts_entries (maxSize : Z) (ops : list (Z * MemOp)) :
  MemTable.Size (applyOps (MemTable.NewMemTable maxSize) ops) =
    len (MemTable.GetAllEntries (applyOps (MemTable.NewMemTable maxSize) ops)) ∧
  NoDup (key <$> MemTable.GetAllEntries (applyOps (MemTable.NewMemTable maxSize) ops)) ∧
  ∀ e, e ∈ MemTable.GetAllEntries (applyOps (MemTable.NewMemTable maxSize) ops) ↔
       MemTable.Get (applyOps (MemTable.NewMemTable maxSize) ops) (key e) = Ok e.
Proof.
  apply keyedInv_entries, applyOps_keyed.
  split; [reflexivity|]. cbn. apply map_Forall_empty.
Qed.

(** ** BloomFilter *)

Lemma Contains_loop_clear n h i bf :
  bloom_wf bf → Forall (fun b => b = false) (BloomFilter.bitArray bf) →
  BloomFilter.Contains_loop (S n) h i bf = Some false.
Proof.
  intros Hwf Hall. cbn [BloomFilter.Contains_loop].
  destruct (bloom_index_wf bf h i Hwf) as (ix & -> & Hlt).
  destruct (lookup_lt_is_Some_2 _ _ Hlt) as [b Hb]. rewrite Hb.
  rewrite Forall_lookup in Hall. rewrite (Hall ix b Hb). reflexivity.
Qed.

Lemma Contains_clear bf k :
  bloom_wf bf → 1 <= BloomFilter.hashFuncs bf →
  Forall (fun b => b = false) (BloomFilter.bitArray bf) →
  BloomFilter.Contains bf k = Some false.
Proof.
  intros Hwf Hh Hall. unfold BloomFilter.Contains.
  destruct (Z.to_nat (BloomFilter.hashFuncs bf)) as [|n] eqn:E; [lia|].
  apply Contains_loop_clear; assumption.
Qed.

Lemma NewBloomFilter_hashFuncs capacity logRate :
  1 <= BloomFilter.hashFuncs (BloomFilter.NewBloomFilter capacity logRate).
Proof.
  unfold BloomFilter.NewBloomFilter. cbn [BloomFilter.hashFuncs].
  match goal with |- 1 <= (if ?x <? 1 then _ else _) =>
    destruct (Z.ltb_spec x 1); lia end.
Qed.

(** X4.  A filter that [NewBloomFilter] made with at least one bit holds
    nothing: [Contains] returns false for every key. *)
Theorem bloom_new_contains_nothing (capacity : Z) (logRate : float) (k : list byte) :
  0 < BloomFilter.size (BloomFilter.NewBloomFilter capacity logRate) →
  BloomFilter.Contains (BloomFilter.NewBloomFilter capacity logRate) k = Some false.
Proof.
  intros Hsize. apply Contains_clear.
  - apply NewBloomFilter_wf, Hsize.
  - apply NewBloomFilter_hashFuncs.
  - unfold BloomFilter.NewBloomFilter. cbn [BloomFilter.bitArray].
    apply Forall_replicate. reflexivity.
Qed.

Lemma bloom_new_contains_nothing_witness :
  0 < BloomFilter.size (BloomFilter.NewBloomFilter 1000 LOG_0_01) ∧
  BloomFilter.Contains (BloomFilter.NewBloomFilter 1000 LOG_0_01)
    (bytes_of_string "test_key_1") = Some false.
Proof.
  assert (H : 0 < BloomFilter.size (BloomFilter.NewBloomFilter 1000 LOG_0_01))
    by (vm_compute; reflexivity).
  split; [exact H|].
  exact (bloom_new_contains_nothing 1000 LOG_0_01 _ H).
Defined.

(** X5.  [Reset] empties a filter: whatever keys were added to a filter
    with at least one bit, after [Reset] [Contains] returns false for every
    key, the filter keeps its size and its number of hash functions, and a
    key added afterwards is found again. *)
Theorem bloom_reset_clears (capacity : Z) (logRate : float)
    (ks : list (list byte)) (bf : BloomFilter.t) (k : list byte) :
  0 < BloomFilter.size (BloomFilter.NewBloomFilter capacity logRate) →
  BloomFilter.AddAll (BloomFilter.NewBloomFilter capacity logRate) ks = Some bf →
  BloomFilter.Contains (BloomFilter_Reset bf) k = Some false ∧
  BloomFilter.size (BloomFilter_Reset bf) = BloomFilter.size bf ∧
  BloomFilter.hashFuncs (BloomFilter_Reset bf) = BloomFilter.hashFuncs bf ∧
  ∃ bf', BloomFilter.Add (BloomFilter_Reset bf) k = Some bf' ∧
         BloomFilter.Contains bf' k = Some true.
Proof.
  intros Hsize HA.
  destruct (AddAll_spec _ ks (NewBloomFilter_wf _ _ Hsize)) as (bf0 & HA0 & Hext & _).
  rewrite HA in HA0. inversion HA0; subst bf0; clear HA0.
  pose proof (bloom_extends_wf _ _ Hext (NewBloomFilter_wf _ _ Hsize)) as [Hpos Hlen].
  assert (Hwf : bloom_wf (BloomFilter_Reset bf)).
  { split; [exact Hpos|]. cbn. rewrite length_fmap. exact Hlen. }
  split; [|split; [reflexivity|split; [reflexivity|]]].
  - apply Contains_clear; [exact Hwf| |].
    + cbn. destruct Hext as (_ & -> & _). apply NewBloomFilter_hashFuncs.
    + cbn. apply Forall_fmap, Forall_true. reflexivity.
  - destruct (Add_spec _ k Hwf) as (bf' & HAdd & _ & Hholds).
    exists bf'. split; [exact HAdd|]. apply Contains_holds, Hholds.
Qed.

Lemma bloom_reset_clears_witness :
  0 < BloomFilter.size (BloomFilter.NewBloomFilter 3 LOG_0_01) ∧
  ∃ bf,
    BloomFilter.AddAll (BloomFilter.NewBloomFilter 3 LOG_0_01)
      [bytes_of_string "a"; bytes_of_string "b"] = Some bf ∧
    BloomFilter.Contains (BloomFilter_Reset bf) (bytes_of_string "a") = Some false.
Proof.
  assert (H : 0 < BloomFilter.size (BloomFilter.NewBloomFilter 3 LOG_0_01))
    by (vm_compute; reflexivity).
  split; [exact H|].
  destruct (BloomFilter.AddAll (BloomFilter.NewBloomFilter 3 LOG_0_01)
              [bytes_of_string "a"; bytes_of_string "b"]) as [bf|] eqn:E.
  - exists bf. split; [reflexivity|].
    exact (proj1 (bloom_reset_clears 3 LOG_0_01 _ bf (bytes_of_string "a") H E)).
  - vm_compute in E. discriminate E.
Defined.

(** ** BlockIndex *)

Lemma last_take_S {A} (l : list A) (n : nat) x :
  l !! n = Some x → last (take (S n) l) = Some x.
Proof.
  intros H. rewrite last_lookup.
  assert (n < length l)%nat by (eapply lookup_lt_Some; eauto).
  rewrite length_take. replace (Init.Nat.pred (S n `min` length l)) with n by lia.
  rewrite lookup_take_lt by lia. exact H.
Qed.

Lemma FindOffset_loop_spec fuel (l1 l2 : list BlockIndex.IndexEntry) t left right best b0 :
  Forall (fun ie => bytes_Compare (BlockIndex.Key ie) t <= 0) l1 →
  Forall (fun ie => 0 < bytes_Compare (BlockIndex.Key ie) t) l2 →
  0 <= left <= len l1 → len l1 - 1 <= right → right < len (l1 ++ l2) →
  right - left + 1 < Z.of_nat fuel →
  best = default b0 (BlockIndex.Offset <$> last (take (Z.to_nat left) l1)) →
  BlockIndex.FindOffset_loop fuel (l1 ++ l2) t left right best =
  Some (default b0 (BlockIndex.Offset <$> last l1)).
Proof.
  intros H1 H2. unfold len. revert left right best.
  induction fuel as [|fuel IH]; intros left right best Hl Hr Hn Hf Hb; [lia|].
  cbn [BlockIndex.FindOffset_loop].
  destruct (Z.leb_spec left right) as [Hle|Hgt].
  - assert (Hmid : left <= left + (right - left) / 2 <= right).
    { assert (0 <= (right - left) / 2 <= right - left); [|lia].
      split; [apply Z.div_pos; lia|apply Z.div_le_upper_bound; lia]. }
    set (mid := left + (right - left) / 2) in *.
    destruct (decide (mid < Z.of_nat (length l1))) as [Hin|Hout].
    + destruct (lookup_lt_is_Some_2 l1 (Z.to_nat mid) ltac:(lia)) as [ie Hie].
      rewrite (lookup_app_l_Some _ _ _ _ Hie).
      rewrite Forall_lookup in H1. pose proof (H1 _ _ Hie) as Hc.
      destruct (Z.leb_spec (bytes_Compare (BlockIndex.Key ie) t) 0); [|lia].
      apply IH; try lia.
      replace (Z.to_nat (mid + 1)) with (S (Z.to_nat mid)) by lia.
      rewrite (last_take_S _ _ _ Hie). reflexivity.
    + pose proof (length_app l1 l2) as Happ.
      destruct (lookup_lt_is_Some_2 l2 (Z.to_nat mid - length l1)%nat ltac:(lia)) as [ie Hie].
      rewrite lookup_app_r by lia. rewrite Hie.
      rewrite Forall_lookup in H2. pose proof (H2 _ _ Hie) as Hc.
      destruct (Z.leb_spec (bytes_Compare (BlockIndex.Key ie) t) 0); [lia|].
      apply IH; try lia.
  - rewrite Hb. replace (Z.to_nat left) with (length l1) by lia.
    rewrite firstn_all. reflexivity.
Qed.

(** X6.  [FindOffset] is a binary search: when the index entries up to some
    point have keys at most the target and the entries after it have larger
    keys (as in an index whose keys ascend), it returns the offset of the
    last entry whose key is at most the target, and 0 when there is none. *)
Theorem blockindex_findoffset_last_le (blockSize : Z)
    (l1 l2 : list BlockIndex.IndexEntry) (targetKey : list byte) :
  Forall (fun ie => bytes_Compare (BlockIndex.Key ie) targetKey <= 0) l1 →
  Forall (fun ie => 0 < bytes_Compare (BlockIndex.Key ie) targetKey) l2 →
  BlockIndex.FindOffset
    {| BlockIndex.entries := l1 ++ l2; BlockIndex.blockSize := blockSize |} targetKey =
  default 0 (BlockIndex.Offset <$> last l1).
Proof.
  intros H1 H2. unfold BlockIndex.FindOffset. cbn [BlockIndex.entries].
  destruct (l1 ++ l2) as [|x l] eqn:E.
  - apply app_eq_nil in E as [-> _]. reflexivity.
  - rewrite <- E.
    rewrite (FindOffset_loop_spec _ l1 l2 targetKey 0 _ 0 0 H1 H2); [reflexivity|..].
    + unfold len. lia.
    + unfold len. rewrite length_app. lia.
    + unfold len. lia.
    + unfold len. lia.
    + reflexivity.
Qed.

Lemma blockindex_findoffset_last_le_witness :
  Forall (fun ie => bytes_Compare (BlockIndex.Key ie) (bytes_of_string "key025") <= 0)
    (take 2 (BlockIndex.entries exampleIndex)) ∧
  Forall (fun ie => 0 < bytes_Compare (BlockIndex.Key ie) (bytes_of_string "key025"))
    (drop 2 (BlockIndex.entries exampleIndex)) ∧
  BlockIndex.FindOffset exampleIndex (bytes_of_string "key025") = 100.
Proof.
  assert (H1 : Forall (fun ie => bytes_Compare (BlockIndex.Key ie) (bytes_of_string "key025")
      <= 0)
                 (take 2 (BlockIndex.entries exampleIndex))).
  { repeat constructor; vm_compute; discriminate. }
  assert (H2 : Forall (fun ie => 0 < bytes_Compare (BlockIndex.Key ie) (bytes_of_string
      "key025"))
                 (drop 2 (BlockIndex.entries exampleIndex))).
  { repeat constructor. }
  split; [exact H1|]. split; [exact H2|].
  exact (blockindex_findoffset_last_le 100 _ _ _ H1 H2).
Defined.

Lemma deserialize_loop_serialize es rest index :
  Forall (fun ie => len (BlockIndex.Key ie) < 2 ^ 32 ∧
                    0 <= BlockIndex.Offset ie < 2 ^ 64) es →
  deserialize_loop (length es) (concat (serializeIndexEntry <$> es) ++ rest) index =
  Ok ({| BlockIndex.entries := BlockIndex.entries index ++ es;
         BlockIndex.blockSize := BlockIndex.blockSize index |}, rest).
Proof.
  intros Hwf. revert index. induction Hwf as [|[k o] es [Hk Ho] _ IH]; intros index.
  - cbn. rewrite app_nil_r. destruct index; reflexivity.
  - cbn [length deserialize_loop fmap list_fmap concat].
    unfold serializeIndexEntry at 1. cbn [BlockIndex.Key BlockIndex.Offset] in *.
    rewrite <- !app_assoc. rewrite binary_Read_app.
    change (256 ^ Z.of_nat 4) with (2 ^ 32).
    rewrite Z.mod_small by (unfold len in *; lia).
    unfold len at 1. rewrite Nat2Z.id, ReadFull_app, binary_Read_app.
    change (256 ^ Z.of_nat 8) with (2 ^ 64). rewrite Z.mod_small by lia.
    rewrite IH. cbn. rewrite <- app_assoc. reflexivity.
Qed.

(** X7.  [DeserializeIndex] reads back what [SerializeIndex] wrote: for an
    index whose entry count and key lengths fit [uint32] and whose offsets
    are [uint64] values, it returns the same entries with the block size it
    is given, and leaves the reader at the first byte after the index. *)
Theorem blockindex_serialize_roundtrip (idx : BlockIndex.t) (rest : list byte) :
  wf_index idx →
  BlockIndex_DeserializeIndex (BlockIndex_SerializeIndex idx ++ rest)
    (BlockIndex.blockSize idx) = Ok (idx, rest).
Proof.
  intros [Hn Hwf]. unfold BlockIndex_DeserializeIndex, BlockIndex_SerializeIndex.
  rewrite <- app_assoc, binary_Read_app.
  change (256 ^ Z.of_nat 4) with (2 ^ 32).
  rewrite Z.mod_small by (unfold len in *; lia).
  unfold len. rewrite Nat2Z.id.
  rewrite deserialize_loop_serialize by exact Hwf.
  destruct idx; reflexivity.
Qed.

Lemma blockindex_serialize_roundtrip_witness :
  wf_index exampleIndex ∧
  BlockIndex_DeserializeIndex (BlockIndex_SerializeIndex exampleIndex ++ [])
    (BlockIndex.blockSize exampleIndex) = Ok (exampleIndex, []).
Proof.
  assert (H : wf_index exampleIndex).
  { split; [vm_compute; reflexivity|].
    repeat constructor; vm_compute; try reflexivity; intro; discriminate. }
  split; [exact H|].
  exact (blockindex_serialize_roundtrip exampleIndex [] H).
Defined.

(** ** The orders on keys and entries *)

(** X8.  [Entry.Compare] orders entries by key as a total preorder: it
    answers -1, 0 or 1; 0 exactly for equal keys; swapping the arguments
    negates the answer; and it is transitive. *)
Theorem entry_compare_total_order (a b c : Entry) :
  -1 <= Compare a b <= 1 ∧
  (Compare a b = 0 ↔ key a = key b) ∧
  Compare b a = - Compare a b ∧
  (Compare a b <= 0 → Compare b c <= 0 → Compare a c <= 0) ∧
  (Compare a b < 0 → Compare b c <= 0 → Compare a c < 0).
Proof.
  unfold Compare. split; [apply bytes_Compare_range|]. split; [|split; [|split]].
  - split; [apply bytes_Compare_eq|]. intros ->. apply bytes_Compare_refl.
  - apply bytes_Compare_antisym.
  - intros H1 H2. apply (bytes_Compare_trans _ _ _ H1 H2).
  - intros H1 H2.
    destruct (bytes_Compare_trans (key a) (key b) (key c)) as [_ H]; [lia|lia|].
    apply H. lia.
Qed.

Lemma compareKeys_bytes_same (a b : list byte) :
  length a = length b → compareKeys_bytes a b = bytes_Compare a b.
Proof.
  revert b. induction a as [|x a IH]; intros [|y b] Hlen;
    try discriminate; [reflexivity|].
  cbn [compareKeys_bytes bytes_Compare].
  destruct (byte_val x <? byte_val y); [reflexivity|].
  destruct (byte_val y <? byte_val x); [reflexivity|].
  apply IH. injection Hlen. auto.
Qed.

Lemma compareKeys_cases (a b : list byte) :
  (length a < length b)%nat ∧ compareKeys a b = -1 ∨
  (length b < length a)%nat ∧ compareKeys a b = 1 ∨
  length a = length b ∧ compareKeys a b = bytes_Compare a b.
Proof.
  unfold compareKeys, len.
  destruct (Z.ltb_spec (Z.of_nat (length a)) (Z.of_nat (length b))); [left; split;
      [lia|reflexivity]|].
  destruct (Z.ltb_spec (Z.of_nat (length b)) (Z.of_nat (length a))); [right; left; split;
      [lia|reflexivity]|].
  right; right. assert (length a = length b) by lia. split; [assumption|].
  apply compareKeys_bytes_same. assumption.
Qed.

(** X9.  [compareKeys] is a total order on keys, the shorter key first and
    keys of one length in byte order: it answers -1, 0 or 1; 0 exactly for
    equal keys; swapping the arguments negates the answer; it is
    transitive; a shorter key is always smaller; and on keys of one length
    it agrees with [bytes.Compare]. *)
Theorem compareKeys_shortlex_order (a b c : list byte) :
  -1 <= compareKeys a b <= 1 ∧
  (compareKeys a b = 0 ↔ a = b) ∧
  compareKeys b a = - compareKeys a b ∧
  (compareKeys a b <= 0 → compareKeys b c <= 0 → compareKeys a c <= 0) ∧
  ((length a < length b)%nat → compareKeys a b = -1) ∧
  (length a = length b → compareKeys a b = bytes_Compare a b).
Proof.
  pose proof (bytes_Compare_range a b).
  pose proof (bytes_Compare_antisym a b).
  split; [|split; [|split; [|split; [|split]]]].
  - destruct (compareKeys_cases a b) as [[? ->]|[[? ->]|[? ->]]]; lia.
  - split.
    + destruct (compareKeys_cases a b) as [[? ->]|[[? ->]|[? ->]]]; try lia.
      apply bytes_Compare_eq.
    + intros ->. destruct (compareKeys_cases b b) as [[? ->]|[[? ->]|[? ->]]]; lia.
  - destruct (compareKeys_cases a b) as [[? ->]|[[? ->]|[? ->]]];
      destruct (compareKeys_cases b a) as [[? ->]|[[? ->]|[? ->]]]; lia.
  - destruct (compareKeys_cases a b) as [[? ->]|[[? ->]|[? ->]]];
      destruct (compareKeys_cases b c) as [[? ->]|[[? ->]|[? ->]]];
      destruct (compareKeys_cases a c) as [[? ->]|[[? ->]|[? ->]]]; try lia.
    intros Hab Hbc. apply (bytes_Compare_trans _ _ _ Hab Hbc).
  - intros Hlt. destruct (compareKeys_cases a b) as [[? ->]|[[? ->]|[? ->]]]; lia.
  - intros Heq. destruct (compareKeys_cases a b) as [[? ->]|[[? ->]|[? ->]]]; lia.
Qed.

(** X10.  On ranges whose end points all have the same length, the overlap
    test of compaction is the lexicographic one: [keyRangesOverlap] holds
    iff [max1 >= min2] and [max2 >= min1] under [bytes.Compare]. *)
Theorem keyRangesOverlap_lexicographic_same_length (min1 max1 min2 max2 : list byte) :
  length max1 = length min2 → length max2 = length min1 →
  CompactionManager.keyRangesOverlap min1 max1 min2 max2 = true ↔
  0 <= bytes_Compare max1 min2 ∧ 0 <= bytes_Compare max2 min1.
Proof.
  intros H1 H2. rewrite keyRangesOverlap_same_length by assumption.
  unfold lexRangesOverlap. rewrite andb_true_iff, !Z.leb_le. reflexivity.
Qed.

Lemma keyRangesOverlap_lexicographic_same_length_witness :
  length (bytes_of_string "d") = length (bytes_of_string "c") ∧
  length (bytes_of_string "f") = length (bytes_of_string "a") ∧
  (CompactionManager.keyRangesOverlap (bytes_of_string "a") (bytes_of_string "d")
     (bytes_of_string "c") (bytes_of_string "f") = true ↔
   0 <= bytes_Compare (bytes_of_string "d") (bytes_of_string "c") ∧
   0 <= bytes_Compare (bytes_of_string "f") (bytes_of_string "a")).
Proof.
  split; [reflexivity|]. split; [reflexivity|].
  apply (keyRangesOverlap_lexicographic_same_length
           (bytes_of_string "a") (bytes_of_string "d")
           (bytes_of_string "c") (bytes_of_string "f")); reflexivity.
Defined.

(** X11.  The comparison that [ExecuteCompaction] hands to [sort.Slice] is a
    strict weak order, as sorting needs: no entry is before itself; of two
    entries at most one is before the other; it is transitive; and two
    entries neither of which is before the other have the same key and the
    same timestamp. *)
Theorem compactionLess_strict_weak_order (a b c : Entry) :
  CompactionManager.compactionLess a a = false ∧
  (CompactionManager.compactionLess a b = true →
   CompactionManager.compactionLess b a = false) ∧
  (CompactionManager.compactionLess a b = true →
   CompactionManager.compactionLess b c = true →
   CompactionManager.compactionLess a c = true) ∧
  (CompactionManager.compactionLess a b = false →
   CompactionManager.compactionLess b a = false →
   key a = key b ∧ timestamp a = timestamp b).
Proof.
  assert (Hiff : ∀ x y, CompactionManager.compactionLess x y = true ↔
            Compare x y < 0 ∨ (Compare x y = 0 ∧ timestamp y < timestamp x)).
  { intros x y. unfold CompactionManager.compactionLess, IsNewerThan.
    destruct (Z.eqb_spec (Compare x y) 0); rewrite Z.ltb_lt; lia. }
  assert (Hnot : ∀ x y, CompactionManager.compactionLess x y = false ↔
            ¬ (Compare x y < 0 ∨ (Compare x y = 0 ∧ timestamp y < timestamp x))).
  { intros x y. rewrite <- Hiff. symmetry. apply not_true_iff_false. }
  unfold Compare in *.
  pose proof (bytes_Compare_antisym (key a) (key b)) as Hab.
  pose proof (bytes_Compare_refl (key a)) as Haa.
  split; [|split; [|split]].
  - apply Hnot. lia.
  - rewrite Hiff, Hnot. lia.
  - rewrite !Hiff. intros H1 H2.
    pose proof (bytes_Compare_trans (key a) (key b) (key c)) as Ht.
    pose proof (bytes_Compare_eq (key a) (key b)) as Eab.
    pose proof (bytes_Compare_eq (key b) (key c)) as Ebc.
    destruct H1 as [H1|[H1 T1]]; destruct H2 as [H2|[H2 T2]].
    + left. apply Ht; lia.
    + left. apply Ht; lia.
    + left. apply Ht; lia.
    + right. split; [|lia].
      rewrite (Eab H1), (Ebc H2). apply bytes_Compare_refl.
  - rewrite !Hnot. intros H1 H2.
    assert (bytes_Compare (key a) (key b) = 0) by lia.
    split; [apply bytes_Compare_eq; assumption|lia].
Qed.


(** ** SSTable *)

#[local] Instance keyLe_dec x y : Decision (keyLe x y).
Proof. unfold keyLe. apply _. Defined.

Lemma keyLe_iff x y : keyLe x y ↔ bytes_Compare (key x) (key y) <= 0.
Proof.
  unfold keyLe, Compare. rewrite Z.ltb_ge.
  rewrite (bytes_Compare_antisym (key x) (key y)). lia.
Qed.

#[local] Instance keyLe_total : Total keyLe.
Proof.
  intros x y. rewrite !keyLe_iff.
  rewrite (bytes_Compare_antisym (key x) (key y)). lia.
Qed.

#[local] Instance keyLe_trans : Transitive keyLe.
Proof.
  intros x y z. rewrite !keyLe_iff. intros Hxy Hyz.
  apply (bytes_Compare_trans _ _ _ Hxy Hyz).
Qed.

Lemma sort_Slice_key_sorted l :
  StronglySorted keyLe (sort_Slice (fun a b => Compare a b <? 0) l).
Proof. apply (StronglySorted_merge_sort keyLe). Qed.

Lemma readEntry_nil : readEntry [] = Err EOF.
Proof. reflexivity. Qed.

(** The scan of [SSTable.Get] over whole records. *)
Lemma search_loop_found fuel suf k :
  Forall wf_entry suf → StronglySorted keyLe suf →
  (∃ e, e ∈ suf ∧ key e = k) → (length suf < fuel)%nat →
  ∃ e, search_loop fuel (writeEntries suf) k = Some (Ok e) ∧ e ∈ suf ∧ key e = k.
Proof.
  intros Hwf. revert fuel. induction Hwf as [|h rest Hh Hrest IH]; intros fuel Hs (e & He & Hk)
      Hf.
  - inversion He.
  - destruct fuel as [|fuel]; [cbn in Hf; lia|].
    cbn [search_loop]. rewrite writeEntries_cons, readEntry_writeEntry by exact Hh.
    apply StronglySorted_inv in Hs as [Hs Hall].
    destruct (Z.eqb_spec (bytes_Compare (key h) k) 0) as [E0|N0].
    + exists h. split; [reflexivity|]. split; [left|]. apply bytes_Compare_eq, E0.
    + apply elem_of_cons in He as [->|He].
      { exfalso. apply N0. rewrite Hk. apply bytes_Compare_refl. }
      rewrite Forall_forall in Hall. pose proof (Hall e He) as Hle.
      apply keyLe_iff in Hle. rewrite Hk in Hle.
      destruct (Z.ltb_spec 0 (bytes_Compare (key h) k)) as [Hgt|_]; [lia|].
      destruct (IH fuel Hs) as (e' & -> & He' & Hk').
      * exists e. auto.
      * cbn [length] in Hf. lia.
      * exists e'. split; [reflexivity|]. split; [right; exact He'|exact Hk'].
Qed.

Lemma search_loop_absent fuel suf k :
  Forall wf_entry suf → (∀ e, e ∈ suf → key e ≠ k) → (length suf < fuel)%nat →
  search_loop fuel (writeEntries suf) k = Some (Err ErrKeyNotFound).
Proof.
  intros Hwf. revert fuel. induction Hwf as [|h rest Hh Hrest IH]; intros fuel Hno Hf.
  - destruct fuel as [|fuel]; [cbn in Hf; lia|]. reflexivity.
  - destruct fuel as [|fuel]; [cbn in Hf; lia|].
    cbn [search_loop]. rewrite writeEntries_cons, readEntry_writeEntry by exact Hh.
    destruct (Z.eqb_spec (bytes_Compare (key h) k) 0) as [E0|N0].
    + exfalso. apply (Hno h); [left|]. apply bytes_Compare_eq, E0.
    + destruct (0 <? bytes_Compare (key h) k); [reflexivity|].
      apply IH.
      * intros e He. apply Hno. right. exact He.
      * cbn [length] in Hf. lia.
Qed.

(** What the scan returns has the key asked for. *)
Lemma search_loop_key fuel r k e :
  search_loop fuel r k = Some (Ok e) → key e = k.
Proof.
  revert r. induction fuel as [|fuel IH]; intros r; [discriminate|].
  cbn [search_loop]. destruct (readEntry r) as [[e' r']|err] eqn:E.
  - destruct (Z.eqb_spec (bytes_Compare (key e') k) 0) as [E0|N0].
    + intros H. inversion H; subst. apply bytes_Compare_eq, E0.
    + destruct (0 <? bytes_Compare (key e') k); [discriminate|]. apply IH.
  - destruct err; discriminate.
Qed.

Lemma writeEntries_snoc_len pre e :
  len (writeEntries (pre ++ [e])) =
  len (writeEntries pre) + (4 + len (key e) + 4 + len (value e) + 1 + 8).
Proof.
  rewrite writeEntries_app. unfold writeEntries at 2. cbn [map concat].
  rewrite app_nil_r. pose proof (writeEntry_length e) as H.
  unfold len in *. rewrite length_app. lia.
Qed.

Lemma index_entries_boundary blockSize pre es i off idx :
  off = len (writeEntries pre) →
  Forall (boundary (pre ++ es)) (BlockIndex.entries idx) →
  Forall (boundary (pre ++ es))
    (BlockIndex.entries (SSTableBuilder.index_entries blockSize es i off idx)).
Proof.
  revert pre i off idx. induction es as [|e es IH]; intros pre i off idx Hoff Hidx.
  - exact Hidx.
  - cbn [SSTableBuilder.index_entries].
    replace (pre ++ e :: es) with ((pre ++ [e]) ++ es) in *
      by (rewrite <- app_assoc; reflexivity).
    apply IH.
    + rewrite writeEntries_snoc_len. lia.
    + destruct (i mod blockSize =? 0); [|exact Hidx].
      cbn [BlockIndex.AddEntry BlockIndex.entries].
      apply Forall_app. split; [exact Hidx|]. constructor; [|constructor].
      exists (length pre), e. cbn [BlockIndex.Key BlockIndex.Offset].
      split; [|split; [reflexivity|]].
      * rewrite <- app_assoc. cbn [app]. apply list_lookup_middle. reflexivity.
      * rewrite <- app_assoc. rewrite take_app_length. exact Hoff.
Qed.

Lemma FindOffset_loop_candidate fuel es t left right best o :
  BlockIndex.FindOffset_loop fuel es t left right best = Some o →
  o = best ∨ ∃ ie, ie ∈ es ∧ bytes_Compare (BlockIndex.Key ie) t <= 0 ∧
                   o = BlockIndex.Offset ie.
Proof.
  revert left right best. induction fuel as [|fuel IH]; intros left right best; [discriminate|].
  cbn [BlockIndex.FindOffset_loop].
  destruct (left <=? right); [|intros H; inversion H; auto].
  destruct (es !! Z.to_nat (left + (right - left) / 2)) as [ie|] eqn:E; [|discriminate].
  destruct (Z.leb_spec (bytes_Compare (BlockIndex.Key ie) t) 0) as [Hle|Hgt].
  - intros H. apply IH in H as [->|H]; [|right; exact H].
    right. exists ie. split; [eapply list_elem_of_lookup_2; eauto|]. auto.
  - apply IH.
Qed.

Lemma FindOffset_candidate idx t :
  BlockIndex.FindOffset idx t = 0 ∨
  ∃ ie, ie ∈ BlockIndex.entries idx ∧ bytes_Compare (BlockIndex.Key ie) t <= 0 ∧
        BlockIndex.FindOffset idx t = BlockIndex.Offset ie.
Proof.
  unfold BlockIndex.FindOffset. destruct (BlockIndex.entries idx) as [|x l] eqn:E; [left;
      reflexivity|].
  destruct (BlockIndex.FindOffset_loop _ _ _ _ _ _) as [o|] eqn:F; [|left; reflexivity].
  apply FindOffset_loop_candidate in F as [->|F]; [left; reflexivity|right; exact F].
Qed.

(** Where [Get] starts to read: at a record of the file, and no record with
    the key asked for lies wholly before it unless one lies there too. *)
Lemma Get_start sorted k :
  StronglySorted keyLe sorted →
  ∃ p, drop (Z.to_nat (BlockIndex.FindOffset
               (SSTableBuilder.index_entries 100 sorted 0 0 (BlockIndex.NewBlockIndex 100)) k))
         (writeEntries sorted) = writeEntries (drop p sorted) ∧
       ((∃ e, e ∈ sorted ∧ key e = k) → ∃ e, e ∈ drop p sorted ∧ key e = k).
Proof.
  intros Hs.
  destruct (FindOffset_candidate
              (SSTableBuilder.index_entries 100 sorted 0 0 (BlockIndex.NewBlockIndex 100)) k)
    as [->|(ie & Hie & Hle & ->)].
  - exists 0%nat. split; [reflexivity|]. auto.
  - pose proof (index_entries_boundary 100 [] sorted 0 0 (BlockIndex.NewBlockIndex 100)
                  eq_refl ltac:(constructor)) as Hb.
    cbn [app] in Hb. rewrite Forall_forall in Hb.
    destruct (Hb ie Hie) as (p & ep & Hp & Hkey & ->).
    exists p. split.
    + unfold len. rewrite Nat2Z.id.
      rewrite <- (take_drop p sorted) at 2. rewrite writeEntries_app.
      apply drop_app_length.
    + intros (e & He & Hk).
      rewrite <- (take_drop p sorted) in He, Hs.
      assert (Hhead : ep ∈ drop p sorted).
      { apply list_elem_of_lookup. exists 0%nat. rewrite lookup_drop, Nat.add_0_r. exact Hp. }
      apply elem_of_app in He as [He|He]; [|exists e; auto].
      exists ep. split; [exact Hhead|].
      pose proof (StronglySorted_app_1_elem_of _ _ _ _ _ Hs He Hhead) as Hle'.
      apply keyLe_iff in Hle'. rewrite Hkey in Hle. rewrite Hk in Hle'.
      apply bytes_Compare_eq.
      rewrite (bytes_Compare_antisym k (key ep)) in Hle |- *. lia.
Qed.

Lemma Contains_loop_total n h i bf :
  bloom_wf bf → is_Some (BloomFilter.Contains_loop n h i bf).
Proof.
  intros Hwf. revert i. induction n as [|n IH]; intros i; [eauto|].
  cbn [BloomFilter.Contains_loop].
  destruct (bloom_index_wf bf h i Hwf) as (ix & -> & Hlt).
  destruct (lookup_lt_is_Some_2 _ _ Hlt) as [b ->].
  destruct b; [apply IH|eauto].
Qed.

(** [Get] on a table whose file holds the sorted records and whose index
    was made by [Build]. *)
Lemma Get_built sst (w : World) sorted bf k :
  BloomFilter (metadata sst) = Some bf → bloom_wf bf →
  BlockIndex (metadata sst) =
    Some (SSTableBuilder.index_entries 100 sorted 0 0 (BlockIndex.NewBlockIndex 100)) →
  disk w !! filePath sst = Some (writeEntries sorted) →
  Forall wf_entry sorted → StronglySorted keyLe sorted →
  ((∃ e, e ∈ sorted ∧ key e = k) → bloom_holds bf k →
   ∃ e, SSTable_Get sst k w = Done (Ok e) w ∧ e ∈ sorted ∧ key e = k) ∧
  ((∀ e, e ∈ sorted → key e ≠ k) →
   SSTable_Get sst k w = Done (Err ErrKeyNotFound) w).
Proof.
  intros Hbf Hwf Hidx Hdisk Hes Hs.
  destruct (Get_start sorted k Hs) as (p & Hdrop & Hkeep).
  assert (Hes' : Forall wf_entry (drop p sorted)) by (apply Forall_drop, Hes).
  assert (Hfuel : (length (drop p sorted) < S (length (writeEntries (drop p sorted))))%nat).
  { pose proof (writeEntries_length_ge (drop p sorted)). lia. }
  split.
  - intros Hin Hholds. unfold SSTable_Get. rewrite Hbf, (Contains_holds _ _ Hholds).
    rewrite mbind_unfold. unfold get_disk. rewrite Hdisk, Hidx. cbv zeta.
    rewrite Hdrop.
    destruct (search_loop_found (S (length (writeEntries (drop p sorted)))) (drop p sorted) k
        Hes') as (e & -> & He & Hk).
    + rewrite <- (take_drop p sorted) in Hs. eapply StronglySorted_app_1_r, Hs.
    + auto.
    + exact Hfuel.
    + exists e. split; [reflexivity|]. split; [|exact Hk].
      rewrite <- (take_drop p sorted). apply elem_of_app. right. exact He.
  - intros Hno. unfold SSTable_Get. rewrite Hbf.
    destruct (Contains_loop_total (Z.to_nat (BloomFilter.hashFuncs bf))
                (BloomFilter.getHashes k) 0 bf Hwf) as [b Hb].
    unfold BloomFilter.Contains. rewrite Hb. destruct b; [|reflexivity].
    rewrite mbind_unfold. unfold get_disk. rewrite Hdisk, Hidx. cbv zeta.
    rewrite Hdrop.
    rewrite (search_loop_absent (S (length (writeEntries (drop p sorted)))) (drop p sorted) k
        Hes'); [reflexivity| |exact Hfuel].
    intros e He. apply Hno. rewrite <- (take_drop p sorted). apply elem_of_app. right. exact He.
Qed.

Lemma foldM_AddEntry_bloom (w : World) es (b : SSTableBuilder.t) :
  bloom_wf (SSTableBuilder.bloomFilter b) →
  ∃ b', foldM SSTableBuilder.AddEntry es b w = Done b' w ∧
        SSTableBuilder.entries b' = SSTableBuilder.entries b ++ es ∧
        SSTableBuilder.level b' = SSTableBuilder.level b ∧
        SSTableBuilder.blockSize b' = SSTableBuilder.blockSize b ∧
        SSTableBuilder.blockIndex b' = SSTableBuilder.blockIndex b ∧
        bloom_wf (SSTableBuilder.bloomFilter b') ∧
        bloom_extends (SSTableBuilder.bloomFilter b) (SSTableBuilder.bloomFilter b') ∧
        ∀ e, e ∈ es → bloom_holds (SSTableBuilder.bloomFilter b') (key e).
Proof.
  revert b. induction es as [|e es IH]; intros b Hwf.
  - exists b. cbn [foldM]. rewrite app_nil_r.
    split_and!; try reflexivity; [exact Hwf|apply bloom_extends_refl|].
    intros e He. inversion He.
  - cbn [foldM]. rewrite mbind_unfold. unfold SSTableBuilder.AddEntry at 1.
    destruct (Add_spec (SSTableBuilder.bloomFilter b) (key e) Hwf) as (bf1 & -> & Hext1 & Hk1).
    cbn [ret mret M_ret].
    match goal with |- context [foldM _ es ?b1 w] =>
      destruct (IH b1) as (b' & -> & He & Hl & Hbs & Hbi & Hwf' & Hext & Hall) end.
    { cbn. eapply bloom_extends_wf; eauto. }
    cbn in He, Hl, Hbs, Hbi, Hext.
    exists b'. rewrite He, <- app_assoc.
    split_and!; try reflexivity; try assumption.
    + eapply bloom_extends_trans; eauto.
    + intros e' He'. apply elem_of_cons in He' as [->|He'].
      * eapply bloom_holds_extends; eauto.
      * auto.
Qed.

(** What [buildTable] leaves: the table and the world after it. *)
Lemma buildTable_spec level estimated es dir filename (w : World) :
  0 < BloomFilter.size (BloomFilter.NewBloomFilter estimated LOG_0_01) →
  es ≠ [] →
  ∃ sst w' bf,
    buildTable level estimated es dir filename w = Done (Ok sst) w' ∧
    filePath sst = filepath_Join dir filename ∧
    disk w' = <[filepath_Join dir filename :=
                  writeEntries (sort_Slice (fun a b => Compare a b <? 0) es)]> (disk w) ∧
    BloomFilter (metadata sst) = Some bf ∧ bloom_wf bf ∧
    (∀ e, e ∈ es → bloom_holds bf (key e)) ∧
    BlockIndex (metadata sst) =
      Some (SSTableBuilder.index_entries 100
              (sort_Slice (fun a b => Compare a b <? 0) es) 0 0
              (BlockIndex.NewBlockIndex 100)) ∧
    Level (metadata sst) = level ∧
    FileName (metadata sst) = filename ∧
    MinKey (metadata sst) =
      default [] (key <$> head (sort_Slice (fun a b => Compare a b <? 0) es)) ∧
    MaxKey (metadata sst) =
      default [] (key <$> last (sort_Slice (fun a b => Compare a b <? 0) es)) ∧
    EntryCount (metadata sst) = len es mod 2 ^ 32 ∧
    FileSize (metadata sst) =
      len (writeEntries (sort_Slice (fun a b => Compare a b <? 0) es)).
Proof.
  intros Hsize Hne. unfold buildTable. rewrite mbind_unfold.
  destruct (foldM_AddEntry_bloom w es (SSTableBuilder.NewSSTableBuilder level estimated))
    as (b & -> & He & Hl & Hbs & Hbi & Hwf & _ & Hall).
  { cbn. apply NewBloomFilter_wf, Hsize. }
  cbn in He, Hl, Hbs, Hbi.
  unfold SSTableBuilder.Build. rewrite He, Hl, Hbs, Hbi.
  destruct es as [|e0 es0] eqn:Ees; [contradiction|]. rewrite <- Ees in *.
  eexists _, _, (SSTableBuilder.bloomFilter b).
  split; [reflexivity|].
  cbn [filePath metadata disk BloomFilter BlockIndex Level FileName MinKey MaxKey
       EntryCount FileSize].
  split_and!; try reflexivity; try assumption.
  unfold len. f_equal. f_equal.
  apply Permutation_length, sort_Slice_perm.
Qed.

Lemma StronglySorted_keyLe_le l :
  StronglySorted keyLe l → StronglySorted (fun x y => Compare x y <= 0) l.
Proof.
  induction 1 as [|x l Hs IH Hall]; constructor; [exact IH|].
  eapply Forall_impl; [exact Hall|]. intros y Hy. apply keyLe_iff in Hy. exact Hy.
Qed.

(** X12.  A table built from entries that the record layout can hold reads
    back, with [GetAllEntries], as the same entries sorted by key: a
    permutation of the entries given to the builder, in ascending key
    order.  (The hypothesis on the Bloom filter says that the filter made
    for the estimate has a bit to set.) *)
Theorem sstable_build_read_back (level estimated : Z) (es : list Entry)
    (dir filename : string) (w : World) :
  0 < BloomFilter.size (BloomFilter.NewBloomFilter estimated LOG_0_01) →
  es ≠ [] → Forall wf_entry es →
  ∃ sst w' sorted,
    buildTable level estimated es dir filename w = Done (Ok sst) w' ∧
    SSTable_GetAllEntries sst w' = Done (Ok sorted) w' ∧
    sorted ≡ₚ es ∧
    StronglySorted (fun x y => Compare x y <= 0) sorted.
Proof.
  intros Hsize Hne Hwf.
  destruct (buildTable_spec level estimated es dir filename w Hsize Hne)
    as (sst & w' & bf & HB & Hpath & Hdisk & _).
  exists sst, w', (sort_Slice (fun a b => Compare a b <? 0) es).
  split; [exact HB|]. split; [|split].
  - rewrite (GetAllEntries_spec w' sst (writeEntries (sort_Slice (fun a b => Compare a b <? 0)
      es))).
    + rewrite readAll_writeEntries; [reflexivity|].
      rewrite sort_Slice_perm. exact Hwf.
    + rewrite Hdisk, Hpath. apply lookup_insert_eq.
  - apply sort_Slice_perm.
  - apply StronglySorted_keyLe_le, sort_Slice_key_sorted.
Qed.

Lemma sstable_build_read_back_witness :
  0 < BloomFilter.size (BloomFilter.NewBloomFilter 5 LOG_0_01) ∧
  tableEntries ≠ [] ∧ Forall wf_entry tableEntries ∧
  ∃ sst w' sorted,
    buildTable 0 5 tableEntries "data/sstables" "input1.sst" emptyWorld = Done (Ok sst) w' ∧
    SSTable_GetAllEntries sst w' = Done (Ok sorted) w' ∧
    sorted ≡ₚ tableEntries ∧
    StronglySorted (fun x y => Compare x y <= 0) sorted.
Proof.
  assert (H1 : 0 < BloomFilter.size (BloomFilter.NewBloomFilter 5 LOG_0_01))
    by (vm_compute; reflexivity).
  assert (H2 : tableEntries ≠ []) by discriminate.
  assert (H3 : Forall wf_entry tableEntries) by (unfold tableEntries; solve_wf).
  split; [exact H1|]. split; [exact H2|]. split; [exact H3|].
  exact (sstable_build_read_back 0 5 tableEntries "data/sstables" "input1.sst"
           emptyWorld H1 H2 H3).
Defined.

(** X13.  [Get] finds every key of a built table: for a key that some
    entry given to the builder has, [Get] on the table returns an entry
    with that key that was given to the builder (the one, when the keys
    are distinct), through the Bloom filter, the block index and the scan
    of the file. *)
Theorem sstable_build_get_found (level estimated : Z) (es : list Entry)
    (dir filename : string) (w : World) (k : list byte) :
  0 < BloomFilter.size (BloomFilter.NewBloomFilter estimated LOG_0_01) →
  Forall wf_entry es →
  (∃ e, e ∈ es ∧ key e = k) →
  ∃ sst w' e,
    buildTable level estimated es dir filename w = Done (Ok sst) w' ∧
    SSTable_Get sst k w' = Done (Ok e) w' ∧
    e ∈ es ∧ key e = k.
Proof.
  intros Hsize Hwf (e0 & He0 & Hk0).
  assert (Hne : es ≠ []) by (intros ->; inversion He0).
  destruct (buildTable_spec level estimated es dir filename w Hsize Hne)
    as (sst & w' & bf & HB & Hpath & Hdisk & Hbf & Hbwf & Hholds & Hidx & _).
  set (sorted := sort_Slice (fun a b => Compare a b <? 0) es) in *.
  assert (Hperm : sorted ≡ₚ es) by apply sort_Slice_perm.
  destruct (Get_built sst w' sorted bf k Hbf Hbwf Hidx) as [Hfound _].
  - rewrite Hdisk, Hpath. apply lookup_insert_eq.
  - rewrite Hperm. exact Hwf.
  - apply sort_Slice_key_sorted.
  - destruct Hfound as (e & HG & He & Hk).
    + exists e0. split; [rewrite Hperm; exact He0|exact Hk0].
    + rewrite <- Hk0. apply Hholds, He0.
    + exists sst, w', e. split; [exact HB|]. split; [exact HG|].
      split; [rewrite <- Hperm; exact He|exact Hk].
Qed.

Lemma sstable_build_get_found_witness :
  0 < BloomFilter.size (BloomFilter.NewBloomFilter 5 LOG_0_01) ∧
  Forall wf_entry tableEntries ∧
  (∃ e, e ∈ tableEntries ∧ key e = bytes_of_string "key2") ∧
  ∃ sst w' e,
    buildTable 0 5 tableEntries "data/sstables" "input1.sst" emptyWorld = Done (Ok sst) w' ∧
    SSTable_Get sst (bytes_of_string "key2") w' = Done (Ok e) w' ∧
    e ∈ tableEntries ∧ key e = bytes_of_string "key2".
Proof.
  assert (H1 : 0 < BloomFilter.size (BloomFilter.NewBloomFilter 5 LOG_0_01))
    by (vm_compute; reflexivity).
  assert (H2 : Forall wf_entry tableEntries) by (unfold tableEntries; solve_wf).
  assert (H3 : ∃ e, e ∈ tableEntries ∧ key e = bytes_of_string "key2").
  { exists (pute 2 "key2" "value2"). split; [right; left|reflexivity]. }
  split; [exact H1|]. split; [exact H2|]. split; [exact H3|].
  exact (sstable_build_get_found 0 5 tableEntries "data/sstables" "input1.sst"
           emptyWorld (bytes_of_string "key2") H1 H2 H3).
Defined.

(** X14.  [Get] on a built table reports [ErrKeyNotFound] for every key
    that no entry given to the builder has, whether the Bloom filter
    rejects the key or lets it through to the scan of the file. *)
Theorem sstable_build_get_absent (level estimated : Z) (es : list Entry)
    (dir filename : string) (w : World) (k : list byte) :
  0 < BloomFilter.size (BloomFilter.NewBloomFilter estimated LOG_0_01) →
  es ≠ [] → Forall wf_entry es →
  (∀ e, e ∈ es → key e ≠ k) →
  ∃ sst w',
    buildTable level estimated es dir filename w = Done (Ok sst) w' ∧
    SSTable_Get sst k w' = Done (Err ErrKeyNotFound) w'.
Proof.
  intros Hsize Hne Hwf Hno.
  destruct (buildTable_spec level estimated es dir filename w Hsize Hne)
    as (sst & w' & bf & HB & Hpath & Hdisk & Hbf & Hbwf & Hholds & Hidx & _).
  set (sorted := sort_Slice (fun a b => Compare a b <? 0) es) in *.
  assert (Hperm : sorted ≡ₚ es) by apply sort_Slice_perm.
  destruct (Get_built sst w' sorted bf k Hbf Hbwf Hidx) as [_ Habsent].
  - rewrite Hdisk, Hpath. apply lookup_insert_eq.
  - rewrite Hperm. exact Hwf.
  - apply sort_Slice_key_sorted.
  - exists sst, w'. split; [exact HB|]. apply Habsent.
    intros e He. apply Hno. rewrite <- Hperm. exact He.
Qed.

Lemma sstable_build_get_absent_witness :
  0 < BloomFilter.size (BloomFilter.NewBloomFilter 5 LOG_0_01) ∧
  tableEntries ≠ [] ∧ Forall wf_entry tableEntries ∧
  (∀ e, e ∈ tableEntries → key e ≠ bytes_of_string "key9") ∧
  ∃ sst w',
    buildTable 0 5 tableEntries "data/sstables" "input1.sst" emptyWorld = Done (Ok sst) w' ∧
    SSTable_Get sst (bytes_of_string "key9") w' = Done (Err ErrKeyNotFound) w'.
Proof.
  assert (H1 : 0 < BloomFilter.size (BloomFilter.NewBloomFilter 5 LOG_0_01))
    by (vm_compute; reflexivity).
  assert (H2 : tableEntries ≠ []) by discriminate.
  assert (H3 : Forall wf_entry tableEntries) by (unfold tableEntries; solve_wf).
  assert (H4 : ∀ e, e ∈ tableEntries → key e ≠ bytes_of_string "key9").
  { intros e He. unfold tableEntries in He.
    rewrite !elem_of_cons, elem_of_nil in He.
    destruct He as [->|[->|[->|[]]]]; vm_compute; discriminate. }
  split; [exact H1|]. split; [exact H2|]. split; [exact H3|]. split; [exact H4|].
  exact (sstable_build_get_absent 0 5 tableEntries "data/sstables" "input1.sst"
           emptyWorld (bytes_of_string "key9") H1 H2 H3 H4).
Defined.

Lemma StronglySorted_head_le l x :
  StronglySorted keyLe l → head l = Some x → ∀ e, e ∈ l → keyLe x e.
Proof.
  intros Hs Hh e He. destruct l as [|y l]; [discriminate|]. inversion Hh; subst.
  apply StronglySorted_inv in Hs as [_ Hall].
  apply elem_of_cons in He as [->|He].
  - apply keyLe_iff. rewrite bytes_Compare_refl. lia.
  - rewrite Forall_forall in Hall. auto.
Qed.

Lemma StronglySorted_last_le l x :
  StronglySorted keyLe l → last l = Some x → ∀ e, e ∈ l → keyLe e x.
Proof.
  intros Hs Hl e He. apply last_Some in Hl as [l' ->].
  apply elem_of_app in He as [He|He].
  - eapply StronglySorted_app_1_elem_of; [exact Hs|exact He|left].
  - apply list_elem_of_singleton in He as ->.
    apply keyLe_iff. rewrite bytes_Compare_refl. lia.
Qed.

(** X15.  The metadata of a built table describes its file: [MinKey] and
    [MaxKey] bound the key of every entry under [bytes.Compare] and are
    keys of entries of the table, [EntryCount] is the number of entries (as
    a [uint32]), [FileSize] is the length of the file, and [Level] and
    [FileName] are the ones given. *)
Theorem sstable_build_metadata (level estimated : Z) (es : list Entry)
    (dir filename : string) (w : World) :
  0 < BloomFilter.size (BloomFilter.NewBloomFilter estimated LOG_0_01) →
  es ≠ [] →
  ∃ sst w' content,
    buildTable level estimated es dir filename w = Done (Ok sst) w' ∧
    disk w' !! filePath sst = Some content ∧
    FileSize (metadata sst) = len content ∧
    EntryCount (metadata sst) = len es mod 2 ^ 32 ∧
    Level (metadata sst) = level ∧
    FileName (metadata sst) = filename ∧
    MinKey (metadata sst) ∈ key <$> es ∧
    MaxKey (metadata sst) ∈ key <$> es ∧
    ∀ e, e ∈ es →
      bytes_Compare (MinKey (metadata sst)) (key e) <= 0 ∧
      bytes_Compare (key e) (MaxKey (metadata sst)) <= 0.
Proof.
  intros Hsize Hne.
  destruct (buildTable_spec level estimated es dir filename w Hsize Hne)
    as (sst & w' & bf & HB & Hpath & Hdisk & _ & _ & _ & _ & Hl & Hf & Hmin & Hmax & Hc & Hs).
  set (sorted := sort_Slice (fun a b => Compare a b <? 0) es) in *.
  assert (Hperm : sorted ≡ₚ es) by apply sort_Slice_perm.
  assert (Hsorted : StronglySorted keyLe sorted) by apply sort_Slice_key_sorted.
  assert (Hne' : sorted ≠ []).
  { intros E. rewrite E in Hperm. apply Permutation_nil_l in Hperm. auto. }
  destruct (head sorted) as [first|] eqn:Hh.
  2:{ apply head_None in Hh. contradiction. }
  destruct (last sorted) as [lst|] eqn:Hla.
  2:{ apply last_None in Hla. contradiction. }
  cbn in Hmin, Hmax.
  exists sst, w', (writeEntries sorted).
  split; [exact HB|]. split; [rewrite Hdisk, Hpath; apply lookup_insert_eq|].
  split; [exact Hs|]. split; [exact Hc|]. split; [exact Hl|]. split; [exact Hf|].
  rewrite Hmin, Hmax. split; [|split].
  - apply list_elem_of_fmap_2. rewrite <- Hperm. eapply head_Some_elem_of, Hh.
  - apply list_elem_of_fmap_2. rewrite <- Hperm. eapply last_Some_elem_of, Hla.
  - intros e He. rewrite <- Hperm in He. split.
    + apply keyLe_iff. eapply StronglySorted_head_le; eauto.
    + apply keyLe_iff. eapply StronglySorted_last_le; eauto.
Qed.

Lemma sstable_build_metadata_witness :
  0 < BloomFilter.size (BloomFilter.NewBloomFilter 5 LOG_0_01) ∧
  tableEntries ≠ [] ∧
  ∃ sst w' content,
    buildTable 0 5 tableEntries "data/sstables" "input1.sst" emptyWorld = Done (Ok sst) w' ∧
    disk w' !! filePath sst = Some content ∧
    FileSize (metadata sst) = len content ∧
    EntryCount (metadata sst) = len tableEntries mod 2 ^ 32 ∧
    Level (metadata sst) = 0 ∧
    FileName (metadata sst) = "input1.sst" ∧
    MinKey (metadata sst) ∈ key <$> tableEntries ∧
    MaxKey (metadata sst) ∈ key <$> tableEntries ∧
    ∀ e, e ∈ tableEntries →
      bytes_Compare (MinKey (metadata sst)) (key e) <= 0 ∧
      bytes_Compare (key e) (MaxKey (metadata sst)) <= 0.
Proof.
  assert (H1 : 0 < BloomFilter.size (BloomFilter.NewBloomFilter 5 LOG_0_01))
    by (vm_compute; reflexivity).
  assert (H2 : tableEntries ≠ []) by discriminate.
  split; [exact H1|]. split; [exact H2|].
  exact (sstable_build_metadata 0 5 tableEntries "data/sstables" "input1.sst"
           emptyWorld H1 H2).
Defined.

(** X16.  [Get] never answers with another key and never writes: whatever
    the table, its file and the key, an entry that [Get] returns has
    exactly the key asked for, and the file system is as before. *)
Theorem sstable_get_returns_asked_key (sst : SSTable) (k : list byte)
    (w w' : World) (e : Entry) :
  SSTable_Get sst k w = Done (Ok e) w' → key e = k ∧ w' = w.
Proof.
  unfold SSTable_Get.
  destruct (BloomFilter (metadata sst)) as [bf|]; [|discriminate].
  destruct (BloomFilter.Contains bf k) as [[|]|]; try discriminate.
  rewrite mbind_unfold. unfold get_disk.
  destruct (disk w !! filePath sst) as [content|]; [|discriminate].
  cbv zeta.
  destruct (search_loop _ _ k) as [[e'|err]|] eqn:E; try discriminate.
  intros H. inversion H; subst. split; [|reflexivity].
  eapply search_loop_key, E.
Qed.

Lemma sstable_get_returns_asked_key_witness :
  ∃ sst w',
    buildTable 0 5 tableEntries "data/sstables" "input1.sst" emptyWorld = Done (Ok sst) w' ∧
    SSTable_Get sst (bytes_of_string "key1") w' =
      Done (Ok (pute 1 "key1" "value1_old")) w' ∧
    key (pute 1 "key1" "value1_old") = bytes_of_string "key1" ∧ w' = w'.
Proof.
  destruct (buildTable 0 5 tableEntries "data/sstables" "input1.sst" emptyWorld)
    as [[sst|err] w'|msg] eqn:E; try (vm_compute in E; discriminate E).
  exists sst, w'. split; [reflexivity|].
  assert (HG : SSTable_Get sst (bytes_of_string "key1") w' =
               Done (Ok (pute 1 "key1" "value1_old")) w').
  { vm_compute in E. inversion E; subst. vm_compute. reflexivity. }
  split; [exact HG|].
  exact (sstable_get_returns_asked_key _ _ _ _ _ HG).
Defined.

(** ** SSTableIterator *)

Lemma iterate_writeEntries fuel es it acc :
  Forall wf_entry es → SSTableIterator.reader it = writeEntries es →
  (length es < fuel)%nat →
  ∃ it', iterate fuel it acc = Some (acc ++ es, it') ∧
         SSTableIterator.err it' = Some EOF ∧
         SSTableIterator.current it' =
           match last es with Some e => Some e | None => SSTableIterator.current it end.
Proof.
  intros Hwf. revert fuel it acc. induction Hwf as [|e es He Hes IH]; intros fuel it acc Hr Hf.
  - destruct fuel as [|fuel]; [cbn in Hf; lia|].
    cbn [iterate]. unfold SSTableIterator.Next. rewrite Hr. cbn.
    eexists. rewrite app_nil_r. split; [reflexivity|]. cbn. auto.
  - destruct fuel as [|fuel]; [cbn in Hf; lia|].
    cbn [iterate]. unfold SSTableIterator.Next. rewrite Hr, writeEntries_cons.
    rewrite readEntry_writeEntry by exact He. cbn [SSTableIterator.Entry_
        SSTableIterator.current].
    match goal with |- context [iterate fuel ?it1 ?acc1] =>
      destruct (IH fuel it1 acc1) as (it' & -> & Herr & Hcur) end.
    + reflexivity.
    + cbn [length] in Hf. lia.
    + exists it'. rewrite <- app_assoc. split; [reflexivity|]. split; [exact Herr|].
      rewrite Hcur. cbn [SSTableIterator.current].
      destruct es as [|e' es']; [reflexivity|].
      change (last (e :: e' :: es')) with (last (e' :: es')).
      destruct (last (e' :: es')) eqn:El; [reflexivity|].
      apply last_None in El. discriminate.
Qed.

(** X17.  An iterator walks the whole table: on a table whose file holds
    the records of entries that the layout can hold, [Iterator] succeeds,
    [Next] returns true once for each entry with [Entry] giving the entries
    in file order, then returns false, and [Error] reports nothing (the
    end of the file is not an error). *)
Theorem sstable_iterator_yields_all (sst : SSTable) (es : list Entry) (w : World) :
  tableStores w sst es →
  ∃ it it',
    SSTable_Iterator sst w = Done (Ok it) w ∧
    iterate (S (length es)) it [] = Some (es, it') ∧
    SSTableIterator.Error it' = None ∧
    SSTableIterator.Entry_ it' = last es.
Proof.
  intros [Hfile Hwf]. unfold SSTable_Iterator. rewrite mbind_unfold.
  unfold get_disk. rewrite Hfile. eexists _.
  match goal with |- ∃ it', ret (Ok ?it0) w = _ ∧ _ =>
    destruct (iterate_writeEntries (S (length es)) es it0 [] Hwf eq_refl ltac:(lia))
      as (it' & Hit & Herr & Hcur) end.
  exists it'. split; [reflexivity|]. split; [exact Hit|].
  unfold SSTableIterator.Error, SSTableIterator.Entry_. rewrite Herr, Hcur.
  split; [reflexivity|]. destruct (last es); reflexivity.
Qed.

Lemma sstable_iterator_yields_all_witness :
  tableStores (exampleWorld mixedFiles) (exampleTable "in/0" 0)
    [pute 1 "key1" "value1_old"; pute 2 "key2" "value2"; dele 3 "key3"] ∧
  ∃ it it',
    SSTable_Iterator (exampleTable "in/0" 0) (exampleWorld mixedFiles) =
      Done (Ok it) (exampleWorld mixedFiles) ∧
    iterate 4 it [] =
      Some ([pute 1 "key1" "value1_old"; pute 2 "key2" "value2"; dele 3 "key3"], it') ∧
    SSTableIterator.Error it' = None ∧
    SSTableIterator.Entry_ it' = Some (dele 3 "key3").
Proof.
  assert (H : tableStores (exampleWorld mixedFiles) (exampleTable "in/0" 0)
                [pute 1 "key1" "value1_old"; pute 2 "key2" "value2"; dele 3 "key3"]).
  { split; [reflexivity|solve_wf]. }
  split; [exact H|].
  exact (sstable_iterator_yields_all _ _ _ H).
Defined.


(** ** WAL: reopening, closing, removing *)

Lemma Recover_open_ok path buf0 (w : World) content es :
  disk w !! path = Some content →
  readAll "failed to read entry from WAL" (content ++ buf0) = Ok es →
  ∃ w',
    WAL.Recover {| WAL.path := path; WAL.buf := buf0; WAL.isOpen := true |} w =
      Done (Ok es, {| WAL.path := path; WAL.buf := []; WAL.isOpen := true |}) w' ∧
    disk w' = <[path := content ++ buf0]> (disk w).
Proof.
  intros Hc Hr. unfold WAL.Recover, WAL.Close, WAL.Flush. run_M.
  rewrite Hc. cbn. rewrite lookup_insert_eq, Hr.
  eexists. split; reflexivity.
Qed.

(** X18.  A WAL keeps what it holds and stays writable across [Recover]:
    opened on a file that holds the records of [es0], after writing [es1]
    [Recover] returns [es0] followed by [es1] (opening appends, it does not
    truncate); after writing [es2] a second [Recover] returns all three in
    order, and the file holds exactly their records. *)
Theorem wal_recover_repeatable (w : World) (dir filename : string)
    (es0 es1 es2 : list Entry) :
  Forall wf_entry es0 → Forall wf_entry es1 → Forall wf_entry es2 →
  disk w !! filepath_Join dir filename = Some (writeEntries es0) →
  ∃ w', recoverTwice dir filename es1 es2 w =
          Done (Ok (es0 ++ es1), Ok (es0 ++ es1 ++ es2)) w' ∧
        disk w' !! filepath_Join dir filename =
          Some (writeEntries (es0 ++ es1 ++ es2)).
Proof.
  intros H0 H1 H2 Hfile. unfold recoverTwice, mbind, M_bind, bind.
  rewrite (NewWAL_existing _ _ _ _ Hfile). cbv beta iota.
  rewrite WriteEntries_buf. cbn [WAL.path WAL.buf WAL.isOpen app].
  destruct (Recover_open_ok (filepath_Join dir filename) (writeEntries es1) w
              (writeEntries es0) (es0 ++ es1) Hfile) as (w1 & -> & Hd1).
  { rewrite <- writeEntries_app. apply readAll_writeEntries, Forall_app. auto. }
  cbv beta iota. rewrite WriteEntries_buf. cbn [WAL.path WAL.buf WAL.isOpen app].
  destruct (Recover_open_ok (filepath_Join dir filename) (writeEntries es2) w1
              (writeEntries es0 ++ writeEntries es1) (es0 ++ es1 ++ es2))
    as (w2 & -> & Hd2).
  { rewrite Hd1. apply lookup_insert_eq. }
  { rewrite <- !writeEntries_app, <- app_assoc.
    apply readAll_writeEntries. rewrite !Forall_app. auto. }
  exists w2. split; [reflexivity|].
  rewrite Hd2, lookup_insert_eq, !writeEntries_app, app_assoc. reflexivity.
Qed.

Lemma wal_recover_repeatable_witness :
  Forall wf_entry walEntries ∧
  Forall wf_entry [pute 4 "key4" "value4"] ∧
  Forall wf_entry [dele 5 "key1"] ∧
  disk walWorld !! filepath_Join "data/wal" "test.wal" = Some (writeEntries walEntries) ∧
  ∃ w', recoverTwice "data/wal" "test.wal" [pute 4 "key4" "value4"] [dele 5 "key1"] walWorld =
          Done (Ok (walEntries ++ [pute 4 "key4" "value4"]),
                Ok (walEntries ++ [pute 4 "key4" "value4"] ++ [dele 5 "key1"])) w' ∧
        disk w' !! filepath_Join "data/wal" "test.wal" =
          Some (writeEntries (walEntries ++ [pute 4 "key4" "value4"] ++ [dele 5 "key1"])).
Proof.
  assert (H0 : Forall wf_entry walEntries) by (unfold walEntries; solve_wf).
  assert (H1 : Forall wf_entry [pute 4 "key4" "value4"]) by solve_wf.
  assert (H2 : Forall wf_entry [dele 5 "key1"]) by solve_wf.
  assert (H3 : disk walWorld !! filepath_Join "data/wal" "test.wal" =
               Some (writeEntries walEntries)) by reflexivity.
  repeat (split; [assumption|]).
  exact (wal_recover_repeatable walWorld "data/wal" "test.wal" walEntries _ _ H0 H1 H2 H3).
Defined.

(** X19.  A closed WAL stays closed: once [Close] has succeeded, [Flush],
    a second [Close], [Recover] and [Remove] all return an error and leave
    the WAL and the file system as they are; [Recover] does not read the
    file. *)
Theorem wal_closed_stays_closed (wal wal' : WAL.t) (w w' : World) :
  WAL.Close wal w = Done (Ok wal') w' →
  WAL.isOpen wal' = false ∧
  WAL.Flush wal' w' = Done (Err (ErrWrap "failed to sync WAL file" ErrClosed)) w' ∧
  WAL.Close wal' w' = Done (Err (ErrWrap "failed to sync WAL file" ErrClosed)) w' ∧
  WAL.Recover wal' w' =
    Done (Err (ErrWrap "failed to close WAL for recovery"
                 (ErrWrap "failed to sync WAL file" ErrClosed)), wal') w' ∧
  WAL.Remove wal' w' = Done (Err (ErrWrap "failed to sync WAL file" ErrClosed)) w'.
Proof.
  unfold WAL.Close at 1, WAL.Flush at 1. destruct (WAL.isOpen wal) eqn:Ho.
  - run_M. intros H. inversion H; subst; clear H.
    split; [reflexivity|]. repeat split.
  - destruct (WAL.buf wal); run_M; discriminate.
Qed.

Lemma wal_closed_stays_closed_witness :
  WAL.Close {| WAL.path := filepath_Join "data/wal" "test.wal"; WAL.buf := [];
               WAL.isOpen := true |} walWorld =
    Done (Ok {| WAL.path := filepath_Join "data/wal" "test.wal"; WAL.buf := [];
                WAL.isOpen := false |}) walWorld ∧
  WAL.Close {| WAL.path := filepath_Join "data/wal" "test.wal"; WAL.buf := [];
               WAL.isOpen := false |} walWorld =
    Done (Err (ErrWrap "failed to sync WAL file" ErrClosed)) walWorld.
Proof.
  assert (H : WAL.Close {| WAL.path := filepath_Join "data/wal" "test.wal"; WAL.buf := [];
                           WAL.isOpen := true |} walWorld =
              Done (Ok {| WAL.path := filepath_Join "data/wal" "test.wal"; WAL.buf := [];
                          WAL.isOpen := false |}) walWorld)
    by (vm_compute; reflexivity).
  split; [exact H|].
  exact (proj1 (proj2 (proj2 (wal_closed_stays_closed _ _ _ _ H)))).
Defined.

(** X20.  [Remove] on an open WAL whose file exists succeeds: the WAL is
    left closed, its file is gone, and every other file is as it was. *)
Theorem wal_remove_deletes_file (wal : WAL.t) (w : World) :
  WAL.isOpen wal = true →
  is_Some (disk w !! WAL.path wal) →
  ∃ wal' w',
    WAL.Remove wal w = Done (Ok wal') w' ∧
    WAL.isOpen wal' = false ∧
    disk w' = delete (WAL.path wal) (disk w).
Proof.
  intros Ho [content Hc]. unfold WAL.Remove, WAL.Close, WAL.Flush. rewrite Ho.
  run_M. rewrite Hc. cbn. rewrite lookup_insert_eq.
  eexists _, _. split; [reflexivity|]. split; [reflexivity|].
  cbn. apply delete_insert_eq.
Qed.

Lemma wal_remove_deletes_file_witness :
  WAL.isOpen {| WAL.path := filepath_Join "data/wal" "test.wal"; WAL.buf := [];
                WAL.isOpen := true |} = true ∧
  is_Some (disk walWorld !! filepath_Join "data/wal" "test.wal") ∧
  ∃ wal' w',
    WAL.Remove {| WAL.path := filepath_Join "data/wal" "test.wal"; WAL.buf := [];
                  WAL.isOpen := true |} walWorld = Done (Ok wal') w' ∧
    WAL.isOpen wal' = false ∧
    disk w' = delete (filepath_Join "data/wal" "test.wal") (disk walWorld).
Proof.
  assert (H1 : WAL.isOpen {| WAL.path := filepath_Join "data/wal" "test.wal"; WAL.buf := [];
                             WAL.isOpen := true |} = true) by reflexivity.
  assert (H2 : is_Some (disk walWorld !! filepath_Join "data/wal" "test.wal"))
    by (eexists; reflexivity).
  split; [exact H1|]. split; [exact H2|].
  exact (wal_remove_deletes_file _ walWorld H1 H2).
Defined.

(** ** CompactionManager: selection and execution *)

Lemma cells_world s (w w' : World) cs : Slice.cells s w = Done cs w' → w' = w.
Proof.
  unfold Slice.cells. destruct (Slice.slen s); [intros H; inversion H; reflexivity|].
  destruct (arrays w !! Slice.sarr s); [|discriminate].
  intros H; inversion H; reflexivity.
Qed.

Lemma elems_world s (w w' : World) ts : Slice.elems s w = Done ts w' → w' = w.
Proof.
  unfold Slice.elems. rewrite mbind_unfold.
  destruct (Slice.cells s w) as [cs w1|] eqn:E; [|discriminate].
  apply cells_world in E as ->.
  destruct (Slice.deref_all cs); [|discriminate].
  intros H; inversion H; reflexivity.
Qed.

Lemma elems_nil_slice (w : World) s : Slice.slen s = 0%nat → Slice.elems s w = Done [] w.
Proof. intros H. unfold Slice.elems, Slice.cells. rewrite mbind_unfold, H. reflexivity. Qed.

Lemma shouldCompactLeveled_fold cm (w w' : World) l b :
  foldM (fun (found : bool) '(level, tables) =>
           if found then ret true
           else if level =? 0
           then ret (CompactionManager.maxSSTablesLevel0 cm <=? Z.of_nat (Slice.slen tables))
           else
             ts ← Slice.elems tables;
             ret (CompactionManager.maxSizeForLevel cm level <?
                  CompactionManager.calculateTotalSize ts))
        l b w = Done false w' →
  b = false ∧ w' = w ∧ Forall (fun '(level, tables) => levelInBounds cm w level tables) l.
Proof.
  revert b w. induction l as [|[level tables] l IH]; intros b w.
  - cbn. intros H. inversion H. auto.
  - cbn [foldM]. rewrite mbind_unfold. destruct b.
    + cbn [ret mret M_ret]. intros H. apply IH in H as [H _]. discriminate.
    + destruct (Z.eqb_spec level 0) as [E|N].
      * cbn [ret mret M_ret]. intros H. apply IH in H as (Hb & -> & Hall).
        split; [reflexivity|]. split; [reflexivity|]. constructor; [|exact Hall].
        unfold levelInBounds. rewrite E. cbn. apply Z.leb_gt. exact Hb.
      * rewrite mbind_unfold.
        destruct (Slice.elems tables w) as [ts w1|] eqn:Et; [|discriminate].
        pose proof (elems_world _ _ _ _ Et) as ->.
        cbn [ret mret M_ret]. intros H. apply IH in H as (Hb & -> & Hall).
        split; [reflexivity|]. split; [reflexivity|]. constructor; [|exact Hall].
        unfold levelInBounds. destruct (Z.eqb_spec level 0); [contradiction|].
        exists ts. split; [exact Et|]. apply Z.ltb_ge. exact Hb.
Qed.

Lemma selectFromLevel_none cm (m : gmap Z Slice.t) (w : World) n level :
  (∀ lv tables, m !! lv = Some tables → levelInBounds cm w lv tables) →
  0 < level →
  CompactionManager.selectFromLevel cm m n level w = Done None w.
Proof.
  intros Hall. revert level. induction n as [|n IH]; intros level Hpos; [reflexivity|].
  cbn [CompactionManager.selectFromLevel].
  destruct (Nat.eqb_spec (Slice.slen (CompactionManager.lookup_level m level)) 0) as [E|N].
  - apply IH. lia.
  - unfold CompactionManager.lookup_level in *.
    destruct (m !! level) as [tables|] eqn:El; [|cbn in N; contradiction].
    cbn [from_option id] in *. pose proof (Hall _ _ El) as Hb. unfold levelInBounds in Hb.
    destruct (Z.eqb_spec level 0); [lia|]. destruct Hb as (ts & Hts & Hle).
    rewrite mbind_unfold, Hts.
    destruct (Z.ltb_spec (CompactionManager.maxSizeForLevel cm level)
                (CompactionManager.calculateTotalSize ts)); [lia|].
    apply IH. lia.
Qed.

(** X21.  Under the leveled strategy, which the service uses, when
    [ShouldCompact] says that no compaction is needed
    [SelectCompactionTask] selects nothing: it returns nil and leaves the
    tables as they are. *)
Theorem leveled_select_nothing_when_not_needed
    (sstablesByLevel : gmap Z Slice.t) (w w' : World) :
  CompactionManager.ShouldCompact
    (CompactionManager.NewCompactionManager LeveledCompaction) sstablesByLevel w =
    Done false w' →
  CompactionManager.SelectCompactionTask
    (CompactionManager.NewCompactionManager LeveledCompaction) sstablesByLevel w =
    Done None w.
Proof.
  set (cm := CompactionManager.NewCompactionManager LeveledCompaction).
  unfold CompactionManager.ShouldCompact, CompactionManager.SelectCompactionTask.
  cbn [CompactionManager.strategy cm CompactionManager.NewCompactionManager].
  unfold CompactionManager.shouldCompactLeveled. intros H.
  apply shouldCompactLeveled_fold in H as (_ & -> & Hall).
  assert (Hlv : ∀ lv tables, sstablesByLevel !! lv = Some tables →
                             levelInBounds cm w lv tables).
  { intros lv tables Hl. rewrite Forall_forall in Hall.
    apply (Hall (lv, tables)). apply elem_of_map_to_list. exact Hl. }
  unfold CompactionManager.selectLeveledCompaction.
  assert (H0 : Z.of_nat (Slice.slen (CompactionManager.lookup_level sstablesByLevel 0)) <
               CompactionManager.maxSSTablesLevel0 cm).
  { unfold CompactionManager.lookup_level.
    destruct (sstablesByLevel !! 0) as [tables|] eqn:E0.
    - exact (Hlv 0 tables E0).
    - cbn. lia. }
  destruct (Z.leb_spec (CompactionManager.maxSSTablesLevel0 cm)
              (Z.of_nat (Slice.slen (CompactionManager.lookup_level sstablesByLevel 0))))
    as [Hge|Hlt]; [lia|].
  apply selectFromLevel_none; [exact Hlv|lia].
Qed.

Lemma leveled_select_nothing_when_not_needed_witness :
  CompactionManager.ShouldCompact
    (CompactionManager.NewCompactionManager LeveledCompaction)
    {[ 0 := InputSSTables (exampleTask mixedFiles) ]} (exampleWorld mixedFiles) =
    Done false (exampleWorld mixedFiles) ∧
  CompactionManager.SelectCompactionTask
    (CompactionManager.NewCompactionManager LeveledCompaction)
    {[ 0 := InputSSTables (exampleTask mixedFiles) ]} (exampleWorld mixedFiles) =
    Done None (exampleWorld mixedFiles).
Proof.
  assert (H : CompactionManager.ShouldCompact
                (CompactionManager.NewCompactionManager LeveledCompaction)
                {[ 0 := InputSSTables (exampleTask mixedFiles) ]} (exampleWorld mixedFiles) =
              Done false (exampleWorld mixedFiles)) by (vm_compute; reflexivity).
  split; [exact H|].
  exact (leveled_select_nothing_when_not_needed _ _ _ H).
Defined.



Lemma foldM_AddEntry_world es b (w w' : World) b' :
  foldM SSTableBuilder.AddEntry es b w = Done b' w' → w' = w.
Proof.
  revert b. induction es as [|e es IH]; intros b.
  - intros H. inversion H. reflexivity.
  - cbn [foldM]. rewrite mbind_unfold. unfold SSTableBuilder.AddEntry at 1.
    destruct (BloomFilter.Add (SSTableBuilder.bloomFilter b) (key e)); [|discriminate].
    cbn [ret mret M_ret]. apply IH.
Qed.




(** ** LSMTableService *)

Lemma activePut_ok s k v (w w1 : World) s1 :
  LSMTableService.activePut s k v w = Done (None, s1) w1 →
  MemTable.Get (LSMTableService.activeTable s1) k = Ok (NewPutEntryAt (clock w) k v) ∧
  LSMTableService.immutableTables s1 = LSMTableService.immutableTables s ∧ LSMTableService.wal
      s1 = LSMTableService.wal s ∧
  disk w1 = disk w.
Proof.
  unfold LSMTableService.activePut. destruct (MemTable.readOnly (LSMTableService.activeTable
      s)) eqn:Hro; [discriminate|].
  rewrite mbind_unfold. unfold time_Now.
  destruct (MemTable.Put (LSMTableService.activeTable s) (clock w) k v) as [mt|e] eqn:E;
      [|discriminate].
  intros H. inversion H; subst; clear H. cbn.
  split; [|auto].
  unfold MemTable.Put in E. rewrite Hro in E.
  destruct (negb _ && _); [discriminate|]. inversion E; subst.
  unfold MemTable.Get. cbn. rewrite lookup_insert_eq. reflexivity.
Qed.

Lemma activeDelete_ok s k (w w1 : World) s1 :
  LSMTableService.activeDelete s k w = Done (None, s1) w1 →
  MemTable.Get (LSMTableService.activeTable s1) k = Ok (NewDeleteEntryAt (clock w) k) ∧
  LSMTableService.immutableTables s1 = LSMTableService.immutableTables s ∧ LSMTableService.wal
      s1 = LSMTableService.wal s ∧
  disk w1 = disk w.
Proof.
  unfold LSMTableService.activeDelete. destruct (MemTable.readOnly (LSMTableService.activeTable
      s)) eqn:Hro; [discriminate|].
  rewrite mbind_unfold. unfold time_Now.
  destruct (MemTable.Delete (LSMTableService.activeTable s) (clock w) k) as [mt|e] eqn:E;
      [|discriminate].
  intros H. inversion H; subst; clear H. cbn.
  split; [|auto].
  unfold MemTable.Delete in E. rewrite Hro in E.
  destruct (negb _ && _); [discriminate|]. inversion E; subst.
  unfold MemTable.Get. cbn. rewrite lookup_insert_eq. reflexivity.
Qed.

Lemma walFlush_state s (w w' : World) r s' :
  LSMTableService.walFlush s w = Done (r, s') w' →
  LSMTableService.activeTable s' = LSMTableService.activeTable s ∧
      LSMTableService.immutableTables s' = LSMTableService.immutableTables s.
Proof.
  unfold LSMTableService.walFlush. destruct (LSMTableService.wal s) as [wl|]; [|discriminate].
  rewrite mbind_unfold. destruct (WAL.Flush wl w) as [[wl'|e] w1|]; [| |discriminate];
    intros H; inversion H; subst; auto.
Qed.

Lemma walWrite_state s entry (w w' : World) r s' :
  LSMTableService.walWrite s entry w = Done (r, s') w' →
  r = None ∧ w' = w ∧
  LSMTableService.activeTable s' = LSMTableService.activeTable s ∧
      LSMTableService.immutableTables s' = LSMTableService.immutableTables s ∧
  LSMTableService.sstableDir s' = LSMTableService.sstableDir s ∧ LSMTableService.walCounter s'
      = LSMTableService.walCounter s ∧
  ∃ wl, LSMTableService.wal s = Some wl ∧
        LSMTableService.wal s' = Some {| WAL.path := WAL.path wl;
                         WAL.buf := WAL.buf wl ++ writeEntry entry;
                         WAL.isOpen := WAL.isOpen wl |}.
Proof.
  unfold LSMTableService.walWrite. destruct (LSMTableService.wal s) as [wl|] eqn:Ew;
      [|discriminate].
  cbn. intros H. inversion H; subst. split_and!; try reflexivity.
  exists wl. auto.
Qed.

(** [freshService] in [freshWorld] is what [NewLSMTableService] returns for
    the directory "data" and three entries per memtable on an empty disk. *)
Lemma freshService_new :
  LSMTableService.NewLSMTableService "data" 3 emptyWorld = Done (Ok freshService) freshWorld.
Proof. vm_compute. reflexivity. Qed.

(** X23.  The service reads its own writes: when [Put] returns nil, a [Get]
    of the same key that follows at once returns the value just put,
    whatever the state of the service was, and whether or not the [Put]
    rotated the memtable. *)
Theorem service_get_after_put (s s' : LSMTableService.t) (k v : list byte)
    (w w' : World) :
  LSMTableService.Put s k v w = Done (None, s') w' →
  LSMTableService.Get s' k w' = Done (Ok v) w'.
Proof.
  intros H.
  assert (Hact : ∃ now, MemTable.Get (LSMTableService.activeTable s') k = Ok (NewPutEntryAt now
      k v)).
  { unfold LSMTableService.Put in H. rewrite mbind_unfold in H.
    unfold NewPutEntry in H. rewrite mbind_unfold in H. unfold time_Now in H at 1.
    cbn [ret mret M_ret] in H. rewrite mbind_unfold in H.
    destruct (LSMTableService.walWrite s _ _) as [[err1 s1] w1|] eqn:E1; [|discriminate].
    apply walWrite_state in E1 as (-> & -> & _).
    rewrite mbind_unfold in H.
    destruct (LSMTableService.activePut s1 k v _) as [[err2 s2] w2|] eqn:E2; [|discriminate].
    rewrite mbind_unfold in H.
    destruct err2 as [e2|].
    - destruct e2; try (cbn [ret mret M_ret] in H; discriminate).
      rewrite mbind_unfold in H.
      destruct (LSMTableService.rotateMemTable s2 w2) as [[err3 s3] w3|] eqn:E3;
          [|discriminate].
      destruct err3 as [e3|]; [cbn [ret mret M_ret] in H; discriminate|].
      rewrite mbind_unfold in H.
      destruct (LSMTableService.activePut s3 k v w3) as [[err4 s4] w4|] eqn:E4; [|discriminate].
      destruct err4 as [e4|]; [cbn [ret mret M_ret] in H; discriminate|].
      cbn [ret mret M_ret] in H.
      apply activePut_ok in E4 as (HG & _).
      apply walFlush_state in H as (Ha & _). rewrite Ha. eauto.
    - cbn [ret mret M_ret] in H.
      apply activePut_ok in E2 as (HG & _).
      apply walFlush_state in H as (Ha & _). rewrite Ha. eauto. }
  destruct Hact as (now & HG). unfold LSMTableService.Get. rewrite HG. reflexivity.
Qed.

Lemma service_get_after_put_witness :
  ∃ s' w',
    LSMTableService.Put freshService (bytes_of_string "test_key")
      (bytes_of_string "test_value") freshWorld = Done (None, s') w' ∧
    LSMTableService.Get s' (bytes_of_string "test_key") w' =
      Done (Ok (bytes_of_string "test_value")) w'.
Proof.
  destruct (LSMTableService.Put freshService (bytes_of_string "test_key")
              (bytes_of_string "test_value") freshWorld)
    as [[[e|] s'] w'|msg] eqn:E.
  - vm_compute in E. discriminate E.
  - exists s', w'. split; [reflexivity|].
    exact (service_get_after_put _ _ _ _ _ _ E).
  - vm_compute in E. discriminate E.
Defined.


Lemma Close_open wl (w : World) :
  WAL.isOpen wl = true →
  WAL.Close wl w =
  Done (Ok {| WAL.path := WAL.path wl; WAL.buf := []; WAL.isOpen := false |})
       {| disk := <[WAL.path wl := default [] (disk w !! WAL.path wl) ++ WAL.buf wl]> (disk w);
          clock := clock w; arrays := arrays w; next_array := next_array w;
          next_addr := next_addr w |}.
Proof. intros Ho. unfold WAL.Close, WAL.Flush. rewrite Ho. reflexivity. Qed.

Lemma Close_closed wl (w : World) :
  WAL.isOpen wl = false → ∃ e, WAL.Close wl w = Done (Err e) w.
Proof.
  intros Ho. unfold WAL.Close, WAL.Flush. rewrite Ho.
  destruct (WAL.buf wl); eexists; reflexivity.
Qed.

Lemma NewWAL_spec dir filename (w : World) :
  ∃ w', WAL.NewWAL dir filename w =
          Done (Ok {| WAL.path := filepath_Join dir filename; WAL.buf := [];
                      WAL.isOpen := true |}) w' ∧
        arrays w' = arrays w ∧ clock w' = clock w ∧
        (∀ p, is_Some (disk w !! p) → disk w' !! p = disk w !! p) ∧
        (∀ p, p ≠ filepath_Join dir filename → disk w' !! p = disk w !! p).
Proof.
  unfold WAL.NewWAL. remember (filepath_Join dir filename) as path eqn:Ep. clear Ep.
  rewrite mbind_unfold. unfold get_disk. rewrite mbind_unfold.
  destruct (disk w !! path) as [c|] eqn:E.
  - exists w. split; [reflexivity|]. auto.
  - eexists. split; [reflexivity|]. cbn. split_and!; try reflexivity.
    + intros p [c Hc]. apply lookup_insert_ne. congruence.
    + intros p Hp. apply lookup_insert_ne. congruence.
Qed.

Lemma createNewActiveTable_inv s (w w' : World) r s' :
  LSMTableService.createNewActiveTable s w = Done (r, s') w' →
  match r with
  | Some _ =>
      s' = s ∧ w' = w ∧ ∃ wl, LSMTableService.wal s = Some wl ∧ WAL.isOpen wl = false
  | None =>
      LSMTableService.immutableTables s' = LSMTableService.immutableTables s ∧
      LSMTableService.sstablesByLevel s' = LSMTableService.sstablesByLevel s ∧
      LSMTableService.sstableDir s' = LSMTableService.sstableDir s ∧
      LSMTableService.compactionManager s' = LSMTableService.compactionManager s ∧
      LSMTableService.pendingCompactions s' = LSMTableService.pendingCompactions s ∧
      LSMTableService.maxTableSize s' = LSMTableService.maxTableSize s ∧
      LSMTableService.walCounter s' = LSMTableService.walCounter s + 1 ∧
      LSMTableService.activeTable s' = MemTable.NewMemTable (LSMTableService.maxTableSize s) ∧
      (∃ wl', LSMTableService.wal s' = Some wl' ∧ WAL.isOpen wl' = true ∧ WAL.buf wl' = []) ∧
      arrays w' = arrays w ∧ clock w' = clock w ∧
      (∀ wl, LSMTableService.wal s = Some wl →
             WAL.isOpen wl = true ∧
             disk w' !! WAL.path wl =
               Some (default [] (disk w !! WAL.path wl) ++ WAL.buf wl)) ∧
      (∀ p, is_Some (disk w !! p) → is_Some (disk w' !! p))
  end.
Proof.
  unfold LSMTableService.createNewActiveTable. rewrite mbind_unfold.
  destruct (LSMTableService.wal s) as [wl|] eqn:Ew.
  - rewrite mbind_unfold. destruct (WAL.isOpen wl) eqn:Ho.
    + rewrite (Close_open _ _ Ho). cbn [ret mret M_ret]. rewrite mbind_unfold.
      match goal with |- context [WAL.NewWAL ?d ?f ?w1] =>
        destruct (NewWAL_spec d f w1) as (w2 & -> & Ha & Hc & Hold & Hne) end.
      cbn [ret mret M_ret]. intros H. inversion H; subst; clear H.
      cbn in *. split_and!; try reflexivity; eauto.
      * intros wl0 Hwl0. inversion Hwl0; subst. split; [exact Ho|].
        rewrite Hold by (rewrite lookup_insert_eq; eauto). apply lookup_insert_eq.
      * intros p [c Hp]. rewrite Hold.
        -- destruct (decide (p = WAL.path wl)) as [->|Hn].
           ++ rewrite lookup_insert_eq. eauto.
           ++ rewrite lookup_insert_ne by congruence. eauto.
        -- destruct (decide (p = WAL.path wl)) as [->|Hn].
           ++ rewrite lookup_insert_eq. eauto.
           ++ rewrite lookup_insert_ne by congruence. eauto.
    + destruct (Close_closed wl w Ho) as [e ->]. cbn [ret mret M_ret].
      intros H. inversion H; subst. eauto.
  - cbn [ret mret M_ret]. rewrite mbind_unfold.
    match goal with |- context [WAL.NewWAL ?d ?f ?w1] =>
      destruct (NewWAL_spec d f w1) as (w2 & -> & Ha & Hc & Hold & Hne) end.
    cbn [ret mret M_ret]. intros H. inversion H; subst; clear H.
    cbn in *. split_and!; try reflexivity; eauto.
    + intros wl0 Hwl0. discriminate.
    + intros p Hp. rewrite Hold; auto.
Qed.

Lemma sameMem_refl s : sameMem s s.
Proof. unfold sameMem. auto 10. Qed.

Lemma sameMem_trans s1 s2 s3 : sameMem s1 s2 → sameMem s2 s3 → sameMem s1 s3.
Proof. unfold sameMem. intros (?&?&?&?&?&?) (?&?&?&?&?&?). split_and!; congruence. Qed.

Lemma write_disk s i xs (w w' : World) :
  Slice.write s i xs w = Done tt w' → disk w' = disk w.
Proof.
  unfold Slice.write. destruct xs; [intros H; inversion H; reflexivity|].
  destruct (arrays w !! Slice.sarr s); [|discriminate].
  intros H; inversion H; reflexivity.
Qed.

Lemma append_disk s xs (w w' : World) s' :
  Slice.append s xs w = Done s' w' → disk w' = disk w.
Proof.
  unfold Slice.append. destruct (_ <=? _)%nat.
  - rewrite mbind_unfold. destruct (Slice.write s _ xs w) as [[] w1|] eqn:E; [|discriminate].
    apply write_disk in E. intros H; inversion H; subst. exact E.
  - rewrite mbind_unfold. destruct (Slice.cells s w) as [cs w1|] eqn:E; [|discriminate].
    apply cells_world in E as ->. rewrite mbind_unfold. unfold Slice.alloc.
    intros H; inversion H; reflexivity.
Qed.

Lemma reslice_world s lo hi (w w' : World) s' :
  Slice.reslice s lo hi w = Done s' w' → w' = w.
Proof.
  unfold Slice.reslice. destruct (_ && _); [|discriminate].
  intros H; inversion H; reflexivity.
Qed.

Lemma get_world s i (w w' : World) x : Slice.get s i w = Done x w' → w' = w.
Proof.
  unfold Slice.get. destruct (_ <? _)%nat; [|discriminate].
  destruct (arrays w !! Slice.sarr s) as [a|]; [|discriminate].
  destruct (a !! _) as [[y|]|]; try discriminate.
  intros H; inversion H; reflexivity.
Qed.

Lemma ShouldCompact_world cm m (w w' : World) b :
  CompactionManager.ShouldCompact cm m w = Done b w' → w' = w.
Proof.
  unfold CompactionManager.ShouldCompact. destruct (CompactionManager.strategy cm).
  - intros H; inversion H; reflexivity.
  - unfold CompactionManager.shouldCompactLeveled.
    generalize false. generalize (map_to_list m). intros l. revert w.
    induction l as [|[level tables] l IH]; intros w b0.
    + intros H; inversion H; reflexivity.
    + cbn [foldM]. rewrite mbind_unfold. destruct b0.
      * cbn [ret mret M_ret]. apply IH.
      * destruct (level =? 0).
        -- cbn [ret mret M_ret]. apply IH.
        -- rewrite mbind_unfold.
           destruct (Slice.elems tables w) as [ts w1|] eqn:E; [|discriminate].
           apply elems_world in E as ->. cbn [ret mret M_ret]. apply IH.
Qed.

Lemma Build_disk b dir filename (w w' : World) r :
  SSTableBuilder.Build b dir filename w = Done r w' →
  ∀ p, p ≠ filepath_Join dir filename → disk w' !! p = disk w !! p.
Proof.
  unfold SSTableBuilder.Build. destruct (SSTableBuilder.entries b).
  - intros H; inversion H; reflexivity.
  - remember (filepath_Join dir filename) as path eqn:Ep.
    intros H; inversion H; subst w'; clear H. cbn.
    intros p Hp. apply lookup_insert_ne. congruence.
Qed.

Lemma flushImmutableTableInternal_inv s (w w' : World) s' :
  LSMTableService.flushImmutableTableInternal s w = Done s' w' →
  LSMTableService.activeTable s' = LSMTableService.activeTable s ∧
  LSMTableService.immutableTables s' = tail (LSMTableService.immutableTables s) ∧
  LSMTableService.wal s' = LSMTableService.wal s ∧
  LSMTableService.walCounter s' = LSMTableService.walCounter s ∧
  LSMTableService.sstableDir s' = LSMTableService.sstableDir s ∧ LSMTableService.maxTableSize
      s' = LSMTableService.maxTableSize s ∧
  ∀ p, p ≠ filepath_Join (LSMTableService.sstableDir s)
             ("sstable_L0_" +:+ pretty (LSMTableService.walCounter s) +:+ ".sst") →
       disk w' !! p = disk w !! p.
Proof.
  unfold LSMTableService.flushImmutableTableInternal.
  destruct (LSMTableService.immutableTables s) as [|mt rest] eqn:Ei.
  { intros H; inversion H; subst. rewrite Ei. auto 10. }
  destruct (MemTable.GetAllEntries mt) as [|e0 es0] eqn:Ee.
  { intros H; inversion H; subst. cbn. auto 10. }
  rewrite mbind_unfold.
  destruct (foldM SSTableBuilder.AddEntry (e0 :: es0) _ w) as [b w1|] eqn:E1; [|discriminate].
  apply foldM_AddEntry_world in E1 as ->.
  rewrite mbind_unfold. cbn [LSMTableService.sstableDir LSMTableService.walCounter
      LSMTableService.with_immutableTables].
  destruct (SSTableBuilder.Build b _ _ w) as [r w1|] eqn:E2; [|discriminate].
  pose proof (Build_disk _ _ _ _ _ _ E2) as Hd.
  destruct r as [sstable|e].
  2:{ intros H; inversion H; subst. cbn. split_and!; auto. }
  rewrite mbind_unfold.
  destruct (Slice.append _ _ w1) as [level0 w2|] eqn:E3; [|discriminate].
  apply append_disk in E3. rewrite mbind_unfold.
  destruct (CompactionManager.ShouldCompact _ _ w2) as [c w3|] eqn:E4; [|discriminate].
  apply ShouldCompact_world in E4 as ->.
  destruct c; intros H; inversion H; subst; cbn;
    (split_and!; auto); intros p Hp; rewrite E3; auto.
Qed.

Lemma rotateMemTable_inv s (w w' : World) r s' :
  LSMTableService.rotateMemTable s w = Done (r, s') w' →
  match r with
  | Some _ => ∃ wl, LSMTableService.wal s = Some wl ∧ WAL.isOpen wl = false
  | None =>
      LSMTableService.immutableTables s' =
        tail (LSMTableService.immutableTables s ++ [MemTable.SetReadOnly
            (LSMTableService.activeTable s)]) ∧
      LSMTableService.activeTable s' = MemTable.NewMemTable (LSMTableService.maxTableSize s) ∧
      (∃ wl', LSMTableService.wal s' = Some wl' ∧ WAL.isOpen wl' = true ∧ WAL.buf wl' = []) ∧
      LSMTableService.walCounter s' = LSMTableService.walCounter s + 1 ∧
      LSMTableService.sstableDir s' = LSMTableService.sstableDir s ∧
          LSMTableService.maxTableSize s' = LSMTableService.maxTableSize s ∧
      (∀ wl, LSMTableService.wal s = Some wl →
             WAL.isOpen wl = true ∧
             (WAL.path wl ≠ nextFlushPath s →
              disk w' !! WAL.path wl =
                Some (default [] (disk w !! WAL.path wl) ++ WAL.buf wl)))
  end.
Proof.
  unfold LSMTableService.rotateMemTable. rewrite mbind_unfold.
  destruct (LSMTableService.createNewActiveTable _ w) as [[err s1] w1|] eqn:E1; [|discriminate].
  apply createNewActiveTable_inv in E1.
  destruct err as [e|].
  - destruct E1 as (-> & -> & wl & Hwl & Ho). cbn [ret mret M_ret].
    intros H; inversion H; subst. exists wl. split; [exact Hwl|exact Ho].
  - destruct E1 as (Hi & Hss & Hsd & Hcm & Hpc & Hmx & Hwc & Hat & Hw' & Harr & Hclk & Hold &
      Hkeep).
    rewrite mbind_unfold.
    destruct (LSMTableService.flushImmutableTableInternal s1 w1) as [s2 w2|] eqn:E2;
        [|discriminate].
    apply flushImmutableTableInternal_inv in E2 as (Ha2 & Hi2 & Hw2 & Hwc2 & Hsd2 & Hmx2 & Hd2).
    cbn [ret mret M_ret]. intros H; inversion H; subst; clear H.
    cbn in Hi, Hss, Hsd, Hcm, Hpc, Hmx, Hwc, Hat, Hold.
    split_and!.
    + rewrite Hi2, Hi. reflexivity.
    + rewrite Ha2, Hat. reflexivity.
    + rewrite Hw2. exact Hw'.
    + rewrite Hwc2, Hwc. reflexivity.
    + rewrite Hsd2, Hsd. reflexivity.
    + rewrite Hmx2, Hmx. reflexivity.
    + intros wl Hwl. destruct (Hold wl Hwl) as [Ho Hdisk]. split; [exact Ho|].
      intros Hne. rewrite Hd2; [exact Hdisk|].
      rewrite Hsd, Hwc. exact Hne.
Qed.

Lemma activePut_err s k v (w w1 : World) e s1 :
  LSMTableService.activePut s k v w = Done (Some e, s1) w1 → s1 = s ∧ disk w1 = disk w.
Proof.
  unfold LSMTableService.activePut. destruct (MemTable.readOnly (LSMTableService.activeTable
      s)).
  - intros H; inversion H; auto.
  - rewrite mbind_unfold. unfold time_Now.
    destruct (MemTable.Put _ _ _ _); intros H; inversion H; auto.
Qed.

Lemma activeDelete_err s k (w w1 : World) e s1 :
  LSMTableService.activeDelete s k w = Done (Some e, s1) w1 → s1 = s ∧ disk w1 = disk w.
Proof.
  unfold LSMTableService.activeDelete. destruct (MemTable.readOnly (LSMTableService.activeTable
      s)).
  - intros H; inversion H; auto.
  - rewrite mbind_unfold. unfold time_Now.
    destruct (MemTable.Delete _ _ _); intros H; inversion H; auto.
Qed.

Lemma activePut_same s k v (w w1 : World) s1 :
  LSMTableService.activePut s k v w = Done (None, s1) w1 →
  LSMTableService.sstableDir s1 = LSMTableService.sstableDir s ∧ LSMTableService.walCounter s1
      = LSMTableService.walCounter s.
Proof.
  unfold LSMTableService.activePut. destruct (MemTable.readOnly (LSMTableService.activeTable
      s)); [discriminate|].
  rewrite mbind_unfold. unfold time_Now.
  destruct (MemTable.Put _ _ _ _); intros H; inversion H; auto.
Qed.

(** The ways through [Put]: the entry goes to the buffer of the WAL; then
    either the memtable takes it, or the memtable is full, is rotated and
    the new one takes it, or the call fails. *)
Lemma Put_inv s k v (w w' : World) r s' :
  LSMTableService.Put s k v w = Done (r, s') w' →
  ∃ wl s1 w0,
    LSMTableService.wal s = Some wl ∧ disk w0 = disk w ∧
    LSMTableService.wal s1 = Some {| WAL.path := WAL.path wl;
                     WAL.buf := WAL.buf wl ++ writeEntry (NewPutEntryAt (clock w) k v);
                     WAL.isOpen := WAL.isOpen wl |} ∧
    LSMTableService.immutableTables s1 = LSMTableService.immutableTables s ∧
    LSMTableService.sstableDir s1 = LSMTableService.sstableDir s ∧ LSMTableService.walCounter
        s1 = LSMTableService.walCounter s ∧
    ((∃ s2 w2, LSMTableService.activePut s1 k v w0 = Done (None, s2) w2 ∧
               LSMTableService.walFlush s2 w2 = Done (r, s') w') ∨
     (∃ w2 s3 w3 s4 w4,
        LSMTableService.activePut s1 k v w0 = Done (Some ErrTableFull, s1) w2 ∧
        disk w2 = disk w0 ∧
        LSMTableService.rotateMemTable s1 w2 = Done (None, s3) w3 ∧
        LSMTableService.activePut s3 k v w3 = Done (None, s4) w4 ∧
        LSMTableService.walFlush s4 w4 = Done (r, s') w') ∨
     (∃ e, r = Some e)).
Proof.
  intros H. unfold LSMTableService.Put in H. rewrite mbind_unfold in H.
  unfold NewPutEntry in H. rewrite mbind_unfold in H. unfold time_Now in H at 1.
  cbn [ret mret M_ret] in H. rewrite mbind_unfold in H.
  destruct (LSMTableService.walWrite s _ _) as [[err1 s1] w1|] eqn:E1; [|discriminate].
  apply walWrite_state in E1 as (-> & -> & _ & Hi & Hsd & Hwc & wl & Hwl & Hwl1).
  exists wl, s1, {| disk := disk w; clock := clock w + 1; arrays := arrays w;
                    next_array := next_array w; next_addr := next_addr w |}.
  split; [exact Hwl|]. split; [reflexivity|].
  split; [exact Hwl1|]. split; [exact Hi|]. split; [exact Hsd|]. split; [exact Hwc|].
  rewrite mbind_unfold in H.
  destruct (LSMTableService.activePut s1 k v _) as [[err2 s2] w2|] eqn:E2; [|discriminate].
  rewrite mbind_unfold in H.
  destruct err2 as [e2|].
  - pose proof (activePut_err _ _ _ _ _ _ _ E2) as [-> Hd2].
    destruct e2; try solve [cbn [ret mret M_ret] in H; inversion H; subst; right; right; eauto].
    rewrite mbind_unfold in H.
    destruct (LSMTableService.rotateMemTable s1 w2) as [[err3 s3] w3|] eqn:E3; [|discriminate].
    destruct err3 as [e3|]; [cbn [ret mret M_ret] in H; inversion H; subst; right; right;
        eauto|].
    rewrite mbind_unfold in H.
    destruct (LSMTableService.activePut s3 k v w3) as [[err4 s4] w4|] eqn:E4; [|discriminate].
    destruct err4 as [e4|]; [cbn [ret mret M_ret] in H; inversion H; subst; right; right;
        eauto|].
    cbn [ret mret M_ret] in H.
    right; left. exists w2, s3, w3, s4, w4. auto.
  - cbn [ret mret M_ret] in H. left. exists s2, w2. auto.
Qed.

Lemma Delete_inv s k (w w' : World) r s' :
  LSMTableService.Delete s k w = Done (r, s') w' →
  ∃ wl s1 w0,
    LSMTableService.wal s = Some wl ∧ disk w0 = disk w ∧
    LSMTableService.wal s1 = Some {| WAL.path := WAL.path wl;
                     WAL.buf := WAL.buf wl ++ writeEntry (NewDeleteEntryAt (clock w) k);
                     WAL.isOpen := WAL.isOpen wl |} ∧
    LSMTableService.immutableTables s1 = LSMTableService.immutableTables s ∧
    LSMTableService.sstableDir s1 = LSMTableService.sstableDir s ∧ LSMTableService.walCounter
        s1 = LSMTableService.walCounter s ∧
    ((∃ s2 w2, LSMTableService.activeDelete s1 k w0 = Done (None, s2) w2 ∧
               LSMTableService.walFlush s2 w2 = Done (r, s') w') ∨
     (∃ w2 s3 w3 s4 w4,
        LSMTableService.activeDelete s1 k w0 = Done (Some ErrTableFull, s1) w2 ∧
        disk w2 = disk w0 ∧
        LSMTableService.rotateMemTable s1 w2 = Done (None, s3) w3 ∧
        LSMTableService.activeDelete s3 k w3 = Done (None, s4) w4 ∧
        LSMTableService.walFlush s4 w4 = Done (r, s') w') ∨
     (∃ e, r = Some e)).
Proof.
  intros H. unfold LSMTableService.Delete in H. rewrite mbind_unfold in H.
  unfold NewDeleteEntry in H. rewrite mbind_unfold in H. unfold time_Now in H at 1.
  cbn [ret mret M_ret] in H. rewrite mbind_unfold in H.
  destruct (LSMTableService.walWrite s _ _) as [[err1 s1] w1|] eqn:E1; [|discriminate].
  apply walWrite_state in E1 as (-> & -> & _ & Hi & Hsd & Hwc & wl & Hwl & Hwl1).
  exists wl, s1, {| disk := disk w; clock := clock w + 1; arrays := arrays w;
                    next_array := next_array w; next_addr := next_addr w |}.
  split; [exact Hwl|]. split; [reflexivity|].
  split; [exact Hwl1|]. split; [exact Hi|]. split; [exact Hsd|]. split; [exact Hwc|].
  rewrite mbind_unfold in H.
  destruct (LSMTableService.activeDelete s1 k _) as [[err2 s2] w2|] eqn:E2; [|discriminate].
  rewrite mbind_unfold in H.
  destruct err2 as [e2|].
  - pose proof (activeDelete_err _ _ _ _ _ _ E2) as [-> Hd2].
    destruct e2; try solve [cbn [ret mret M_ret] in H; inversion H; subst; right; right; eauto].
    rewrite mbind_unfold in H.
    destruct (LSMTableService.rotateMemTable s1 w2) as [[err3 s3] w3|] eqn:E3; [|discriminate].
    destruct err3 as [e3|]; [cbn [ret mret M_ret] in H; inversion H; subst; right; right;
        eauto|].
    rewrite mbind_unfold in H.
    destruct (LSMTableService.activeDelete s3 k w3) as [[err4 s4] w4|] eqn:E4; [|discriminate].
    destruct err4 as [e4|]; [cbn [ret mret M_ret] in H; inversion H; subst; right; right;
        eauto|].
    cbn [ret mret M_ret] in H.
    right; left. exists w2, s3, w3, s4, w4. auto.
  - cbn [ret mret M_ret] in H. left. exists s2, w2. auto.
Qed.

(** X24.  A deleted key is gone at once: when [Delete] returns nil, a
    [Get] of the same key that follows at once returns [ErrKeyNotFound],
    whatever older values of the key the memtables and SSTables hold. *)
Theorem service_get_after_delete (s s' : LSMTableService.t) (k : list byte)
    (w w' : World) :
  LSMTableService.Delete s k w = Done (None, s') w' →
  LSMTableService.Get s' k w' = Done (Err ErrKeyNotFound) w'.
Proof.
  intros H.
  assert (Hact : ∃ now, MemTable.Get (LSMTableService.activeTable s') k = Ok (NewDeleteEntryAt
      now k)).
  { apply Delete_inv in H as (wl & s1 & w0 & _ & _ & _ & _ & _ & _ & [H|[H|H]]).
    - destruct H as (s2 & w2 & E2 & HF).
      apply activeDelete_ok in E2 as (HG & _).
      apply walFlush_state in HF as (Ha & _). rewrite Ha. eauto.
    - destruct H as (w2 & s3 & w3 & s4 & w4 & _ & _ & _ & E4 & HF).
      apply activeDelete_ok in E4 as (HG & _).
      apply walFlush_state in HF as (Ha & _). rewrite Ha. eauto.
    - destruct H as [e He]. discriminate. }
  destruct Hact as (now & HG). unfold LSMTableService.Get. rewrite HG. reflexivity.
Qed.

Lemma service_get_after_delete_witness :
  ∃ s' w',
    LSMTableService.Delete freshService (bytes_of_string "test_key") freshWorld =
      Done (None, s') w' ∧
    LSMTableService.Get s' (bytes_of_string "test_key") w' =
      Done (Err ErrKeyNotFound) w'.
Proof.
  destruct (LSMTableService.Delete freshService (bytes_of_string "test_key") freshWorld)
    as [[[e|] s'] w'|msg] eqn:E.
  - vm_compute in E. discriminate E.
  - exists s', w'. split; [reflexivity|].
    exact (service_get_after_delete _ _ _ _ _ E).
  - vm_compute in E. discriminate E.
Defined.


Lemma walFlush_inv s (w w' : World) r s' :
  LSMTableService.walFlush s w = Done (r, s') w' →
  ∃ wl, LSMTableService.wal s = Some wl ∧
        match r with
        | Some _ => WAL.isOpen wl = false
        | None =>
            WAL.isOpen wl = true ∧
            disk w' = <[WAL.path wl := default [] (disk w !! WAL.path wl) ++ WAL.buf wl]>
                        (disk w)
        end.
Proof.
  unfold LSMTableService.walFlush. destruct (LSMTableService.wal s) as [wl|]; [|discriminate].
  rewrite mbind_unfold. unfold WAL.Flush. destruct (WAL.isOpen wl) eqn:Ho.
  - rewrite mbind_unfold. unfold get_disk. rewrite mbind_unfold. unfold set_disk.
    cbn [ret mret M_ret]. intros H; inversion H; subst. exists wl. auto.
  - destruct (WAL.buf wl); cbn [ret mret M_ret]; intros H; inversion H; subst;
      exists wl; auto.
Qed.

Lemma activePut_wal s k v (w w1 : World) r s1 :
  LSMTableService.activePut s k v w = Done (r, s1) w1 → LSMTableService.wal s1 =
      LSMTableService.wal s.
Proof.
  unfold LSMTableService.activePut. destruct (MemTable.readOnly (LSMTableService.activeTable
      s)).
  - intros H; inversion H; auto.
  - rewrite mbind_unfold. unfold time_Now.
    destruct (MemTable.Put _ _ _ _); intros H; inversion H; auto.
Qed.

Lemma activeDelete_wal s k (w w1 : World) r s1 :
  LSMTableService.activeDelete s k w = Done (r, s1) w1 → LSMTableService.wal s1 =
      LSMTableService.wal s.
Proof.
  unfold LSMTableService.activeDelete. destruct (MemTable.readOnly (LSMTableService.activeTable
      s)).
  - intros H; inversion H; auto.
  - rewrite mbind_unfold. unfold time_Now.
    destruct (MemTable.Delete _ _ _); intros H; inversion H; auto.
Qed.

Lemma flushAll_inv n s (w w' : World) s' :
  LSMTableService.flushAll n s w = Done s' w' →
  LSMTableService.wal s' = LSMTableService.wal s ∧
  (LSMTableService.immutableTables s = [] → s' = s ∧ w' = w).
Proof.
  revert s w. induction n as [|n IH]; intros s w.
  - intros H; inversion H; auto.
  - cbn [LSMTableService.flushAll]. destruct (LSMTableService.immutableTables s) as [|mt rest]
      eqn:Ei.
    + intros H; inversion H; auto.
    + rewrite mbind_unfold.
      destruct (LSMTableService.flushImmutableTableInternal s w) as [s1 w1|] eqn:E;
          [|discriminate].
      apply flushImmutableTableInternal_inv in E as (_ & _ & Hw & _).
      intros H. apply IH in H as [Hw' _]. split; [congruence|discriminate].
Qed.

Lemma Close_inv s (w w' : World) s' :
  LSMTableService.Close s w = Done (None, s') w' →
  ∀ wl, LSMTableService.wal s = Some wl → ∃ wl', LSMTableService.wal s' = Some wl' ∧ WAL.isOpen
      wl' = false.
Proof.
  unfold LSMTableService.Close. rewrite mbind_unfold.
  destruct (LSMTableService.flushAll _ s w) as [s1 w1|] eqn:E; [|discriminate].
  apply flushAll_inv in E as [Hw _]. rewrite Hw.
  intros H wl Hwl. rewrite Hwl in H. rewrite mbind_unfold in H.
  unfold WAL.Close, WAL.Flush in H. destruct (WAL.isOpen wl).
  - revert H. run_M. intros H. inversion H; subst. cbn. eauto.
  - destruct (WAL.buf wl); revert H; run_M; discriminate.
Qed.

(** X25.  After [Close] the service acknowledges no write: once [Close]
    has returned nil, every [Put] and every [Delete] returns an error. *)
Theorem service_closed_rejects_writes (s s1 : LSMTableService.t) (w w1 : World) :
  is_Some (LSMTableService.wal s) →
  LSMTableService.Close s w = Done (None, s1) w1 →
  (∀ k v r s2 w2, LSMTableService.Put s1 k v w1 = Done (r, s2) w2 → is_Some r) ∧
  (∀ k r s2 w2, LSMTableService.Delete s1 k w1 = Done (r, s2) w2 → is_Some r).
Proof.
  intros [wl Hwl] HC.
  destruct (Close_inv _ _ _ _ HC wl Hwl) as (wl1 & Hwl1 & Hclosed).
  split.
  - intros k v r s2 w2 H.
    apply Put_inv in H as (wl0 & sa & w0 & Hwl0 & _ & Hwa & _ & _ & _ & [H|[H|H]]).
    + destruct H as (sb & wb & E2 & HF).
      apply activePut_wal in E2. apply walFlush_inv in HF as (wlf & Hwlf & HF).
      rewrite E2, Hwa in Hwlf. inversion Hwlf; subst wlf. cbn in HF.
      rewrite Hwl1 in Hwl0. inversion Hwl0; subst wl0.
      destruct r; [eauto|]. destruct HF as [HF _]. congruence.
    + destruct H as (wb & s3 & w3 & s4 & w4 & _ & _ & HR & _).
      apply rotateMemTable_inv in HR as (_ & _ & _ & _ & _ & _ & HR).
      destruct (HR _ Hwa) as [Ho _]. cbn in Ho.
      rewrite Hwl1 in Hwl0. inversion Hwl0; subst wl0. congruence.
    + destruct H as [e ->]. eauto.
  - intros k r s2 w2 H.
    apply Delete_inv in H as (wl0 & sa & w0 & Hwl0 & _ & Hwa & _ & _ & _ & [H|[H|H]]).
    + destruct H as (sb & wb & E2 & HF).
      apply activeDelete_wal in E2. apply walFlush_inv in HF as (wlf & Hwlf & HF).
      rewrite E2, Hwa in Hwlf. inversion Hwlf; subst wlf. cbn in HF.
      rewrite Hwl1 in Hwl0. inversion Hwl0; subst wl0.
      destruct r; [eauto|]. destruct HF as [HF _]. congruence.
    + destruct H as (wb & s3 & w3 & s4 & w4 & _ & _ & HR & _).
      apply rotateMemTable_inv in HR as (_ & _ & _ & _ & _ & _ & HR).
      destruct (HR _ Hwa) as [Ho _]. cbn in Ho.
      rewrite Hwl1 in Hwl0. inversion Hwl0; subst wl0. congruence.
    + destruct H as [e ->]. eauto.
Qed.

Lemma service_closed_rejects_writes_witness :
  is_Some (LSMTableService.wal freshService) ∧
  ∃ s1 w1,
    LSMTableService.Close freshService freshWorld = Done (None, s1) w1 ∧
    (∀ k v r s2 w2, LSMTableService.Put s1 k v w1 = Done (r, s2) w2 → is_Some r) ∧
    (∀ k r s2 w2, LSMTableService.Delete s1 k w1 = Done (r, s2) w2 → is_Some r).
Proof.
  assert (H : is_Some (LSMTableService.wal freshService)) by (eexists; reflexivity).
  split; [exact H|].
  destruct (LSMTableService.Close freshService freshWorld) as [[[e|] s1] w1|msg] eqn:E.
  - vm_compute in E. discriminate E.
  - exists s1, w1. split; [reflexivity|].
    exact (service_closed_rejects_writes _ _ _ _ H E).
  - vm_compute in E. discriminate E.
Defined.


(** X26.  An acknowledged [Put] is in the write-ahead log on disk: when
    [Put] returns nil, the file of the WAL that was open when the call
    began ends with the record of the entry, also when the call rotated
    the memtable and the value went to the new one.  (The hypothesis keeps
    the file of the WAL apart from the SSTable that a rotation writes; the
    service names them differently.) *)
Theorem service_put_is_logged (s s' : LSMTableService.t) (wl : WAL.t)
    (k v : list byte) (w w' : World) :
  LSMTableService.wal s = Some wl →
  WAL.path wl ≠ nextFlushPath s →
  LSMTableService.Put s k v w = Done (None, s') w' →
  ∃ pre, disk w' !! WAL.path wl =
         Some (pre ++ writeEntry (NewPutEntryAt (clock w) k v)).
Proof.
  intros Hwl Hne H.
  apply Put_inv in H as (wl0 & s1 & w0 & Hwl0 & Hd0 & Hw1 & _ & Hsd & Hwc & [H|[H|H]]).
  - destruct H as (s2 & w2 & E2 & HF).
    pose proof (activePut_wal _ _ _ _ _ _ _ E2) as Hw2.
    apply activePut_ok in E2 as (_ & _ & _ & Hd2).
    apply walFlush_inv in HF as (wlf & Hwlf & _ & HF).
    rewrite Hw2, Hw1 in Hwlf. inversion Hwlf; subst wlf. cbn in HF.
    rewrite Hwl in Hwl0. inversion Hwl0; subst wl0.
    rewrite HF, lookup_insert_eq, app_assoc. eauto.
  - destruct H as (w2 & s3 & w3 & s4 & w4 & _ & Hd2 & HR & E4 & HF).
    rewrite Hwl in Hwl0. inversion Hwl0; subst wl0.
    apply rotateMemTable_inv in HR as (_ & _ & (wl3 & Hwl3 & Ho3 & Hb3) & _ & _ & _ & HR).
    destruct (HR _ Hw1) as [_ Hdisk]. cbn in Hdisk.
    specialize (Hdisk ltac:(unfold nextFlushPath in *; rewrite Hsd, Hwc; exact Hne)).
    pose proof (activePut_wal _ _ _ _ _ _ _ E4) as Hw4.
    apply activePut_ok in E4 as (_ & _ & _ & Hd4).
    apply walFlush_inv in HF as (wlf & Hwlf & _ & HF).
    rewrite Hw4, Hwl3 in Hwlf. inversion Hwlf; subst wlf.
    rewrite HF, Hb3, app_nil_r, Hd4.
    destruct (decide (WAL.path wl3 = WAL.path wl)) as [Ep|Np].
    + rewrite Ep, lookup_insert_eq, Hdisk. cbn. rewrite app_assoc. eauto.
    + rewrite lookup_insert_ne by exact Np. rewrite Hdisk, app_assoc. eauto.
  - destruct H as [e He]. discriminate.
Qed.

Lemma service_put_is_logged_witness :
  LSMTableService.wal freshService =
    Some {| WAL.path := "data/wal/wal_0.log"; WAL.buf := []; WAL.isOpen := true |} ∧
  "data/wal/wal_0.log" ≠ nextFlushPath freshService ∧
  ∃ s' w' pre,
    LSMTableService.Put freshService (bytes_of_string "test_key")
      (bytes_of_string "test_value") freshWorld = Done (None, s') w' ∧
    disk w' !! "data/wal/wal_0.log" =
      Some (pre ++ writeEntry (NewPutEntryAt (clock freshWorld)
                                 (bytes_of_string "test_key")
                                 (bytes_of_string "test_value"))).
Proof.
  assert (H1 : LSMTableService.wal freshService =
               Some {| WAL.path := "data/wal/wal_0.log"; WAL.buf := [];
                       WAL.isOpen := true |}) by reflexivity.
  assert (H2 : "data/wal/wal_0.log" ≠ nextFlushPath freshService)
    by (vm_compute; discriminate).
  split; [exact H1|]. split; [exact H2|].
  destruct (LSMTableService.Put freshService (bytes_of_string "test_key")
              (bytes_of_string "test_value") freshWorld)
    as [[[e|] s'] w'|msg] eqn:E.
  - vm_compute in E. discriminate E.
  - destruct (service_put_is_logged freshService s' _ _ _ freshWorld w' H1 H2 E)
      as [pre Hpre].
    exists s', w', pre. split; [reflexivity|exact Hpre].
  - vm_compute in E. discriminate E.
Defined.


Lemma with_sstablesByLevel_sameMem s x : sameMem s (LSMTableService.with_sstablesByLevel s x).
Proof. unfold sameMem. cbn. auto 10. Qed.

Lemma with_pendingCompactions_sameMem s x : sameMem s (LSMTableService.with_pendingCompactions
    s x).
Proof. unfold sameMem. cbn. auto 10. Qed.

Lemma removeInput_sameMem s t (w w' : World) s' :
  LSMTableService.removeInput s t w = Done s' w' → sameMem s s'.
Proof.
  unfold LSMTableService.removeInput. rewrite mbind_unfold.
  destruct (Slice.elems _ w) as [ts w1|]; [|discriminate].
  rewrite mbind_unfold.
  destruct (LSMTableService.indexOf t ts 0) as [i|].
  - rewrite mbind_unfold.
    destruct (Slice.reslice _ 0 i w1) as [front w2|]; [|discriminate].
    rewrite mbind_unfold.
    destruct (Slice.reslice _ (S i) _ w2) as [back w3|]; [|discriminate].
    rewrite mbind_unfold.
    destruct (Slice.cells back w3) as [moved w4|]; [|discriminate].
    rewrite mbind_unfold.
    destruct (Slice.append front moved w4) as [shrunk w5|]; [|discriminate].
    cbn [ret mret M_ret]. rewrite mbind_unfold.
    destruct (SSTable_Remove t w5) as [r w6|]; [|discriminate].
    intros H; inversion H; subst. apply with_sstablesByLevel_sameMem.
  - cbn [ret mret M_ret]. rewrite mbind_unfold.
    destruct (SSTable_Remove t w1) as [r w6|]; [|discriminate].
    intros H; inversion H; subst. apply sameMem_refl.
Qed.

Lemma removeInputs_sameMem n i input s (w w' : World) s' :
  LSMTableService.removeInputs n i input s w = Done s' w' → sameMem s s'.
Proof.
  revert i s w. induction n as [|n IH]; intros i s w.
  - intros H; inversion H; subst. apply sameMem_refl.
  - cbn [LSMTableService.removeInputs]. rewrite mbind_unfold.
    destruct (Slice.get input i w) as [t w1|]; [|discriminate].
    rewrite mbind_unfold.
    destruct (LSMTableService.removeInput s t w1) as [s1 w2|] eqn:E; [|discriminate].
    apply removeInput_sameMem in E. intros H. apply IH in H.
    eapply sameMem_trans; eauto.
Qed.

Lemma addOutputs_sameMem out s (w w' : World) s' :
  foldM LSMTableService.addOutput out s w = Done s' w' → sameMem s s'.
Proof.
  revert s w. induction out as [|t out IH]; intros s w.
  - intros H; inversion H; subst. apply sameMem_refl.
  - cbn [foldM]. rewrite mbind_unfold. unfold LSMTableService.addOutput at 1. rewrite
      mbind_unfold.
    destruct (Slice.append _ _ w) as [grown w1|]; [|discriminate].
    cbn [ret mret M_ret]. intros H. apply IH in H.
    eapply sameMem_trans; [apply with_sstablesByLevel_sameMem|exact H].
Qed.

Lemma runCompaction_sameMem s (w w' : World) s' :
  LSMTableService.runCompaction s w = Done s' w' → sameMem s s'.
Proof.
  unfold LSMTableService.runCompaction. rewrite mbind_unfold.
  destruct (CompactionManager.SelectCompactionTask _ _ w) as [[task|] w1|]; [| |discriminate].
  2:{ intros H; inversion H; subst. apply sameMem_refl. }
  rewrite mbind_unfold.
  destruct (CompactionManager.ExecuteCompaction _ task _ w1) as [[out|e] w2|]; [|
      |discriminate].
  2:{ intros H; inversion H; subst. apply sameMem_refl. }
  unfold LSMTableService.updateSSTablesAfterCompaction. rewrite mbind_unfold.
  destruct (LSMTableService.removeInputs _ 0 _ s w2) as [s1 w3|] eqn:E; [|discriminate].
  apply removeInputs_sameMem in E. intros H. apply addOutputs_sameMem in H.
  eapply sameMem_trans; eauto.
Qed.

Lemma scheduleCompaction_sameMem s (w w' : World) s' :
  LSMTableService.scheduleCompaction s w = Done s' w' → sameMem s s'.
Proof.
  unfold LSMTableService.scheduleCompaction. destruct (LSMTableService.pendingCompactions s) as
      [|n].
  - intros H; inversion H; subst. apply sameMem_refl.
  - intros H. apply runCompaction_sameMem in H.
    eapply sameMem_trans; [apply with_pendingCompactions_sameMem|exact H].
Qed.




Lemma replay_imm s e (w w' : World) s' :
  LSMTableService.replay s e w = Done (None, s') w' →
  LSMTableService.immutableTables s = [] → LSMTableService.immutableTables s' = [].
Proof.
  unfold LSMTableService.replay. destruct (IsDeleted e).
  - rewrite mbind_unfold.
    destruct (LSMTableService.activeDelete s (key e) w) as [[err s1] w1|] eqn:E1;
        [|discriminate].
    destruct err as [e1|].
    + pose proof (activeDelete_err _ _ _ _ _ _ E1) as [-> _].
      destruct e1; try discriminate.
      rewrite mbind_unfold.
      destruct (LSMTableService.rotateMemTable s w1) as [[err2 s2] w2|] eqn:E2; [|discriminate].
      destruct err2 as [e2|]; [discriminate|].
      rewrite mbind_unfold.
      destruct (LSMTableService.activeDelete s2 (key e) w2) as [[err3 s3] w3|] eqn:E3;
          [|discriminate].
      destruct err3; [discriminate|].
      apply rotateMemTable_inv in E2 as (Hi & _).
      apply activeDelete_ok in E3 as (_ & Hi3 & _).
      intros H Hs; inversion H; subst. rewrite Hi3, Hi, Hs. reflexivity.
    + apply activeDelete_ok in E1 as (_ & Hi & _).
      intros H Hs; inversion H; subst. rewrite Hi. exact Hs.
  - rewrite mbind_unfold.
    destruct (LSMTableService.activePut s (key e) (value e) w) as [[err s1] w1|] eqn:E1;
        [|discriminate].
    destruct err as [e1|].
    + pose proof (activePut_err _ _ _ _ _ _ _ E1) as [-> _].
      destruct e1; try discriminate.
      rewrite mbind_unfold.
      destruct (LSMTableService.rotateMemTable s w1) as [[err2 s2] w2|] eqn:E2; [|discriminate].
      destruct err2 as [e2|]; [discriminate|].
      rewrite mbind_unfold.
      destruct (LSMTableService.activePut s2 (key e) (value e) w2) as [[err3 s3] w3|] eqn:E3;
          [|discriminate].
      destruct err3; [discriminate|].
      apply rotateMemTable_inv in E2 as (Hi & _).
      apply activePut_ok in E3 as (_ & Hi3 & _).
      intros H Hs; inversion H; subst. rewrite Hi3, Hi, Hs. reflexivity.
    + apply activePut_ok in E1 as (_ & Hi & _).
      intros H Hs; inversion H; subst. rewrite Hi. exact Hs.
Qed.

Lemma replayAll_imm es s (w w' : World) s' :
  LSMTableService.replayAll es s w = Done (None, s') w' →
  LSMTableService.immutableTables s = [] → LSMTableService.immutableTables s' = [].
Proof.
  revert s w. induction es as [|e es IH]; intros s w.
  - intros H Hs; inversion H; subst. exact Hs.
  - cbn [LSMTableService.replayAll]. rewrite mbind_unfold.
    destruct (LSMTableService.replay s e w) as [[err s1] w1|] eqn:E; [|discriminate].
    destruct err; [discriminate|].
    intros H Hs. eapply IH; [exact H|]. eapply replay_imm; eauto.
Qed.

Lemma step_imm s op (w w' : World) r s' :
  step s op w = Done (r, s') w' →
  (∀ e, r ≠ RErr (Some e)) →
  LSMTableService.immutableTables s = [] → LSMTableService.immutableTables s' = [].
Proof.
  destruct op as [k v|k|k| | |]; cbn [step]; rewrite mbind_unfold.
  - destruct (LSMTableService.Put s k v w) as [[err s1] w1|] eqn:E; [|discriminate].
    intros H Hr Hs; inversion H; subst; clear H.
    destruct err as [e|]; [exfalso; eapply Hr; reflexivity|].
    apply Put_inv in E as (wl & s1 & w0 & _ & _ & _ & Hi1 & _ & _ & [H|[H|H]]).
    + destruct H as (s2 & w2 & E2 & HF).
      apply activePut_ok in E2 as (_ & Hi2 & _).
      apply walFlush_state in HF as (_ & Hi3). congruence.
    + destruct H as (w2 & s3 & w3 & s4 & w4 & _ & _ & HR & E4 & HF).
      apply rotateMemTable_inv in HR as (Hi3 & _).
      apply activePut_ok in E4 as (_ & Hi4 & _).
      apply walFlush_state in HF as (_ & Hi5).
      rewrite Hi5, Hi4, Hi3, Hi1, Hs. reflexivity.
    + destruct H as [e He]. discriminate.
  - destruct (LSMTableService.Delete s k w) as [[err s1] w1|] eqn:E; [|discriminate].
    intros H Hr Hs; inversion H; subst; clear H.
    destruct err as [e|]; [exfalso; eapply Hr; reflexivity|].
    apply Delete_inv in E as (wl & s1 & w0 & _ & _ & _ & Hi1 & _ & _ & [H|[H|H]]).
    + destruct H as (s2 & w2 & E2 & HF).
      apply activeDelete_ok in E2 as (_ & Hi2 & _).
      apply walFlush_state in HF as (_ & Hi3). congruence.
    + destruct H as (w2 & s3 & w3 & s4 & w4 & _ & _ & HR & E4 & HF).
      apply rotateMemTable_inv in HR as (Hi3 & _).
      apply activeDelete_ok in E4 as (_ & Hi4 & _).
      apply walFlush_state in HF as (_ & Hi5).
      rewrite Hi5, Hi4, Hi3, Hi1, Hs. reflexivity.
    + destruct H as [e He]. discriminate.
  - destruct (LSMTableService.Get s k w) as [res w1|]; [|discriminate].
    intros H _ Hs; inversion H; subst. exact Hs.
  - destruct (LSMTableService.scheduleCompaction s w) as [s1 w1|] eqn:E; [|discriminate].
    intros H _ Hs; inversion H; subst.
    apply scheduleCompaction_sameMem in E as (_ & Hi & _). congruence.
  - destruct (LSMTableService.Recovery s w) as [[err s1] w1|] eqn:E; [|discriminate].
    intros H Hr Hs; inversion H; subst; clear H.
    destruct err as [e|]; [exfalso; eapply Hr; reflexivity|].
    unfold LSMTableService.Recovery in E. destruct (LSMTableService.wal s) as [wl|].
    + rewrite mbind_unfold in E.
      destruct (WAL.Recover wl w) as [[res wl'] w2|]; [|discriminate].
      destruct res as [entries|e]; [|discriminate].
      eapply replayAll_imm; [exact E|exact Hs].
    + inversion E; subst. exact Hs.
  - destruct (LSMTableService.Close s w) as [[err s1] w1|] eqn:E; [|discriminate].
    intros H Hr Hs; inversion H; subst; clear H.
    unfold LSMTableService.Close in E. rewrite mbind_unfold in E.
    destruct (LSMTableService.flushAll _ s w) as [s2 w2|] eqn:EF; [|discriminate].
    apply flushAll_inv in EF as [_ EF]. destruct (EF Hs) as [-> ->].
    destruct (LSMTableService.wal s) as [wl|].
    + rewrite mbind_unfold in E.
      destruct (WAL.Close wl w) as [[wl'|e] w3|]; inversion E; subst; exact Hs.
    + inversion E; subst. exact Hs.
Qed.

Lemma run_imm ops s (w w' : World) rs s' :
  run ops s w = Done (rs, s') w' →
  writesAcked rs = true →
  LSMTableService.immutableTables s = [] → LSMTableService.immutableTables s' = [].
Proof.
  revert s w rs. induction ops as [|op ops IH]; intros s w rs.
  - intros H _ Hs; inversion H; subst. exact Hs.
  - cbn [run]. rewrite mbind_unfold.
    destruct (step s op w) as [[r s1] w1|] eqn:E; [|discriminate].
    rewrite mbind_unfold.
    destruct (run ops s1 w1) as [[rs1 s2] w2|] eqn:ER; [|discriminate].
    intros H Hack Hs; inversion H; subst; clear H.
    cbn [writesAcked forallb] in Hack. apply andb_true_iff in Hack as [Hr Hack].
    eapply IH; [exact ER|exact Hack|].
    eapply step_imm; [exact E| |exact Hs].
    intros e ->. discriminate.
Qed.

(** X28.  The queue of immutable memtables is empty between calls: on a
    service made by [NewLSMTableService], after any sequence of [Put],
    [Delete], [Get], [Recovery] and [Close] calls and compactions in which
    no [Put], [Delete], [Recovery] or [Close] returned an error,
    [GetMemTableStats] reports no immutable memtable.  A memtable that is
    rotated out is flushed to an SSTable before the call that rotated it
    returns. *)
Theorem service_immutable_queue_stays_empty (dataDir : string) (capacity : Z)
    (ops : list Op) (w w0 w' : World) (s0 s' : LSMTableService.t)
    (rs : list Reply) :
  LSMTableService.NewLSMTableService dataDir capacity w = Done (Ok s0) w0 →
  run ops s0 w0 = Done (rs, s') w' →
  writesAcked rs = true →
  LSMTableService.immutableTables s' = [] ∧ snd (LSMTableService.GetMemTableStats s') = 0.
Proof.
  intros HN HR Hack.
  assert (H0 : LSMTableService.immutableTables s0 = []).
  { unfold LSMTableService.NewLSMTableService in HN. rewrite mbind_unfold in HN.
    destruct (LSMTableService.createNewActiveTable _ w) as [[err s1] w1|] eqn:E;
        [|discriminate].
    apply createNewActiveTable_inv in E.
    destruct err as [e|]; [discriminate|].
    destruct E as (Hi & _). inversion HN; subst. exact Hi. }
  pose proof (run_imm _ _ _ _ _ _ HR Hack H0) as Hi.
  split; [exact Hi|]. unfold LSMTableService.GetMemTableStats. cbn. rewrite Hi. reflexivity.
Qed.

Lemma service_immutable_queue_stays_empty_witness :
  ∃ s0 w0 rs s' w',
    LSMTableService.NewLSMTableService "data" 1 emptyWorld = Done (Ok s0) w0 ∧
    run [put "a" "1"; put "b" "2"; put "c" "3"] s0 w0 = Done (rs, s') w' ∧
    writesAcked rs = true ∧
    LSMTableService.immutableTables s' = [] ∧
    snd (LSMTableService.GetMemTableStats s') = 0.
Proof.
  destruct (LSMTableService.NewLSMTableService "data" 1 emptyWorld)
    as [[s0|e] w0|msg] eqn:E0; try (vm_compute in E0; discriminate E0).
  destruct (run [put "a" "1"; put "b" "2"; put "c" "3"] s0 w0)
    as [[rs s'] w'|msg] eqn:E1.
  - assert (Hack : writesAcked rs = true).
    { vm_compute in E0. inversion E0; subst. vm_compute in E1. inversion E1; subst.
      reflexivity. }
    exists s0, w0, rs, s', w'. split; [reflexivity|]. split; [exact E1|].
    split; [exact Hack|].
    exact (service_immutable_queue_stays_empty _ _ _ _ _ _ _ _ _ E0 E1 Hack).
  - vm_compute in E0. inversion E0; subst. vm_compute in E1. discriminate E1.
Defined.


(** The replay of one recovered entry into a memtable that has room. *)
Lemma replay_ok s e (w : World) :
  MemTable.readOnly (LSMTableService.activeTable s) = false →
  MemTable.size (LSMTableService.activeTable s) < MemTable.maxSize (LSMTableService.activeTable
      s) →
  ∃ s' w' e',
    LSMTableService.replay s e w = Done (None, s') w' ∧
    LSMTableService.immutableTables s' = LSMTableService.immutableTables s ∧
    LSMTableService.sstablesByLevel s' = LSMTableService.sstablesByLevel s ∧
    MemTable.readOnly (LSMTableService.activeTable s') = false ∧
    MemTable.maxSize (LSMTableService.activeTable s') = MemTable.maxSize
        (LSMTableService.activeTable s) ∧
    MemTable.size (LSMTableService.activeTable s') <= MemTable.size
        (LSMTableService.activeTable s) + 1 ∧
    MemTable.entries (LSMTableService.activeTable s') = <[key e := e']> (MemTable.entries
        (LSMTableService.activeTable s)) ∧
    LSMTableService.answer e' = LSMTableService.answer e.
Proof.
  intros Hro Hroom. unfold LSMTableService.replay, LSMTableService.answer.
  destruct (IsDeleted e) eqn:Hd.
  - rewrite mbind_unfold. unfold LSMTableService.activeDelete. rewrite Hro, mbind_unfold.
    unfold time_Now, MemTable.Delete. rewrite Hro.
    destruct (Z.leb_spec (MemTable.maxSize (LSMTableService.activeTable s)) (MemTable.size
        (LSMTableService.activeTable s)));
      [lia|]. rewrite andb_false_r.
    eexists _, _, _. split; [reflexivity|]. cbn.
    split_and!; try reflexivity.
    destruct (negb _); lia.
  - rewrite mbind_unfold. unfold LSMTableService.activePut. rewrite Hro, mbind_unfold.
    unfold time_Now, MemTable.Put. rewrite Hro.
    destruct (Z.leb_spec (MemTable.maxSize (LSMTableService.activeTable s)) (MemTable.size
        (LSMTableService.activeTable s)));
      [lia|]. rewrite andb_false_r.
    eexists _, _, _. split; [reflexivity|]. cbn.
    split_and!; try reflexivity.
    destruct (negb _); lia.
Qed.

Lemma last_filter_cons (k : list byte) (e : Entry) (es : list Entry) :
  last (filter (fun x => key x = k) (e :: es)) =
  match last (filter (fun x => key x = k) es) with
  | Some x => Some x
  | None => if decide (key e = k) then Some e else None
  end.
Proof.
  rewrite filter_cons. destruct (decide (key e = k)) as [Ek|Nk]; [|destruct (last _);
      reflexivity].
  destruct (filter (fun x => key x = k) es) as [|y l] eqn:E; [reflexivity|].
  change (last (e :: y :: l)) with (last (y :: l)).
  destruct (last (y :: l)) eqn:El; [reflexivity|].
  apply last_None in El. discriminate.
Qed.

Lemma replayAll_ok es s (w : World) :
  MemTable.readOnly (LSMTableService.activeTable s) = false →
  MemTable.size (LSMTableService.activeTable s) + len es <= MemTable.maxSize
      (LSMTableService.activeTable s) →
  ∃ s' w',
    LSMTableService.replayAll es s w = Done (None, s') w' ∧
    LSMTableService.immutableTables s' = LSMTableService.immutableTables s ∧
    LSMTableService.sstablesByLevel s' = LSMTableService.sstablesByLevel s ∧
    ∀ k, LSMTableService.answer <$> (MemTable.entries (LSMTableService.activeTable s') !! k) =
         match last (filter (fun x => key x = k) es) with
         | Some x => Some (LSMTableService.answer x)
         | None => LSMTableService.answer <$> (MemTable.entries (LSMTableService.activeTable s)
             !! k)
         end.
Proof.
  revert s w. induction es as [|e es IH]; intros s w Hro Hroom.
  - exists s, w. split; [reflexivity|]. auto.
  - unfold len in Hroom. cbn [length] in Hroom.
    destruct (replay_ok s e w Hro ltac:(lia))
      as (s1 & w1 & e' & HR & Hi1 & Hs1 & Hro1 & Hmx1 & Hsz1 & He1 & Ha1).
    destruct (IH s1 w1 Hro1 ltac:(unfold len; lia)) as (s2 & w2 & HA & Hi2 & Hs2 & Hall).
    exists s2, w2. cbn [LSMTableService.replayAll]. rewrite mbind_unfold, HR.
    split; [exact HA|]. split; [congruence|]. split; [congruence|].
    intros k. rewrite Hall, last_filter_cons.
    destruct (last (filter (fun x => key x = k) es)); [reflexivity|].
    rewrite He1. destruct (decide (key e = k)) as [<-|Nk].
    + rewrite lookup_insert_eq. cbn. rewrite Ha1. reflexivity.
    + rewrite lookup_insert_ne by exact Nk. reflexivity.
Qed.

Lemma getFromLevels_empty s n level k (w : World) :
  LSMTableService.sstablesByLevel s = ∅ →
  LSMTableService.getFromLevels s n level k w = Done (Err ErrKeyNotFound) w.
Proof.
  intros He. revert level. induction n as [|n IH]; intros level; [reflexivity|].
  cbn [LSMTableService.getFromLevels]. rewrite mbind_unfold.
  unfold LSMTableService.lookup_level, CompactionManager.lookup_level. rewrite He, lookup_empty.
  cbn [from_option]. unfold Slice.elems, Slice.cells. cbn [Slice.slen Slice.nil].
  rewrite mbind_unfold. cbn [Slice.deref_all ret mret M_ret reverse
      LSMTableService.getFromTables].
  rewrite mbind_unfold. cbn [LSMTableService.getFromTables ret mret M_ret]. apply IH.
Qed.

(** X29.  [Recovery] restores what the first WAL file holds: a service
    opened on a directory whose [wal_0.log] holds the records of entries
    that fit one memtable replays them in order, and [Get] then answers for
    every key as the newest record of that key says: its value, or
    [ErrKeyNotFound] for a tombstone or for a key with no record. *)
Theorem service_recovery_restores_first_wal (dataDir : string) (capacity : Z)
    (es : list Entry) (k : list byte) (w : World) :
  disk w !! filepath_Join (filepath_Join dataDir "wal") "wal_0.log" =
    Some (writeEntries es) →
  Forall wf_entry es →
  len es <= capacity →
  ∃ w', session dataDir capacity [OpRecovery; OpGet k] w =
        Done (Ok [RErr None; RGet (lastWrite es k)]) w'.
Proof.
  intros Hfile Hwf Hroom.
  unfold session. rewrite mbind_unfold.
  unfold LSMTableService.NewLSMTableService. rewrite mbind_unfold.
  unfold LSMTableService.createNewActiveTable at 1. rewrite mbind_unfold.
  cbn [LSMTableService.wal ret mret M_ret]. rewrite mbind_unfold.
  cbn [LSMTableService.walDir LSMTableService.walCounter].
  change ("wal_" +:+ pretty 0 +:+ ".log") with "wal_0.log".
  rewrite (NewWAL_existing _ _ _ _ Hfile).
  cbn [ret mret M_ret]. rewrite mbind_unfold.
  cbn [run]. rewrite mbind_unfold. cbn [step]. rewrite mbind_unfold.
  unfold LSMTableService.Recovery at 1. cbn [LSMTableService.wal LSMTableService.with_wal
      LSMTableService.with_walCounter LSMTableService.with_activeTable].
  rewrite mbind_unfold.
  destruct (Recover_open_ok (filepath_Join (filepath_Join dataDir "wal") "wal_0.log")
              [] w (writeEntries es) es Hfile) as (w1 & -> & Hd1).
  { rewrite app_nil_r. apply readAll_writeEntries, Hwf. }
  match goal with |- context [LSMTableService.replayAll es ?s1 w1] =>
    destruct (replayAll_ok es s1 w1) as (s2 & w2 & -> & Hi2 & Hs2 & Hall) end.
  { reflexivity. }
  { cbn. lia. }
  cbn in Hi2, Hs2.
  cbn [ret mret M_ret]. rewrite mbind_unfold. cbn [run]. rewrite mbind_unfold.
  cbn [step]. rewrite mbind_unfold.
  assert (HG : LSMTableService.Get s2 k w2 = Done (lastWrite es k) w2).
  { unfold LSMTableService.Get, MemTable.Get, lastWrite. specialize (Hall k). cbn in Hall.
    rewrite lookup_empty in Hall. cbn in Hall.
    destruct (MemTable.entries (LSMTableService.activeTable s2) !! k) as [e|] eqn:E;
      destruct (last (filter (fun x => key x = k) es)) as [x|]; cbn in Hall;
      try discriminate.
    - inversion Hall as [Ha]. reflexivity.
    - rewrite Hi2. cbn [reverse LSMTableService.getFromImmutables].
      apply getFromLevels_empty. exact Hs2. }
  rewrite HG. cbn [ret mret M_ret]. exists w2. reflexivity.
Qed.

Lemma service_recovery_restores_first_wal_witness :
  disk restartWorld !! filepath_Join (filepath_Join "data" "wal") "wal_0.log" =
    Some (writeEntries walEntries) ∧
  Forall wf_entry walEntries ∧
  len walEntries <= 5 ∧
  ∃ w', session "data" 5 [OpRecovery; OpGet (bytes_of_string "key3")] restartWorld =
        Done (Ok [RErr None; RGet (lastWrite walEntries (bytes_of_string "key3"))]) w'.
Proof.
  assert (H1 : disk restartWorld !! filepath_Join (filepath_Join "data" "wal") "wal_0.log" =
               Some (writeEntries walEntries)) by reflexivity.
  assert (H2 : Forall wf_entry walEntries) by (unfold walEntries; solve_wf).
  assert (H3 : len walEntries <= 5) by (vm_compute; discriminate).
  split; [exact H1|]. split; [exact H2|]. split; [exact H3|].
  exact (service_recovery_restores_first_wal "data" 5 walEntries
           (bytes_of_string "key3") restartWorld H1 H2 H3).
Defined.
